(** * dynamite: the matrix-free (shell) GPU backend

    A shallow embedding of [src/dynamite/_backend/bcuda_template.cu]
    (with [shell_context.h] and [bcuda_template_private.h]): context
    construction, the two multiply kernels, the norm kernel and their host
    drivers, followed by the properties the specification states about
    them.

    Conventions of the embedding.
    - [PetscInt] is [Z]; bit operations are [Z.lxor] and [Z.land].  Where
      the source mixes [PetscInt] with [int] or [unsigned int], in
      [max_msc] and in the index arithmetic of a launch, the conversions
      are written out.
    - [PetscReal] is an abstract type with the operations the code uses
      (class [RealOps]); no law is assumed unless a theorem names the class
      [RealLaws], which states the exact-arithmetic idealisation of
      floating point.  [PetscScalar] is a pair of reals.
    - A C array is a list; a read or a write outside the array is a memory
      fault, [None] in the option monad.
    - A kernel launch runs its blocks and threads one after the other; no
      thread reads what another thread writes between two barriers, so the
      order is immaterial.
    - Macros of the build that are defined outside the files at hand
      ([TERM_REAL_CUDA], the width of [PetscInt], the subspace functions
      [I2S_CUDA] and [S2I_CUDA]) are parameters. *)

From Stdlib Require Import ZArith List Lia Bool FinFun.
Import ListNotations.
Local Open Scope Z_scope.

Module Dynamite.

(** ** The option monad of memory faults *)

Definition bind {A B : Type} (c : option A) (k : A -> option B) : option B :=
  match c with
  | Some a => k a
  | None => None
  end.

Notation "x <- c ;; k" := (bind c (fun x => k))
  (at level 61, c at next level, right associativity).

Fixpoint foldM {A B : Type} (f : B -> A -> option B) (l : list A) (b : B)
  : option B :=
  match l with
  | [] => Some b
  | a :: l' => b' <- f b a ;; foldM f l' b'
  end.

Fixpoint mapM {A B : Type} (f : A -> option B) (l : list A) : option (list B) :=
  match l with
  | [] => Some []
  | a :: l' => b <- f a ;; bs <- mapM f l' ;; Some (b :: bs)
  end.

(** ** Arrays *)

(** [arr[i]] as an rvalue. *)
Definition rd {A : Type} (arr : list A) (i : Z) : option A :=
  if i <? 0 then None else nth_error arr (Z.to_nat i).

Fixpoint upd_nat {A : Type} (arr : list A) (n : nat) (f : A -> A)
  : option (list A) :=
  match arr, n with
  | [], _ => None
  | a :: arr', O => Some (f a :: arr')
  | a :: arr', S n' => r <- upd_nat arr' n' f ;; Some (a :: r)
  end.

(** [arr[i] = f(arr[i])]. *)
Definition upd {A : Type} (arr : list A) (i : Z) (f : A -> A)
  : option (list A) :=
  if i <? 0 then None else upd_nat arr (Z.to_nat i) f.

(** [ptr + k]: the array seen from its [k]-th cell. *)
Definition shift {A : Type} (arr : list A) (k : Z) : list A :=
  skipn (Z.to_nat k) arr.

(** The cells [lo .. hi-1] of an array. *)
Definition slice {A : Type} (arr : list A) (lo hi : Z) : list A :=
  firstn (Z.to_nat (hi - lo)) (skipn (Z.to_nat lo) arr).

(** ** Loops *)

(** The values of [i] in [for (i = lo; i < hi; ++i)]. *)
Definition zrange (lo hi : Z) : list Z :=
  map (fun k => lo + Z.of_nat k) (seq 0 (Z.to_nat (hi - lo))).

(** The values of [i] in [for (i = start; i < stop; i += step)], [step > 0]. *)
Definition zstride (start stop step : Z) : list Z :=
  if stop <=? start then []
  else map (fun k => start + step * Z.of_nat k)
           (seq 0 (Z.to_nat (Z.quot (stop - start - 1) step + 1))).

(** The values of [i] in [for (i = start; i < stop; i *= 2)]. *)
Fixpoint zdoubling (fuel : nat) (i stop : Z) : list Z :=
  match fuel with
  | O => []
  | S fuel' => if i <? stop then i :: zdoubling fuel' (2 * i) stop else []
  end.

(** ** Bits *)

Fixpoint popcount_pos (p : positive) : Z :=
  match p with
  | xH => 1
  | xO p' => popcount_pos p'
  | xI p' => 1 + popcount_pos p'
  end.

Definition popcount (n : Z) : Z :=
  match n with
  | Zpos p => popcount_pos p
  | _ => 0
  end.

(** ** Machine integers *)

(** The value of an [int] taken as an [unsigned int], and the value of an
    [unsigned int] stored in an [int]. *)
Definition to_unsigned (v : Z) : Z := v mod 2 ^ 32.

Definition to_int (v : Z) : Z :=
  let u := v mod 2 ^ 32 in
  if u <? 2 ^ 31 then u else u - 2 ^ 32.

(** The value of a [double] stored in an [int], from the integer part of
    the [double]: the integer part itself, and [INT_MIN] when the integer
    part is outside the range of [int].  C leaves the second case
    undefined; [INT_MIN] is what the conversion instruction of the host
    gives. *)
Definition double_to_int (v : Z) : Z :=
  if (- 2 ^ 31 <=? v) && (v <? 2 ^ 31) then v else - 2 ^ 31.

(** ** Scalars *)

(** The operations the backend performs on [PetscReal]. *)
Class RealOps := {
  PetscReal : Type;
  of_int : Z -> PetscReal;                      (* integer to real conversion *)
  radd : PetscReal -> PetscReal -> PetscReal;
  rsub : PetscReal -> PetscReal -> PetscReal;
  rmul : PetscReal -> PetscReal -> PetscReal;
  rgt : PetscReal -> PetscReal -> bool;         (* [a > b] *)
  rne : PetscReal -> PetscReal -> bool;         (* [a != b] *)
  rhypot : PetscReal -> PetscReal -> PetscReal  (* modulus of [a + b i] *)
}.

Section Scalars.
Context {ops : RealOps}.

Record PetscScalar := Cplx { re : PetscReal; im : PetscReal }.

Definition PetscRealPart (z : PetscScalar) : PetscReal := re z.
Definition PetscImaginaryPart (z : PetscScalar) : PetscReal := im z.

(** [PetscScalar z = n;] *)
Definition cof_int (n : Z) : PetscScalar := Cplx (of_int n) (of_int 0).

Definition cadd (a b : PetscScalar) : PetscScalar :=
  Cplx (radd (re a) (re b)) (radd (im a) (im b)).

Definition cmul (a b : PetscScalar) : PetscScalar :=
  Cplx (rsub (rmul (re a) (re b)) (rmul (im a) (im b)))
       (radd (rmul (re a) (im b)) (rmul (im a) (re b))).

(** [z *= s] for an integer [s]. *)
Definition cscale_int (z : PetscScalar) (s : Z) : PetscScalar :=
  Cplx (rmul (re z) (of_int s)) (rmul (im z) (of_int s)).

(** [abs(z)]. *)
Definition cabs (z : PetscScalar) : PetscReal := rhypot (re z) (im z).

(** Modelled from the spec: [add_real] and [add_imag] are helpers of the
    device code that are declared outside the files at hand; the spec has
    the term sum "split into real/imaginary accumulators", so the one adds
    its argument to the real part and the other to the imaginary part. *)
Definition add_real (z : PetscScalar) (v : PetscReal) : PetscScalar :=
  Cplx (radd (re z) v) (im z).

Definition add_imag (z : PetscScalar) (v : PetscReal) : PetscScalar :=
  Cplx (re z) (radd (im z) v).

End Scalars.

(** ** Build configuration *)

(** What the build fixes by macros defined outside the files at hand:
    whether [PetscInt] has 64 bits, and the classification of a term as
    real or imaginary from its mask and its sign mask. *)
Class Macros := {
  PETSC_USE_64BIT_INDICES : bool;
  TERM_REAL_CUDA : Z -> Z -> bool
}.

Definition GPU_BLOCK_SIZE : Z := 128.
Definition GPU_BLOCK_NUM : Z := 128.

(** [__popc] / [__popcll]: the number of set bits of the two's complement
    representation. *)
Definition popc {mac : Macros} (v : Z) : Z :=
  popcount (v mod 2 ^ (if PETSC_USE_64BIT_INDICES then 64 else 32)).

(** ** Subspaces *)

Inductive subspace_type : Type :=
  | Full_SP
  | Parity_SP
  | SpinConserve_SP
  | Explicit_SP.

Definition subspace_type_eqb (a b : subspace_type) : bool :=
  match a, b with
  | Full_SP, Full_SP | Parity_SP, Parity_SP
  | SpinConserve_SP, SpinConserve_SP | Explicit_SP, Explicit_SP => true
  | _, _ => false
  end.

(** A [data_<SUBSPACE>] structure together with the functions the template
    instantiates for it.  [S2I_CUDA] returns the index and, for
    [SpinConserve], the sign it stores through its extra pointer argument;
    the other variants have no such argument and callers drop the second
    component.  [spinflip] is the field of [data_SpinConserve]. *)
Record subspace := {
  SP : subspace_type;
  L : Z;
  Dim : Z;
  I2S_CUDA : Z -> Z;
  S2I_CUDA : Z -> Z * Z;
  spinflip : Z
}.

(** Modelled from the spec: the [Full] variant is declared outside the files
    at hand; "Full: identity mapping; dimension = 2^L", and [state_to_index]
    "returns a sentinel for states outside the set". *)
Definition Full (L : Z) : subspace :=
  {| SP := Full_SP;
     L := L;
     Dim := 2 ^ L;
     I2S_CUDA := fun idx => idx;
     S2I_CUDA := fun state =>
       (if (0 <=? state) && (state <? 2 ^ L) then state else -1, 1);
     spinflip := 0 |}.

Fixpoint index_of (state : Z) (states : list Z) (i : Z) : Z :=
  match states with
  | [] => -1
  | s :: rest => if s =? state then i else index_of state rest (i + 1)
  end.

(** Modelled from the spec: the [Explicit] variant is declared outside the
    files at hand; "caller-supplied finite set of basis states in arbitrary
    order; dimension = set size", [state_to_index] "returns a sentinel for
    states outside the set". *)
Definition Explicit (L : Z) (states : list Z) : subspace :=
  {| SP := Explicit_SP;
     L := L;
     Dim := Z.of_nat (length states);
     I2S_CUDA := fun idx => nth (Z.to_nat idx) states (-1);
     S2I_CUDA := fun state => (index_of state states 0, 1);
     spinflip := 0 |}.

(** ** Process group *)

Record MPI_Comm := {
  mpi_size : Z;
  mpi_rank : Z
}.

(** PETSc's [PetscSplitOwnership] with [PETSC_DECIDE]: the local share of a
    global length [N]. *)
Definition PetscSplitOwnership (comm : MPI_Comm) (N : Z) : Z :=
  N / mpi_size comm + (if N mod mpi_size comm >? mpi_rank comm then 1 else 0).

(** PETSc's [VecGetOwnershipRange] for a vector of global length [N] laid
    out by [PetscSplitOwnership]: the shares of the lower ranks come
    first. *)
Definition VecGetOwnershipRange (comm : MPI_Comm) (N : Z) : Z * Z :=
  let start := mpi_rank comm * (N / mpi_size comm)
               + Z.min (mpi_rank comm) (N mod mpi_size comm) in
  (start, start + PetscSplitOwnership comm N).

(** ** Term encoding and shell context *)

(** [msc_t] of [shell_context.h]; its fields are qualified, [msc.masks],
    since the context has fields of the same names. *)
Module msc.
Record t {ops : RealOps} := {
  nmasks : Z;
  masks : list Z;
  mask_offsets : list Z;
  signs : list Z;
  coeffs : list PetscScalar
}.
End msc.

Definition msc_t {ops : RealOps} : Type := msc.t.

(** The handle [VecScatterCreateToAll] returns. *)
Inductive VecScatter : Type :=
  | ScatterToAll.

(** [shell_context] of [shell_context.h].  [sc_ctx] is [None] for
    [PETSC_NULL]. *)
Record shell_context {ops : RealOps} := {
  nmasks_local : Z;
  nmasks : Z;
  masks : list Z;
  mask_offsets : list Z;
  signs : list Z;
  real_coeffs : list PetscReal;
  left_subspace_data : subspace;
  right_subspace_data : subspace;
  nrm : PetscReal;
  sc_ctx : option VecScatter;
  x_all : list PetscScalar
}.

(** A shell matrix: the global sizes given to [MatCreateShell] and the
    context. *)
Record Mat {ops : RealOps} := {
  mat_M : Z;
  mat_N : Z;
  mat_ctx : shell_context
}.

(** A distributed vector, by its global contents; a process sees the cells
    of its ownership range. *)
Definition Vec {ops : RealOps} : Type := list PetscScalar.

Inductive NormType : Type :=
  | NORM_1
  | NORM_2
  | NORM_FROBENIUS
  | NORM_INFINITY
  | NORM_1_AND_2.

Definition NormType_eqb (a b : NormType) : bool :=
  match a, b with
  | NORM_1, NORM_1 | NORM_2, NORM_2 | NORM_FROBENIUS, NORM_FROBENIUS
  | NORM_INFINITY, NORM_INFINITY | NORM_1_AND_2, NORM_1_AND_2 => true
  | _, _ => false
  end.

Definition PetscErrorCode : Type := Z.
Definition PETSC_ERR_ARG_OUTOFRANGE : PetscErrorCode := 63.

(** What a host function does that the specification speaks of, in program
    order. *)
Inductive event : Type :=
  | EvScatterCreate
  | EvScatterBegin
  | EvScatterEnd
  | EvVecSet
  | EvLaunchLocal (first_mask nmasks : Z)
  | EvLaunchGlobal (first_mask nmasks : Z)
  | EvLaunchNorm (nmasks : Z)
  | EvCacheRead
  | EvCacheWrite.

(** The result of a host function: it returns an error code and leaves a
    state behind, or the process faults on a memory access. *)
Inductive outcome (S : Type) : Type :=
  | Returned (ierr : PetscErrorCode) (s : S) (tr : list event)
  | Fault.

Arguments Returned {S} ierr s tr.
Arguments Fault {S}.

(** How a kernel stores a row of the output. *)
Inductive write_kind : Type :=
  | AtomicAdd
  | PlainStore
  | PlainAdd.


Section Backend.
Context {ops : RealOps} {mac : Macros}.

(** *** BuildContext_CUDA *)

(** [int max_msc = pow(2, L - log(mpi_size)/log(2))]: the real number
    [2^L / mpi_size], stored in an [int].  The floating-point evaluation is
    taken as exact; the conversion to [int] is the one of the host. *)
Definition max_msc (L : Z) (mpi_size : Z) : Z :=
  double_to_int (Z.quot (2 ^ L) mpi_size).

(** The loop of lines 74-78: it leaves [nmasks_local] at the first index
    whose mask is not below [max_msc], or at [nmasks]. *)
Fixpoint count_local (fuel : nat) (masks : list Z) (nmasks max_msc : Z)
  (nmasks_local : Z) : option Z :=
  match fuel with
  | O => Some nmasks_local
  | S fuel' =>
      if nmasks_local <? nmasks then
        m <- rd masks nmasks_local ;;
        if m >=? max_msc then Some nmasks_local
        else count_local fuel' masks nmasks max_msc (nmasks_local + 1)
      else Some nmasks_local
  end.

(** The loop of lines 108-111. *)
Definition build_real_coeffs (coeffs : list PetscScalar) (nterms : Z)
  : option (list PetscReal) :=
  mapM (fun i =>
          c <- rd coeffs i ;;
          let real_part := PetscRealPart c in
          Some (if rne real_part (of_int 0) then real_part
                else PetscImaginaryPart c))
       (zrange 0 nterms).

(** The host-to-device copy of [n] cells; [None] when the source is
    shorter. *)
Definition cudaMemcpy {A : Type} (src : list A) (n : Z) : option (list A) :=
  if (n <? 0) || (Z.of_nat (length src) <? n) then None
  else Some (firstn (Z.to_nat n) src).

Definition BuildContext_CUDA (comm : MPI_Comm) (m : msc_t)
  (left_subspace_data right_subspace_data : subspace)
  : option shell_context :=
  nterms <- rd (msc.mask_offsets m) (msc.nmasks m) ;;
  let max_msc := max_msc (L left_subspace_data) (mpi_size comm) in
  nmasks_local <- count_local (Z.to_nat (msc.nmasks m)) (msc.masks m)
                    (msc.nmasks m) max_msc 0 ;;
  d_masks <- cudaMemcpy (msc.masks m) (msc.nmasks m) ;;
  d_mask_offsets <- cudaMemcpy (msc.mask_offsets m) (msc.nmasks m + 1) ;;
  d_signs <- cudaMemcpy (msc.signs m) nterms ;;
  cpu_real_coeffs <- build_real_coeffs (msc.coeffs m) nterms ;;
  Some {| nmasks_local := nmasks_local;
          nmasks := msc.nmasks m;
          masks := d_masks;
          mask_offsets := d_mask_offsets;
          signs := d_signs;
          real_coeffs := cpu_real_coeffs;
          left_subspace_data := left_subspace_data;
          right_subspace_data := right_subspace_data;
          nrm := of_int (-1);
          sc_ctx := None;
          x_all := [] |}.

(** [BuildGPUShell]: the global sizes are the dimensions of the two
    subspaces. *)
Definition BuildGPUShell (comm : MPI_Comm) (m : msc_t)
  (left_subspace_data right_subspace_data : subspace) : option Mat :=
  ctx <- BuildContext_CUDA comm m left_subspace_data right_subspace_data ;;
  Some {| mat_M := Dim left_subspace_data;
          mat_N := Dim right_subspace_data;
          mat_ctx := ctx |}.

(** *** MatDestroyCtx_GPU *)


(** *** The grid *)

(** The rows a thread visits: lines 272-276 and 289-292 (the same in the
    three kernels, over [size] rows).  [gridDim.x], [blockIdx.x],
    [blockDim.x] and [threadIdx.x] are [unsigned int].  With 64-bit indices
    they are converted to [PetscInt] and the arithmetic is signed.  With
    32-bit indices [PetscInt] is [int]: an operation between a [PetscInt]
    and one of them is done on [unsigned int], and its result is converted
    back when it is stored in a [PetscInt]; [PetscMin(a,b)] is
    [a < b ? a : b].  So a launch over no row ([size = 0]) has
    [entries_per_group = 2^32 / gridDim], and the blocks whose start is
    [2^31] or more start at a negative row and run up to row 0.  The
    increment of the loop is taken as exact, which it is whenever
    [vec_stop_index + blockDim <= 2^31]. *)
Definition thread_rows (size gridDim blockDim blockIdx threadIdx : Z)
  : list Z :=
  if PETSC_USE_64BIT_INDICES then
    let entries_per_group := Z.quot (size - 1) gridDim + 1 in
    let entries_per_group :=
      if entries_per_group =? 0 then 1 else entries_per_group in
    let vec_start_index := blockIdx * entries_per_group in
    let vec_stop_index := Z.min ((blockIdx + 1) * entries_per_group) size in
    let this_start := vec_start_index + threadIdx in
    zstride this_start vec_stop_index blockDim
  else
    let entries_per_group := to_int (to_unsigned (size - 1) / gridDim + 1) in
    let entries_per_group :=
      if entries_per_group =? 0 then 1 else entries_per_group in
    let vec_start_index :=
      to_int (blockIdx * to_unsigned entries_per_group) in
    let group_end :=
      to_unsigned ((blockIdx + 1) * to_unsigned entries_per_group) in
    let vec_stop_index :=
      to_int (if group_end <? to_unsigned size then group_end
              else to_unsigned size) in
    let this_start := to_int (to_unsigned vec_start_index + threadIdx) in
    zstride this_start vec_stop_index blockDim.

(** [kernel<<<gridDim, blockDim>>>] for a kernel without barriers. *)
Definition launch {S : Type} (gridDim blockDim : Z)
  (thread : Z -> Z -> S -> option S) (s : S) : option S :=
  foldM (fun s blockIdx =>
           foldM (fun s threadIdx => thread blockIdx threadIdx s)
                 (zrange 0 blockDim) s)
        (zrange 0 gridDim) s.

(** *** The sum of the terms of a mask *)

(** Lines 307-311: the sign of a term on the flipped state [bra]. *)
Definition term_sign (bra sign_mask : Z) : PetscReal :=
  let sign := of_int (Z.land (popc (Z.land bra sign_mask)) 1) in
  rsub (of_int 1) (rmul (of_int 2) sign).

(** Lines 306-317, the body of the loop over the terms. *)
Definition term_step (signs : list Z) (real_coeffs : list PetscReal)
  (mask bra : Z) (tmp : PetscScalar) (term_idx : Z) : option PetscScalar :=
  s <- rd signs term_idx ;;
  c <- rd real_coeffs term_idx ;;
  let sign := term_sign bra s in
  Some (if TERM_REAL_CUDA mask s
        then add_real tmp (rmul sign c)
        else add_imag tmp (rmul sign c)).

(** Lines 301-318, which lines 401-418 and 540-556 repeat: the flipped state
    and the sum of the terms of the mask at [mask_idx]. *)
Definition term_sum (masks mask_offsets signs : list Z)
  (real_coeffs : list PetscReal) (ket mask_idx : Z)
  : option (Z * PetscScalar) :=
  mask <- rd masks mask_idx ;;
  let bra := Z.lxor ket mask in
  lo <- rd mask_offsets mask_idx ;;
  hi <- rd mask_offsets (mask_idx + 1) ;;
  tmp <- foldM (term_step signs real_coeffs mask bra) (zrange lo hi)
               (cof_int 0) ;;
  Some (bra, tmp).

(** Lines 320-325: the column of the flipped state, and the sum times the
    sign of the lookup when the right subspace is [SpinConserve]. *)
Definition lookup_column (right_subspace_data : subspace) (bra : Z)
  (tmp : PetscScalar) : Z * PetscScalar :=
  match SP right_subspace_data with
  | SpinConserve_SP =>
      let '(col_idx, s2i_sign) := S2I_CUDA right_subspace_data bra in
      (col_idx, cscale_int tmp s2i_sign)
  | _ => (fst (S2I_CUDA right_subspace_data bra), tmp)
  end.

(** The store of a row, by its kind. *)
Definition store (k : write_kind) (barray : list PetscScalar) (row_idx : Z)
  (val : PetscScalar) : option (list PetscScalar) :=
  match k with
  | AtomicAdd =>
      upd barray row_idx
          (fun old => Cplx (radd (re old) (re val)) (radd (im old) (im val)))
  | PlainStore => upd barray row_idx (fun _ => val)
  | PlainAdd => upd barray row_idx (fun old => cadd old val)
  end.

(** The output array of a multiply kernel and the stores done so far, latest
    first. *)
Definition kstate : Type := list PetscScalar * list (Z * write_kind).

Definition store_row (k : write_kind) (row_idx : Z) (val : PetscScalar)
  (st : kstate) : option kstate :=
  barray <- store k (fst st) row_idx val ;;
  Some (barray, (row_idx, k) :: snd st).

(** *** device_MatMult_local *)

(** Lines 301-331, the body of the loop over the masks. *)
Definition local_mask_step (masks mask_offsets signs : list Z)
  (real_coeffs : list PetscReal) (right_subspace_data : subspace)
  (xarray : list PetscScalar) (col_start ket : Z)
  (val : PetscScalar) (mask_idx : Z) : option PetscScalar :=
  bt <- term_sum masks mask_offsets signs real_coeffs ket mask_idx ;;
  let '(col_idx, tmp) := lookup_column right_subspace_data (fst bt) (snd bt) in
  if col_idx =? -1 then Some val
  else xv <- rd xarray (col_idx - col_start) ;; Some (cadd val (cmul tmp xv)).

(** Lines 334-347. *)
Definition local_write_kind (right_subspace_data : subspace) : write_kind :=
  match SP right_subspace_data with
  | SpinConserve_SP =>
      if spinflip right_subspace_data =? 0 then PlainStore else AtomicAdd
  | _ => PlainStore
  end.

(** Lines 294-347, the body of the loop over the rows. *)
Definition local_row (masks mask_offsets signs : list Z)
  (real_coeffs : list PetscReal) (nmasks : Z)
  (left_subspace_data right_subspace_data : subspace)
  (xarray : list PetscScalar) (row_start col_start : Z)
  (st : kstate) (row_idx : Z) : option kstate :=
  let ket := I2S_CUDA left_subspace_data (row_idx + row_start) in
  val <- foldM (local_mask_step masks mask_offsets signs real_coeffs
                  right_subspace_data xarray col_start ket)
               (zrange 0 nmasks) (cof_int 0) ;;
  store_row (local_write_kind right_subspace_data) row_idx val st.

Definition device_MatMult_local (gridDim blockDim : Z)
  (masks mask_offsets signs : list Z) (real_coeffs : list PetscReal)
  (nmasks : Z) (left_subspace_data right_subspace_data : subspace)
  (xarray barray : list PetscScalar) (row_start row_end col_start : Z)
  : option kstate :=
  let local_size := row_end - row_start in
  launch gridDim blockDim
    (fun blockIdx threadIdx st =>
       foldM (local_row masks mask_offsets signs real_coeffs nmasks
                left_subspace_data right_subspace_data xarray row_start
                col_start)
             (thread_rows local_size gridDim blockDim blockIdx threadIdx) st)
    (barray, []).

(** *** device_MatMult_global *)

(** Lines 401-431. *)
Definition global_mask_step (masks mask_offsets signs : list Z)
  (real_coeffs : list PetscReal) (right_subspace_data : subspace)
  (x_allarray : list PetscScalar) (ket : Z)
  (val : PetscScalar) (mask_idx : Z) : option PetscScalar :=
  bt <- term_sum masks mask_offsets signs real_coeffs ket mask_idx ;;
  let '(col_idx, tmp) := lookup_column right_subspace_data (fst bt) (snd bt) in
  if col_idx =? -1 then Some val
  else xv <- rd x_allarray col_idx ;; Some (cadd val (cmul tmp xv)).

(** Lines 434-447. *)
Definition global_write_kind (right_subspace_data : subspace) : write_kind :=
  match SP right_subspace_data with
  | SpinConserve_SP =>
      if spinflip right_subspace_data =? 0 then PlainAdd else AtomicAdd
  | _ => PlainAdd
  end.

(** Lines 394-447. *)
Definition global_row (masks mask_offsets signs : list Z)
  (real_coeffs : list PetscReal) (nmasks : Z)
  (left_subspace_data right_subspace_data : subspace)
  (x_allarray : list PetscScalar) (row_start : Z)
  (st : kstate) (row_idx : Z) : option kstate :=
  let ket := I2S_CUDA left_subspace_data (row_idx + row_start) in
  val <- foldM (global_mask_step masks mask_offsets signs real_coeffs
                  right_subspace_data x_allarray ket)
               (zrange 0 nmasks) (cof_int 0) ;;
  store_row (global_write_kind right_subspace_data) row_idx val st.

Definition device_MatMult_global (gridDim blockDim : Z)
  (masks mask_offsets signs : list Z) (real_coeffs : list PetscReal)
  (nmasks : Z) (left_subspace_data right_subspace_data : subspace)
  (barray x_allarray : list PetscScalar) (row_start row_end : Z)
  : option kstate :=
  let local_size := row_end - row_start in
  launch gridDim blockDim
    (fun blockIdx threadIdx st =>
       foldM (global_row masks mask_offsets signs real_coeffs nmasks
                left_subspace_data right_subspace_data x_allarray row_start)
             (thread_rows local_size gridDim blockDim blockIdx threadIdx) st)
    (barray, []).

(** *** MatMult_GPU *)

(** [VecScatterCreateToAll] on the first multiply, and what
    [VecScatterBegin] and [VecScatterEnd] leave in [x_all]: the whole of
    [x]. *)
Definition scatter_to_all (ctx : shell_context) (x : Vec) : shell_context :=
  {| nmasks_local := nmasks_local ctx;
     nmasks := nmasks ctx;
     masks := masks ctx;
     mask_offsets := mask_offsets ctx;
     signs := signs ctx;
     real_coeffs := real_coeffs ctx;
     left_subspace_data := left_subspace_data ctx;
     right_subspace_data := right_subspace_data ctx;
     nrm := nrm ctx;
     sc_ctx := Some ScatterToAll;
     x_all := x |}.

Definition with_ctx (A : Mat) (ctx : shell_context) : Mat :=
  {| mat_M := mat_M A; mat_N := mat_N A; mat_ctx := ctx |}.

(** The multiply of one process of [comm].  [x] and [b] are the distributed
    vectors; the process reads its own cells of [x] through [xarray], all of
    [x] through [x_all] once the scatter has ended, and writes its own cells
    of [b]. *)
Definition MatMult_GPU (comm : MPI_Comm) (A : Mat) (x b : Vec)
  : outcome (Mat * Vec) :=
  let ctx := mat_ctx A in
  let tr_create :=
    match sc_ctx ctx with
    | None => [EvScatterCreate]
    | Some _ => []
    end in
  let ctx' := scatter_to_all ctx x in
  let '(row_start, row_end) :=
    VecGetOwnershipRange comm (Z.of_nat (length b)) in
  let '(col_start, col_end) :=
    VecGetOwnershipRange comm (Z.of_nat (length x)) in
  let xarray := slice x col_start col_end in
  (* VecSet(b, 0) *)
  let barray := repeat (cof_int 0) (Z.to_nat (row_end - row_start)) in
  match device_MatMult_local GPU_BLOCK_NUM GPU_BLOCK_SIZE
          (masks ctx) (mask_offsets ctx) (signs ctx) (real_coeffs ctx)
          (nmasks_local ctx)
          (left_subspace_data ctx) (right_subspace_data ctx)
          xarray barray row_start row_end col_start with
  | None => Fault
  | Some (barray, _) =>
      let x_allarray := x_all ctx' in
      let global :=
        if nmasks ctx - nmasks_local ctx >? 0 then
          match device_MatMult_global GPU_BLOCK_NUM GPU_BLOCK_SIZE
                  (shift (masks ctx) (nmasks_local ctx))
                  (shift (mask_offsets ctx) (nmasks_local ctx))
                  (signs ctx) (real_coeffs ctx)
                  (nmasks ctx - nmasks_local ctx)
                  (left_subspace_data ctx) (right_subspace_data ctx)
                  barray x_allarray row_start row_end with
          | None => None
          | Some (barray, _) =>
              Some (barray,
                    [EvLaunchGlobal (nmasks_local ctx)
                       (nmasks ctx - nmasks_local ctx)])
          end
        else Some (barray, []) in
      match global with
      | None => Fault
      | Some (barray, tr_global) =>
          Returned 0
            (with_ctx A ctx',
             firstn (Z.to_nat row_start) b ++ barray
               ++ skipn (Z.to_nat row_end) b)
            (tr_create
               ++ [EvScatterBegin; EvVecSet;
                   EvLaunchLocal 0 (nmasks_local ctx); EvScatterEnd]
               ++ tr_global)
      end
  end.

(** *** device_MatNorm *)

(** Lines 540-557. *)
Definition norm_mask_step (masks mask_offsets signs : list Z)
  (real_coeffs : list PetscReal) (ket : Z)
  (sum : PetscReal) (mask_idx : Z) : option PetscReal :=
  bt <- term_sum masks mask_offsets signs real_coeffs ket mask_idx ;;
  Some (radd sum (cabs (snd bt))).

(** Lines 537-558: the sum of a row. *)
Definition norm_row (masks mask_offsets signs : list Z)
  (real_coeffs : list PetscReal) (nmasks : Z)
  (left_subspace_data : subspace) (row_idx : Z) : option PetscReal :=
  let ket := I2S_CUDA left_subspace_data row_idx in
  foldM (norm_mask_step masks mask_offsets signs real_coeffs ket)
        (zrange 0 nmasks) (of_int 0).

(** Lines 535-562: a thread leaves the largest of its rows' sums, or zero,
    in its cell of the shared array. *)
Definition norm_thread (gridDim blockDim size : Z)
  (masks mask_offsets signs : list Z) (real_coeffs : list PetscReal)
  (nmasks : Z) (left_subspace_data : subspace) (blockIdx : Z)
  (threadmax : list PetscReal) (threadIdx : Z) : option (list PetscReal) :=
  threadmax <- upd threadmax threadIdx (fun _ => of_int 0) ;;
  foldM (fun threadmax row_idx =>
           sum <- norm_row masks mask_offsets signs real_coeffs nmasks
                    left_subspace_data row_idx ;;
           cur <- rd threadmax threadIdx ;;
           if rgt sum cur then upd threadmax threadIdx (fun _ => sum)
           else Some threadmax)
        (thread_rows size gridDim blockDim blockIdx threadIdx) threadmax.

(** Lines 568-572: what a thread does in the round of stride [i]. *)
Definition reduce_thread (i : Z) (threadmax : list PetscReal)
  (threadIdx : Z) : option (list PetscReal) :=
  if Z.rem threadIdx (2 * i) =? 0 then
    v1 <- rd threadmax threadIdx ;;
    v2 <- rd threadmax (threadIdx + i) ;;
    upd threadmax threadIdx (fun _ => if rgt v1 v2 then v1 else v2)
  else Some threadmax.

(** One round of the reduction, between two barriers. *)
Definition reduce_round (blockDim : Z) (threadmax : list PetscReal) (i : Z)
  : option (list PetscReal) :=
  foldM (reduce_thread i) (zrange 0 blockDim) threadmax.

(** A block: the threads fill the shared array, the rounds reduce it, and
    thread 0 stores its first cell (line 576).  The shared array has
    [blockDim] cells; every thread writes its cell before any cell is read,
    so what the array holds at the start does not matter. *)
Definition norm_block (gridDim blockDim size : Z)
  (masks mask_offsets signs : list Z) (real_coeffs : list PetscReal)
  (nmasks : Z) (left_subspace_data : subspace)
  (d_maxs : list PetscReal) (blockIdx : Z) : option (list PetscReal) :=
  threadmax <- foldM (norm_thread gridDim blockDim size masks mask_offsets
                        signs real_coeffs nmasks left_subspace_data blockIdx)
                     (zrange 0 blockDim)
                     (repeat (of_int 0) (Z.to_nat blockDim)) ;;
  threadmax <- foldM (reduce_round blockDim)
                     (zdoubling (Z.to_nat blockDim) 1 blockDim) threadmax ;;
  top <- rd threadmax 0 ;;
  upd d_maxs blockIdx (fun _ => top).

Definition device_MatNorm (gridDim blockDim size : Z)
  (masks mask_offsets signs : list Z) (real_coeffs : list PetscReal)
  (nmasks : Z) (left_subspace_data right_subspace_data : subspace)
  (d_maxs : list PetscReal) : option (list PetscReal) :=
  foldM (norm_block gridDim blockDim size masks mask_offsets signs
           real_coeffs nmasks left_subspace_data)
        (zrange 0 gridDim) d_maxs.

(** *** MatNorm_GPU *)

Definition with_nrm (ctx : shell_context) (v : PetscReal) : shell_context :=
  {| nmasks_local := nmasks_local ctx;
     nmasks := nmasks ctx;
     masks := masks ctx;
     mask_offsets := mask_offsets ctx;
     signs := signs ctx;
     real_coeffs := real_coeffs ctx;
     left_subspace_data := left_subspace_data ctx;
     right_subspace_data := right_subspace_data ctx;
     nrm := v;
     sc_ctx := sc_ctx ctx;
     x_all := x_all ctx |}.

(** Lines 497-500. *)
Definition host_max (h_maxs : list PetscReal) : option PetscReal :=
  foldM (fun nrm i => h <- rd h_maxs i ;; Some (if rgt h nrm then h else nrm))
        (zrange 0 GPU_BLOCK_NUM) (of_int 0).

(** [nrm_out] is what the caller's [*nrm] holds before the call; the state
    returned has what it holds after.  [d_maxs] has [GPU_BLOCK_NUM] cells,
    each written by its block before the host reads it. *)
Definition MatNorm_GPU (A : Mat) (type : NormType) (nrm_out : PetscReal)
  : outcome (Mat * PetscReal) :=
  if negb (NormType_eqb type NORM_INFINITY) then
    Returned PETSC_ERR_ARG_OUTOFRANGE (A, nrm_out) []
  else
    let ctx := mat_ctx A in
    if rne (nrm ctx) (of_int (-1)) then
      Returned 0 (A, nrm ctx) [EvCacheRead]
    else
      let M := mat_M A in
      match d_maxs <- device_MatNorm GPU_BLOCK_NUM GPU_BLOCK_SIZE M
                        (masks ctx) (mask_offsets ctx) (signs ctx)
                        (real_coeffs ctx) (nmasks ctx)
                        (left_subspace_data ctx) (right_subspace_data ctx)
                        (repeat (of_int 0) (Z.to_nat GPU_BLOCK_NUM)) ;;
            host_max d_maxs with
      | None => Fault
      | Some v =>
          Returned 0 (with_ctx A (with_nrm ctx v), v)
            [EvCacheRead; EvLaunchNorm (nmasks ctx); EvCacheWrite]
      end.

(** *** A run on a group of processes *)

(** Every rank builds its shell matrix and multiplies; [b] is the output
    vector the ranks share, with whatever it holds before the call. *)
Definition multiply_rank (nprocs : Z) (m : msc_t)
  (left_subspace_data right_subspace_data : subspace) (x : Vec)
  (b : Vec) (rank : Z) : option Vec :=
  let comm := {| mpi_size := nprocs; mpi_rank := rank |} in
  A <- BuildGPUShell comm m left_subspace_data right_subspace_data ;;
  match MatMult_GPU comm A x b with
  | Returned _ (_, b') _ => Some b'
  | Fault => None
  end.

Definition multiply (nprocs : Z) (m : msc_t)
  (left_subspace_data right_subspace_data : subspace) (x b : Vec)
  : option Vec :=
  foldM (multiply_rank nprocs m left_subspace_data right_subspace_data x)
        (zrange 0 nprocs) b.

End Backend.

(** ** Exact arithmetic *)

(** The laws of exact real arithmetic that the statements about values
    rely on: sums, the conversion from integers, the order, and the modulus
    of a complex number. *)
Class RealLaws (ops : RealOps) : Prop := {
  radd_0_l : forall a, radd (of_int 0) a = a;
  radd_0_r : forall a, radd a (of_int 0) = a;
  radd_comm : forall a b, radd a b = radd b a;
  radd_assoc : forall a b c, radd a (radd b c) = radd (radd a b) c;
  of_int_sub : forall m n, rsub (of_int m) (of_int n) = of_int (m - n);
  of_int_mul : forall m n, rmul (of_int m) (of_int n) = of_int (m * n);
  rgt_of_int : forall m n, rgt (of_int m) (of_int n) = (m >? n);
  rgt_irrefl : forall a, rgt a a = false;
  rgt_trans : forall a b c, rgt a b = true -> rgt b c = true -> rgt a c = true;
  rgt_total : forall a b, rgt a b = false -> rgt b a = false -> a = b;
  rne_spec : forall a b, rne a b = true <-> a <> b;
  rhypot_0 : rhypot (of_int 0) (of_int 0) = of_int 0;
  rhypot_nonneg : forall a b, rgt (of_int 0) (rhypot a b) = false;
  radd_nonneg : forall a b,
    rgt (of_int 0) a = false -> rgt (of_int 0) b = false ->
    rgt (of_int 0) (radd a b) = false
}.

(** ** What the specification says the operations compute *)

Section Specification.
Context {ops : RealOps} {mac : Macros}.

(** The term encoding a multiply or a norm can run on without a fault: the
    arrays are as long as [nmasks] and the offsets say. *)
Record wf_msc (m : msc_t) : Prop := {
  wf_nmasks : 0 <= msc.nmasks m;
  wf_masks : msc.nmasks m <= Z.of_nat (length (msc.masks m));
  wf_offsets_len : msc.nmasks m + 1 <= Z.of_nat (length (msc.mask_offsets m));
  wf_offsets : forall k, 0 <= k <= msc.nmasks m ->
    0 <= nth (Z.to_nat k) (msc.mask_offsets m) 0
      <= nth (Z.to_nat (msc.nmasks m)) (msc.mask_offsets m) 0;
  wf_signs : nth (Z.to_nat (msc.nmasks m)) (msc.mask_offsets m) 0
             <= Z.of_nat (length (msc.signs m));
  wf_coeffs : nth (Z.to_nat (msc.nmasks m)) (msc.mask_offsets m) 0
              <= Z.of_nat (length (msc.coeffs m))
}.

(** The same for the arrays of a context. *)
Record wf_ctx (ctx : shell_context) : Prop := {
  wfc_nmasks : 0 <= nmasks ctx;
  wfc_masks : Z.of_nat (length (masks ctx)) = nmasks ctx;
  wfc_offsets_len : Z.of_nat (length (mask_offsets ctx)) = nmasks ctx + 1;
  wfc_offsets : forall k, 0 <= k <= nmasks ctx ->
    0 <= nth (Z.to_nat k) (mask_offsets ctx) 0
      <= Z.of_nat (length (signs ctx));
  wfc_coeffs : length (real_coeffs ctx) = length (signs ctx)
}.

(** The sign [(-1)^popcount(bra AND sign_mask)]. *)
Definition parity_sign (bra sign_mask : Z) : PetscReal :=
  if Z.even (popc (Z.land bra sign_mask)) then of_int 1 else of_int (-1).

(** The signed coefficient of a term, in the part its classification gives
    it. *)
Definition term_value (ctx : shell_context) (mask bra term_idx : Z)
  : PetscScalar :=
  let s := nth (Z.to_nat term_idx) (signs ctx) 0 in
  let c := nth (Z.to_nat term_idx) (real_coeffs ctx) (of_int 0) in
  let v := rmul (parity_sign bra s) c in
  if TERM_REAL_CUDA mask s then Cplx v (of_int 0) else Cplx (of_int 0) v.

Definition csum (l : list PetscScalar) : PetscScalar :=
  fold_left cadd l (cof_int 0).

Definition rsum (l : list PetscReal) : PetscReal :=
  fold_left radd l (of_int 0).

(** The subtotal of a mask at the row of basis state [ket]: the sum of its
    terms' values on the flipped state. *)
Definition subtotal (ctx : shell_context) (ket mask_idx : Z) : PetscScalar :=
  let mask := nth (Z.to_nat mask_idx) (masks ctx) 0 in
  let lo := nth (Z.to_nat mask_idx) (mask_offsets ctx) 0 in
  let hi := nth (Z.to_nat (mask_idx + 1)) (mask_offsets ctx) 0 in
  csum (map (term_value ctx mask (Z.lxor ket mask)) (zrange lo hi)).

(** The sum over the masks of the moduli of the subtotals of a row. *)
Definition row_abs_sum (ctx : shell_context) (row_idx : Z) : PetscReal :=
  let ket := I2S_CUDA (left_subspace_data ctx) row_idx in
  rsum (map (fun mask_idx => cabs (subtotal ctx ket mask_idx))
            (zrange 0 (nmasks ctx))).

(** The larger of two reals, [a > b ? a : b]. *)
Definition rmax (a b : PetscReal) : PetscReal := if rgt a b then a else b.

(** [v] is the largest of zero and the values of [f] on the rows in [P]. *)
Definition tops (f : Z -> PetscReal) (P : Z -> Prop) (v : PetscReal) : Prop :=
  rgt (of_int 0) v = false /\
  (forall i, P i -> rgt (f i) v = false) /\
  (v = of_int 0 \/ exists i, P i /\ v = f i).

(** [v] is the largest of the values of [f] on the indices in [P]. *)
Definition largest_of (f : Z -> PetscReal) (P : Z -> Prop) (v : PetscReal)
  : Prop :=
  (forall i, P i -> rgt (f i) v = false) /\ exists i, P i /\ v = f i.

(** The largest element of a list of reals that are not negative. *)
Definition rmax_list (l : list PetscReal) : PetscReal :=
  fold_left (fun acc v => if rgt v acc then v else acc) l (of_int 0).

(** The column of the right subspace that a mask sends a row to, and the
    entry it contributes there. *)
Definition mask_column (ctx : shell_context) (row_idx mask_idx : Z) : Z :=
  let ket := I2S_CUDA (left_subspace_data ctx) row_idx in
  let mask := nth (Z.to_nat mask_idx) (masks ctx) 0 in
  fst (lookup_column (right_subspace_data ctx) (Z.lxor ket mask)
         (subtotal ctx ket mask_idx)).

Definition mask_entry (ctx : shell_context) (row_idx mask_idx : Z)
  : PetscScalar :=
  let ket := I2S_CUDA (left_subspace_data ctx) row_idx in
  let mask := nth (Z.to_nat mask_idx) (masks ctx) 0 in
  snd (lookup_column (right_subspace_data ctx) (Z.lxor ket mask)
         (subtotal ctx ket mask_idx)).

(** The dense materialization of the operator: the entry at ([row_idx],
    [col_idx]) is the sum of the entries of the masks that send the row to
    that column. *)
Definition dense_entry (ctx : shell_context) (row_idx col_idx : Z)
  : PetscScalar :=
  csum (map (mask_entry ctx row_idx)
            (filter (fun mask_idx => mask_column ctx row_idx mask_idx =? col_idx)
                    (zrange 0 (nmasks ctx)))).

Definition dense_row_abs_sum (ctx : shell_context) (row_idx : Z)
  : PetscReal :=
  rsum (map (fun col_idx => cabs (dense_entry ctx row_idx col_idx))
            (zrange 0 (Dim (right_subspace_data ctx)))).

(** The infinity norm of the dense materialization: the largest absolute
    row sum. *)
Definition dense_norm_infinity (ctx : shell_context) : PetscReal :=
  rmax_list (map (dense_row_abs_sum ctx)
                 (zrange 0 (Dim (left_subspace_data ctx)))).

(** No two masks send a row to the same column, every flipped state is in
    the right subspace, and the lookup has no sign. *)
Definition columns_distinct (ctx : shell_context) : Prop :=
  SP (right_subspace_data ctx) <> SpinConserve_SP /\
  forall row_idx, 0 <= row_idx < Dim (left_subspace_data ctx) ->
    (forall k, 0 <= k < nmasks ctx ->
       0 <= mask_column ctx row_idx k < Dim (right_subspace_data ctx)) /\
    (forall j k, 0 <= j < nmasks ctx -> 0 <= k < nmasks ctx ->
       mask_column ctx row_idx j = mask_column ctx row_idx k -> j = k).


(** The length of the initial run of masks below the integer [bound]. *)
Fixpoint prefix_lt (bound : Z) (masks : list Z) : Z :=
  match masks with
  | [] => 0
  | m :: rest => if m <? bound then 1 + prefix_lt bound rest else 0
  end.

(** The rows of a thread when no conversion changes a value: the quotient,
    the products, the minimum and the sum of lines 272-276 and 289 taken in
    the integers. *)
Definition thread_rows_exact (size gridDim blockDim blockIdx threadIdx : Z)
  : list Z :=
  let entries_per_group := Z.quot (size - 1) gridDim + 1 in
  let entries_per_group :=
    if entries_per_group =? 0 then 1 else entries_per_group in
  let vec_start_index := blockIdx * entries_per_group in
  let vec_stop_index := Z.min ((blockIdx + 1) * entries_per_group) size in
  zstride (vec_start_index + threadIdx) vec_stop_index blockDim.

(** The numbers of rows over which the index arithmetic of a launch is
    exact.  With 32-bit indices there is at least one row, since the
    unsigned quotient of [size - 1] is the signed one only then, and the
    rows, the blocks and the threads together stay below [2^31]. *)
Definition exact_rows (size gridDim blockDim : Z) : Prop :=
  if PETSC_USE_64BIT_INDICES then 0 <= size
  else 0 < size /\ size + gridDim + blockDim <= 2 ^ 31.

(** The rows of a launch over [size] rows, in the order in which the blocks
    and their threads visit them. *)
Definition all_rows (size gridDim blockDim : Z) : list Z :=
  flat_map (fun blockIdx =>
              flat_map (fun threadIdx =>
                          thread_rows size gridDim blockDim blockIdx threadIdx)
                       (zrange 0 blockDim))
           (zrange 0 gridDim).

(** What a store of kind [k] of the value [val] leaves in a cell that held
    [old]. *)
Definition stored (k : write_kind) (old val : PetscScalar) : PetscScalar :=
  match k with
  | PlainStore => val
  | AtomicAdd | PlainAdd => cadd old val
  end.

(** The step of a mask in the product of a row with [x]: nothing when the
    flipped state is outside the right subspace, else the entry times the
    cell of [x] at its column. *)
Definition times_step (ctx : shell_context) (x : Vec) (row_idx : Z)
  (val : PetscScalar) (mask_idx : Z) : PetscScalar :=
  let col_idx := mask_column ctx row_idx mask_idx in
  if col_idx =? -1 then val
  else cadd val (cmul (mask_entry ctx row_idx mask_idx)
                      (nth (Z.to_nat col_idx) x (cof_int 0))).

(** The product of a row of the dense materialization with [x], over the
    masks [lo .. hi-1]. *)
Definition row_times (ctx : shell_context) (x : Vec) (row_idx lo hi : Z)
  : PetscScalar :=
  fold_left (times_step ctx x row_idx) (zrange lo hi) (cof_int 0).

(** Whether the right subspace is [SpinConserve] with its [spinflip] flag
    set. *)
Definition spinflip_set (R : subspace) : bool :=
  subspace_type_eqb (SP R) SpinConserve_SP && negb (spinflip R =? 0).

End Specification.

(** ** An instance with exact integer arithmetic *)

(** Reals that are integers, with the integer square root for the modulus;
    the concrete runs below are made in it. *)
Definition ZReal : RealOps :=
  {| PetscReal := Z;
     of_int := fun n => n;
     radd := Z.add;
     rsub := Z.sub;
     rmul := Z.mul;
     rgt := Z.gtb;
     rne := fun a b => negb (a =? b);
     rhypot := fun a b => Z.sqrt (a * a + b * b) |}.

(** A build with 32-bit indices in which a term is real when its mask and
    its sign mask share an even number of bits. *)
Definition Build32 : Macros :=
  {| PETSC_USE_64BIT_INDICES := false;
     TERM_REAL_CUDA := fun mask sign_mask =>
                         Z.even (popcount (Z.land mask sign_mask)) |}.

(** ** Concrete operators *)

Module Examples.

Definition zc (n : Z) : @PetscScalar ZReal := @Cplx ZReal n 0.

(** Four spins: twice the sum of [sigma^z sigma^z] over neighbours (a mask
    of no flip with three terms) plus [sigma^x] on every site, the scenario
    of the specification scaled by two to stay in the integers. *)
Definition ising : @msc_t ZReal :=
  {| msc.nmasks := 5;
     msc.masks := [0; 1; 2; 4; 8];
     msc.mask_offsets := [0; 3; 4; 5; 6; 7];
     msc.signs := [3; 6; 12; 0; 0; 0; 0];
     msc.coeffs := [zc 2; zc 2; zc 2; zc 1; zc 1; zc 1; zc 1] |}.

Definition ising_ctx : @shell_context ZReal :=
  @Build_shell_context ZReal 5 5
    [0; 1; 2; 4; 8] [0; 3; 4; 5; 6; 7] [3; 6; 12; 0; 0; 0; 0]
    [2; 2; 2; 1; 1; 1; 1] (Full 4) (Full 4) (-1) None [].

Definition ising_mat : @Mat ZReal :=
  {| mat_M := 16; mat_N := 16; mat_ctx := ising_ctx |}.

(** The context and the matrix that each of two processes builds for
    [ising]: the mask [8] is not below [max_msc = 8]. *)
Definition ising_ctx2 : @shell_context ZReal :=
  @Build_shell_context ZReal 4 5
    [0; 1; 2; 4; 8] [0; 3; 4; 5; 6; 7] [3; 6; 12; 0; 0; 0; 0]
    [2; 2; 2; 1; 1; 1; 1] (Full 4) (Full 4) (-1) None [].


(** [sigma^x] on the third of four spins. *)
Definition flip2 : @msc_t ZReal :=
  {| msc.nmasks := 1;
     msc.masks := [4];
     msc.mask_offsets := [0; 1];
     msc.signs := [0];
     msc.coeffs := [zc 1] |}.


(** One spin: [2 sigma^z + sigma^x]. *)
Definition zx : @msc_t ZReal :=
  {| msc.nmasks := 2;
     msc.masks := [0; 1];
     msc.mask_offsets := [0; 1; 2];
     msc.signs := [1; 0];
     msc.coeffs := [zc 2; zc 1] |}.

(** The vector [1, 2, ..., 16], and an output vector that holds sevens
    before the call. *)
Definition x16 : @Vec ZReal := map (fun k => zc (Z.of_nat k + 1)) (seq 0 16).
Definition b16 : @Vec ZReal := repeat (zc 7) 16.


(** [sigma^x] on the first of two spins. *)
Definition flip0 : @msc_t ZReal :=
  {| msc.nmasks := 1;
     msc.masks := [1];
     msc.mask_offsets := [0; 1];
     msc.signs := [0];
     msc.coeffs := [zc 1] |}.

(** The vector [1, 2, 3, 4] and an output vector of four sevens. *)
Definition x4 : @Vec ZReal := map zc [1; 2; 3; 4].
Definition b4 : @Vec ZReal := repeat (zc 7) 4.

(** The vector [x16] with the third spin flipped. *)
Definition y16 : @Vec ZReal :=
  map zc [5; 6; 7; 8; 1; 2; 3; 4; 13; 14; 15; 16; 9; 10; 11; 12].

(** The context and the matrix that one process builds for [zx] from the
    [Full] subspace on the left and the [Explicit] subspace of the state
    [0] on the right. *)
Definition zx_ctx : @shell_context ZReal :=
  @Build_shell_context ZReal 2 2 [0; 1] [0; 1; 2] [1; 0] [2; 1]
    (Full 1) (Explicit 1 [0]) (-1) None [].

Definition zx_mat : @Mat ZReal :=
  {| mat_M := 2; mat_N := 1; mat_ctx := zx_ctx |}.

(** The all-up basis state of four spins, index 0. *)
Definition e0 : @Vec ZReal := zc 1 :: repeat (zc 0) 15.

Definition comm1 : MPI_Comm := {| mpi_size := 1; mpi_rank := 0 |}.
Definition comm2_0 : MPI_Comm := {| mpi_size := 2; mpi_rank := 0 |}.
Definition comm3_0 : MPI_Comm := {| mpi_size := 3; mpi_rank := 0 |}.

End Examples.

(** * Properties *)

(** ** Arrays, loops and the monad *)

Lemma bind_Some {A B : Type} (c : option A) (k : A -> option B) (b : B) :
  bind c k = Some b -> exists a, c = Some a /\ k a = Some b.
Proof.
  destruct c as [a|]; simpl; intros E; [exists a; auto | discriminate].
Qed.

Lemma foldM_app {A B : Type} (f : B -> A -> option B) (l1 l2 : list A) (b : B) :
  foldM f (l1 ++ l2) b = bind (foldM f l1 b) (foldM f l2).
Proof.
  revert b; induction l1 as [|a l1 IH]; intros b; simpl; [reflexivity|].
  destruct (f b a) as [b'|]; simpl; [apply IH | reflexivity].
Qed.

Lemma foldM_ext_in {A B : Type} (f g : B -> A -> option B) (l : list A) (b : B) :
  (forall a b', In a l -> f b' a = g b' a) -> foldM f l b = foldM g l b.
Proof.
  revert b; induction l as [|a l IH]; intros b H; simpl; [reflexivity|].
  rewrite (H a b (or_introl eq_refl)).
  destruct (g b a) as [b'|]; simpl; [|reflexivity].
  apply IH; intros; apply H; right; assumption.
Qed.

Lemma in_zrange (lo hi i : Z) : In i (zrange lo hi) <-> lo <= i < hi.
Proof.
  unfold zrange; rewrite in_map_iff; split.
  - intros (k & <- & Hk); apply in_seq in Hk; lia.
  - intros H; exists (Z.to_nat (i - lo)); split; [lia|].
    apply in_seq; lia.
Qed.

Lemma zrange_cons (lo hi : Z) :
  lo < hi -> zrange lo hi = lo :: zrange (lo + 1) hi.
Proof.
  intros H; unfold zrange.
  replace (Z.to_nat (hi - lo)) with (S (Z.to_nat (hi - (lo + 1)))) by lia.
  simpl; f_equal; [lia|].
  rewrite <- seq_shift, map_map; apply map_ext; intros k; lia.
Qed.

Lemma zrange_nil (lo hi : Z) : hi <= lo -> zrange lo hi = [].
Proof.
  intros H; unfold zrange; replace (Z.to_nat (hi - lo)) with O by lia;
    reflexivity.
Qed.

Lemma rd_Some {A : Type} (arr : list A) (i : Z) (d : A) :
  0 <= i < Z.of_nat (length arr) -> rd arr i = Some (nth (Z.to_nat i) arr d).
Proof.
  intros H; unfold rd.
  destruct (Z.ltb_spec i 0); [lia|].
  apply nth_error_nth'; lia.
Qed.

Lemma rd_Some_inv {A : Type} (arr : list A) (i : Z) (a d : A) :
  rd arr i = Some a ->
  0 <= i < Z.of_nat (length arr) /\ nth (Z.to_nat i) arr d = a.
Proof.
  unfold rd; destruct (Z.ltb_spec i 0); [discriminate|]; intros E.
  split.
  - assert (Z.to_nat i < length arr)%nat
      by (apply nth_error_Some; congruence); lia.
  - apply nth_error_nth; exact E.
Qed.

(** ** The kernels *)

Section Kernels.
Context {ops : RealOps} {mac : Macros}.


Lemma local_write_kind_spec (R : subspace) :
  local_write_kind R = if spinflip_set R then AtomicAdd else PlainStore.
Proof.
  unfold local_write_kind, spinflip_set.
  destruct (SP R); simpl; try reflexivity.
  destruct (spinflip R =? 0); reflexivity.
Qed.

Lemma global_write_kind_spec (R : subspace) :
  global_write_kind R = if spinflip_set R then AtomicAdd else PlainAdd.
Proof.
  unfold global_write_kind, spinflip_set.
  destruct (SP R); simpl; try reflexivity.
  destruct (spinflip R =? 0); reflexivity.
Qed.

(** C6: a norm of a kind other than the infinity norm returns the error
    [PETSC_ERR_ARG_OUTOFRANGE] at once: the matrix with its context and its
    cached norm, and the caller's result cell, are as before, and nothing
    has happened, neither a read nor a write of the cache nor a kernel
    launch. *)
Theorem MatNorm_GPU_unsupported_type (A : Mat) (type : NormType)
  (nrm_out : PetscReal) :
  type <> NORM_INFINITY ->
  MatNorm_GPU A type nrm_out
  = Returned PETSC_ERR_ARG_OUTOFRANGE (A, nrm_out) []
  /\ PETSC_ERR_ARG_OUTOFRANGE <> 0.
Proof.
  intros H; split; [|discriminate].
  unfold MatNorm_GPU.
  destruct type; try reflexivity; contradiction.
Qed.




Lemma lookup_column_fst (R : subspace) (bra : Z) (tmp : PetscScalar) :
  fst (lookup_column R bra tmp) = fst (S2I_CUDA R bra).
Proof.
  unfold lookup_column; destruct (SP R); try reflexivity.
  destruct (S2I_CUDA R bra); reflexivity.
Qed.

Lemma term_sum_bra (masks mask_offsets signs : list Z)
  (real_coeffs : list PetscReal) (ket mask_idx : Z) (bt : Z * PetscScalar) :
  term_sum masks mask_offsets signs real_coeffs ket mask_idx = Some bt ->
  exists mask, rd masks mask_idx = Some mask /\ fst bt = Z.lxor ket mask.
Proof.
  unfold term_sum; intros E.
  apply bind_Some in E as (mask & Em & E); exists mask; split; [exact Em|].
  apply bind_Some in E as (lo & _ & E).
  apply bind_Some in E as (hi & _ & E).
  apply bind_Some in E as (tmp & _ & E).
  injection E as <-; reflexivity.
Qed.

(** C8: when the lookup of the flipped state in the right subspace gives the
    sentinel [-1], the step of that mask leaves the running total of the row
    as it is, without a fault, in the local and in the global kernel; the
    row's total is the one of the loop without that mask. *)
Theorem lookup_miss_is_skipped (masks mask_offsets signs : list Z)
  (real_coeffs : list PetscReal) (R : subspace)
  (xarray x_allarray : list PetscScalar) (col_start ket mask_idx : Z)
  (bt : Z * PetscScalar) :
  term_sum masks mask_offsets signs real_coeffs ket mask_idx = Some bt ->
  fst (S2I_CUDA R (fst bt)) = -1 ->
  (forall val,
     local_mask_step masks mask_offsets signs real_coeffs R xarray col_start
       ket val mask_idx = Some val)
  /\ (forall val,
        global_mask_step masks mask_offsets signs real_coeffs R x_allarray
          ket val mask_idx = Some val)
  /\ (forall before after val,
        foldM (local_mask_step masks mask_offsets signs real_coeffs R xarray
                 col_start ket) (before ++ mask_idx :: after) val
        = foldM (local_mask_step masks mask_offsets signs real_coeffs R
                   xarray col_start ket) (before ++ after) val)
  /\ (forall before after val,
        foldM (global_mask_step masks mask_offsets signs real_coeffs R
                 x_allarray ket) (before ++ mask_idx :: after) val
        = foldM (global_mask_step masks mask_offsets signs real_coeffs R
                   x_allarray ket) (before ++ after) val).
Proof.
  intros E Hmiss.
  assert (Hl : forall val,
             local_mask_step masks mask_offsets signs real_coeffs R xarray
               col_start ket val mask_idx = Some val).
  { intros val; unfold local_mask_step; rewrite E; simpl.
    pose proof (lookup_column_fst R (fst bt) (snd bt)) as Hc.
    destruct (lookup_column R (fst bt) (snd bt)) as [col_idx tmp].
    simpl in Hc; rewrite Hc, Hmiss; reflexivity. }
  assert (Hg : forall val,
             global_mask_step masks mask_offsets signs real_coeffs R
               x_allarray ket val mask_idx = Some val).
  { intros val; unfold global_mask_step; rewrite E; simpl.
    pose proof (lookup_column_fst R (fst bt) (snd bt)) as Hc.
    destruct (lookup_column R (fst bt) (snd bt)) as [col_idx tmp].
    simpl in Hc; rewrite Hc, Hmiss; reflexivity. }
  repeat split; auto.
  - intros before after val; rewrite !foldM_app.
    destruct (foldM _ before val) as [v|]; simpl; [|reflexivity].
    rewrite Hl; reflexivity.
  - intros before after val; rewrite !foldM_app.
    destruct (foldM _ before val) as [v|]; simpl; [|reflexivity].
    rewrite Hg; reflexivity.
Qed.


End Kernels.

(** ** Signs *)

Section Signs.
Context {ops : RealOps} {mac : Macros} {laws : RealLaws ops}.

Lemma term_sign_parity (bra sign_mask : Z) :
  term_sign bra sign_mask = parity_sign bra sign_mask.
Proof.
  unfold term_sign, parity_sign.
  rewrite of_int_mul, of_int_sub.
  change 1 with (Z.ones 1) at 2; rewrite Z.land_ones by lia.
  change (2 ^ 1) with 2; rewrite Zmod_even.
  destruct (Z.even (popc (Z.land bra sign_mask))); reflexivity.
Qed.


End Signs.

(** ** The partition of the masks *)

Section Partition.
Context {ops : RealOps} {mac : Macros}.

Lemma skipn_cons_nth {A : Type} (l : list A) (n : nat) (a : A) :
  nth_error l n = Some a -> skipn n l = a :: skipn (S n) l.
Proof.
  revert n; induction l as [|x l IH]; intros [|n] E; try discriminate.
  - injection E as <-; reflexivity.
  - simpl in E; exact (IH n E).
Qed.

Lemma count_local_spec (fuel : nat) (masks : list Z) (nmasks bound k : Z) :
  0 <= k -> k + Z.of_nat fuel = nmasks ->
  nmasks <= Z.of_nat (length masks) ->
  count_local fuel masks nmasks bound k
  = Some (k + prefix_lt bound (firstn fuel (skipn (Z.to_nat k) masks))).
Proof.
  revert k; induction fuel as [|fuel IH]; intros k Hk Hf Hlen; simpl.
  - f_equal; lia.
  - destruct (Z.ltb_spec k nmasks); [|lia].
    assert (Hn : (Z.to_nat k < length masks)%nat) by lia.
    destruct (nth_error masks (Z.to_nat k)) as [m|] eqn:Em;
      [|apply nth_error_None in Em; lia].
    unfold rd; destruct (Z.ltb_spec k 0); [lia|]; rewrite Em; simpl.
    rewrite (skipn_cons_nth _ _ _ Em); cbn [firstn prefix_lt].
    destruct (Z.geb_spec m bound), (Z.ltb_spec m bound); try lia.
    + rewrite Z.add_0_r; reflexivity.
    + rewrite IH by lia.
      replace (Z.to_nat (k + 1)) with (S (Z.to_nat k)) by lia.
      apply f_equal; lia.
Qed.

Lemma prefix_lt_bounds (bound : Z) (l : list Z) :
  0 <= prefix_lt bound l <= Z.of_nat (length l).
Proof.
  induction l as [|m l IH]; cbn [prefix_lt length]; [lia|].
  rewrite Nat2Z.inj_succ; destruct (m <? bound); lia.
Qed.

Lemma prefix_lt_below (bound : Z) (l : list Z) (k : Z) :
  0 <= k < prefix_lt bound l -> nth (Z.to_nat k) l 0 < bound.
Proof.
  revert k; induction l as [|m l IH]; intros k Hk; cbn [prefix_lt] in Hk;
    [lia|].
  destruct (Z.ltb_spec m bound); [|lia].
  destruct (Z.eq_dec k 0) as [->|Hne]; [exact H|].
  replace (Z.to_nat k) with (S (Z.to_nat (k - 1))) by lia; cbn [nth].
  apply IH; lia.
Qed.


Lemma double_to_int_le (v : Z) : 0 <= v -> double_to_int v <= v.
Proof.
  intros H; unfold double_to_int.
  destruct ((- 2 ^ 31 <=? v) && (v <? 2 ^ 31)); lia.
Qed.


Lemma max_msc_le_pow2 (L g : Z) :
  0 <= g <= L -> max_msc L (2 ^ g) <= 2 ^ (L - g).
Proof.
  intros H; unfold max_msc.
  rewrite Z.quot_div_nonneg by (try apply Z.pow_nonneg; try apply Z.pow_pos_nonneg; lia).
  rewrite <- Z.pow_sub_r by lia.
  apply double_to_int_le, Z.pow_nonneg; lia.
Qed.


Lemma cudaMemcpy_Some {A : Type} (src dst : list A) (n : Z) :
  cudaMemcpy src n = Some dst ->
  0 <= n <= Z.of_nat (length src) /\ dst = firstn (Z.to_nat n) src.
Proof.
  unfold cudaMemcpy.
  destruct (Z.ltb_spec n 0), (Z.ltb_spec (Z.of_nat (length src)) n);
    simpl; try discriminate.
  intros E; injection E as <-; split; [lia | reflexivity].
Qed.

Lemma BuildContext_CUDA_partition (comm : MPI_Comm) (m : msc_t)
  (Ls Rs : subspace) (ctx : shell_context) :
  BuildContext_CUDA comm m Ls Rs = Some ctx ->
  nmasks ctx = msc.nmasks m /\
  masks ctx = firstn (Z.to_nat (msc.nmasks m)) (msc.masks m) /\
  nmasks_local ctx = prefix_lt (max_msc (L Ls) (mpi_size comm)) (masks ctx).
Proof.
  unfold BuildContext_CUDA; intros E.
  apply bind_Some in E as (nterms & En & E).
  apply bind_Some in E as (nl & Enl & E).
  apply bind_Some in E as (dm & Edm & E).
  apply bind_Some in E as (dmo & _ & E).
  apply bind_Some in E as (ds & _ & E).
  apply bind_Some in E as (rc & _ & E).
  injection E as <-; simpl.
  apply cudaMemcpy_Some in Edm as (Hn & ->).
  rewrite count_local_spec in Enl by lia.
  injection Enl as <-; simpl; auto.
Qed.

Lemma MatMult_GPU_Returned (comm : MPI_Comm) (A A' : Mat) (x b b' : Vec)
  (e : PetscErrorCode) (tr : list event) :
  MatMult_GPU comm A x b = Returned e (A', b') tr ->
  e = 0 /\ A' = with_ctx A (scatter_to_all (mat_ctx A) x) /\
  tr = match sc_ctx (mat_ctx A) with
       | None => [EvScatterCreate]
       | Some _ => []
       end
       ++ [EvScatterBegin; EvVecSet;
           EvLaunchLocal 0 (nmasks_local (mat_ctx A)); EvScatterEnd]
       ++ (if nmasks (mat_ctx A) - nmasks_local (mat_ctx A) >? 0
           then [EvLaunchGlobal (nmasks_local (mat_ctx A))
                   (nmasks (mat_ctx A) - nmasks_local (mat_ctx A))]
           else []).
Proof.
  unfold MatMult_GPU.
  destruct (VecGetOwnershipRange comm (Z.of_nat (length b))) as [rs re].
  destruct (VecGetOwnershipRange comm (Z.of_nat (length x))) as [cs ce].
  destruct (device_MatMult_local _ _ _ _ _ _ _ _ _ _ _ _ _ _) as [[ba l1]|];
    [|discriminate].
  destruct (nmasks (mat_ctx A) - nmasks_local (mat_ctx A) >? 0).
  - destruct (device_MatMult_global _ _ _ _ _ _ _ _ _ _ _ _ _) as [[bg l2]|];
      [|discriminate].
    intros E; injection E as <- <- <- <-; auto.
  - intros E; injection E as <- <- <- <-; auto.
Qed.

End Partition.

(** ** The order of the reals *)

#[local] Arguments Z.mul : simpl never.
#[local] Arguments Z.add : simpl never.
#[local] Arguments Z.sub : simpl never.

Section Order.
Context {ops : RealOps} {laws : RealLaws ops}.

Lemma rle_trans (a b c : PetscReal) :
  rgt a b = false -> rgt b c = false -> rgt a c = false.
Proof.
  intros Hab Hbc.
  destruct (rgt a c) eqn:Hac; [|reflexivity].
  destruct (rgt c b) eqn:Hcb.
  - rewrite (rgt_trans _ _ _ Hac Hcb) in Hab; discriminate.
  - rewrite (rgt_total _ _ Hbc Hcb), Hac in Hab; discriminate.
Qed.

Lemma rle_lt_trans (a b c : PetscReal) :
  rgt a b = false -> rgt c b = true -> rgt a c = false.
Proof.
  intros Hab Hcb.
  destruct (rgt a c) eqn:Hac; [|reflexivity].
  rewrite (rgt_trans _ _ _ Hac Hcb) in Hab; discriminate.
Qed.

Lemma tops_empty (f : Z -> PetscReal) (P : Z -> Prop) :
  (forall i, ~ P i) -> tops f P (of_int 0).
Proof.
  intros H; repeat split.
  - apply rgt_irrefl.
  - intros i Hi; destruct (H i Hi).
  - left; reflexivity.
Qed.

Lemma tops_ext (f : Z -> PetscReal) (P Q : Z -> Prop) (v : PetscReal) :
  (forall i, P i <-> Q i) -> tops f P v -> tops f Q v.
Proof.
  intros H (H0 & Hub & Hin); repeat split; auto.
  - intros i Hi; apply Hub, H, Hi.
  - destruct Hin as [->|(i & Hi & ->)]; [left; reflexivity|].
    right; exists i; split; [apply H, Hi | reflexivity].
Qed.

Lemma tops_rmax (f : Z -> PetscReal) (P Q : Z -> Prop) (v w : PetscReal) :
  tops f P v -> tops f Q w -> tops f (fun i => P i \/ Q i) (rmax v w).
Proof.
  intros (Hv0 & Hvub & Hvin) (Hw0 & Hwub & Hwin); unfold rmax.
  destruct (rgt v w) eqn:Hvw; repeat split; auto.
  - intros i [Hi|Hi]; [apply Hvub, Hi|].
    apply (rle_lt_trans _ w); [apply Hwub, Hi | exact Hvw].
  - destruct Hvin as [->|(i & Hi & ->)]; [left; reflexivity|].
    right; exists i; auto.
  - intros i [Hi|Hi]; [|apply Hwub, Hi].
    apply (rle_trans _ v); [apply Hvub, Hi | exact Hvw].
  - destruct Hwin as [->|(i & Hi & ->)]; [left; reflexivity|].
    right; exists i; auto.
Qed.

Lemma tops_single (f : Z -> PetscReal) (i : Z) :
  rgt (of_int 0) (f i) = false -> tops f (fun j => j = i) (f i).
Proof.
  intros H; repeat split; auto.
  - intros j ->; apply rgt_irrefl.
  - right; exists i; auto.
Qed.

Lemma tops_unique (f : Z -> PetscReal) (P : Z -> Prop) (v w : PetscReal) :
  tops f P v -> tops f P w -> v = w.
Proof.
  intros (Hv0 & Hvub & Hvin) (Hw0 & Hwub & Hwin).
  apply rgt_total.
  - destruct Hvin as [->|(i & Hi & ->)]; [exact Hw0 | apply Hwub, Hi].
  - destruct Hwin as [->|(i & Hi & ->)]; [exact Hv0 | apply Hvub, Hi].
Qed.

Lemma minus_one_not_tops (v : PetscReal) :
  rgt (of_int 0) v = false -> rne v (of_int (-1)) = true.
Proof.
  intros H; apply rne_spec; intros ->.
  rewrite rgt_of_int in H; discriminate.
Qed.

End Order.

Section Sums.
Context {ops : RealOps} {mac : Macros} {laws : RealLaws ops}.

Lemma foldM_total {A B : Type} (g : B -> A -> B) (f : B -> A -> option B)
  (l : list A) (b : B) :
  (forall a b', In a l -> f b' a = Some (g b' a)) ->
  foldM f l b = Some (fold_left g l b).
Proof.
  revert b; induction l as [|a l IH]; intros b H; simpl; [reflexivity|].
  rewrite (H a b (or_introl eq_refl)); simpl.
  apply IH; intros; apply H; right; assumption.
Qed.

Lemma fold_left_map {A B C : Type} (g : C -> B -> C) (h : A -> B)
  (l : list A) (c : C) :
  fold_left g (map h l) c = fold_left (fun acc a => g acc (h a)) l c.
Proof.
  revert c; induction l as [|a l IH]; intros c; simpl; [reflexivity|apply IH].
Qed.

Lemma term_step_value (ctx : shell_context) (mask bra : Z)
  (tmp : PetscScalar) (term_idx : Z) :
  length (real_coeffs ctx) = length (signs ctx) ->
  0 <= term_idx < Z.of_nat (length (signs ctx)) ->
  term_step (signs ctx) (real_coeffs ctx) mask bra tmp term_idx
  = Some (cadd tmp (term_value ctx mask bra term_idx)).
Proof.
  intros Hlen Ht; unfold term_step, term_value.
  rewrite (rd_Some (signs ctx) term_idx 0) by lia.
  rewrite (rd_Some (real_coeffs ctx) term_idx (of_int 0)) by lia.
  simpl; rewrite term_sign_parity.
  destruct (TERM_REAL_CUDA mask _); unfold add_real, add_imag, cadd; simpl;
    rewrite radd_0_r; reflexivity.
Qed.

Lemma term_sum_subtotal (ctx : shell_context) (ket mask_idx : Z) :
  wf_ctx ctx -> 0 <= mask_idx < nmasks ctx ->
  term_sum (masks ctx) (mask_offsets ctx) (signs ctx) (real_coeffs ctx)
    ket mask_idx
  = Some (Z.lxor ket (nth (Z.to_nat mask_idx) (masks ctx) 0),
          subtotal ctx ket mask_idx).
Proof.
  intros [Hn Hm Hol Ho Hc] Hk; unfold term_sum, subtotal.
  rewrite (rd_Some (masks ctx) mask_idx 0) by lia; simpl.
  rewrite (rd_Some (mask_offsets ctx) mask_idx 0) by lia; simpl.
  rewrite (rd_Some (mask_offsets ctx) (mask_idx + 1) 0) by lia; simpl.
  rewrite (foldM_total (fun tmp t =>
             cadd tmp (term_value ctx (nth (Z.to_nat mask_idx) (masks ctx) 0)
                         (Z.lxor ket (nth (Z.to_nat mask_idx) (masks ctx) 0))
                         t))).
  - simpl; unfold csum; rewrite fold_left_map; reflexivity.
  - intros t tmp Ht; apply in_zrange in Ht.
    apply term_step_value; [exact Hc|].
    pose proof (Ho mask_idx ltac:(lia)); pose proof (Ho (mask_idx + 1) ltac:(lia)).
    lia.
Qed.

Lemma norm_row_sum (ctx : shell_context) (row_idx : Z) :
  wf_ctx ctx ->
  norm_row (masks ctx) (mask_offsets ctx) (signs ctx) (real_coeffs ctx)
    (nmasks ctx) (left_subspace_data ctx) row_idx
  = Some (row_abs_sum ctx row_idx).
Proof.
  intros Hwf; unfold norm_row, row_abs_sum, rsum.
  rewrite fold_left_map.
  apply foldM_total; intros k sum Hk; apply in_zrange in Hk.
  unfold norm_mask_step; rewrite term_sum_subtotal by assumption.
  reflexivity.
Qed.

Lemma rsum_nonneg_from (l : list PetscReal) (a : PetscReal) :
  rgt (of_int 0) a = false ->
  (forall v, In v l -> rgt (of_int 0) v = false) ->
  rgt (of_int 0) (fold_left radd l a) = false.
Proof.
  revert a; induction l as [|v l IH]; intros a Ha H; simpl; [exact Ha|].
  apply IH.
  - apply radd_nonneg; [exact Ha | apply H; left; reflexivity].
  - intros w Hw; apply H; right; exact Hw.
Qed.

Lemma row_abs_sum_nonneg (ctx : shell_context) (row_idx : Z) :
  rgt (of_int 0) (row_abs_sum ctx row_idx) = false.
Proof.
  unfold row_abs_sum, rsum; apply rsum_nonneg_from; [apply rgt_irrefl|].
  intros v Hv; apply in_map_iff in Hv as (k & <- & _).
  apply rhypot_nonneg.
Qed.

End Sums.

(** ** Cells of an array and the tree reduction *)

Section Cells.
Context {A : Type} (d : A).

Lemma upd_nat_spec (arr : list A) (n : nat) (f : A -> A) :
  (n < length arr)%nat ->
  exists arr', upd_nat arr n f = Some arr' /\ length arr' = length arr /\
    nth n arr' d = f (nth n arr d) /\
    forall j, j <> n -> nth j arr' d = nth j arr d.
Proof.
  revert n; induction arr as [|a arr IH]; intros n Hn; simpl in Hn; [lia|].
  destruct n as [|n]; simpl.
  - eexists; repeat split.
    intros [|j] Hj; [contradiction | reflexivity].
  - destruct (IH n ltac:(lia)) as (arr' & -> & Hl & Hn' & Ho); simpl.
    eexists; repeat split; simpl; auto.
    intros [|j] Hj; [reflexivity | apply Ho; lia].
Qed.

Lemma upd_spec (arr : list A) (i : Z) (f : A -> A) :
  0 <= i < Z.of_nat (length arr) ->
  exists arr', upd arr i f = Some arr' /\ length arr' = length arr /\
    nth (Z.to_nat i) arr' d = f (nth (Z.to_nat i) arr d) /\
    forall j, 0 <= j -> j <> i ->
      nth (Z.to_nat j) arr' d = nth (Z.to_nat j) arr d.
Proof.
  intros Hi; unfold upd; destruct (Z.ltb_spec i 0); [lia|].
  destruct (upd_nat_spec arr (Z.to_nat i) f ltac:(lia))
    as (arr' & E & Hl & Hn & Ho).
  exists arr'; repeat split; auto.
  intros j Hj Hne; apply Ho; lia.
Qed.

(** A loop whose iteration [t] writes cell [t] only leaves in every cell
    what its iteration put there. *)
Lemma own_cell_loop (step : list A -> Z -> option (list A))
  (Q : Z -> A -> Prop) (n : Z) :
  (forall arr t, Z.of_nat (length arr) = n -> 0 <= t < n ->
     exists arr', step arr t = Some arr' /\ length arr' = length arr /\
       Q t (nth (Z.to_nat t) arr' d) /\
       forall j, 0 <= j -> j <> t ->
         nth (Z.to_nat j) arr' d = nth (Z.to_nat j) arr d) ->
  forall (k : nat) (a : Z) (arr : list A),
    0 <= a -> a + Z.of_nat k = n -> Z.of_nat (length arr) = n ->
    (forall t, 0 <= t < a -> Q t (nth (Z.to_nat t) arr d)) ->
    exists arr', foldM step (zrange a n) arr = Some arr' /\
      Z.of_nat (length arr') = n /\
      forall t, 0 <= t < n -> Q t (nth (Z.to_nat t) arr' d).
Proof.
  intros Hstep; induction k as [|k IH]; intros a arr Ha Hk Hlen Hdone.
  - rewrite zrange_nil by lia; exists arr; repeat split; auto.
    intros t Ht; apply Hdone; lia.
  - rewrite zrange_cons by lia; simpl.
    destruct (Hstep arr a Hlen ltac:(lia)) as (arr1 & -> & Hl1 & Hq & Ho).
    simpl; apply IH; try lia.
    intros t Ht; destruct (Z.eq_dec t a) as [->|Hne]; [exact Hq|].
    rewrite Ho by lia; apply Hdone; lia.
Qed.

End Cells.

Section Reduction.
Context {ops : RealOps} {mac : Macros} {laws : RealLaws ops}.

Lemma reduce_from (i n : Z) (k : nat) :
  0 < i ->
  forall (a : Z) (tm : list PetscReal),
    0 <= a -> a + Z.of_nat k = n -> Z.of_nat (length tm) = n ->
    (forall t, a <= t < n -> Z.rem t (2 * i) = 0 -> t + i < n) ->
    exists tm', foldM (reduce_thread i) (zrange a n) tm = Some tm' /\
      Z.of_nat (length tm') = n /\
      forall t, 0 <= t < n ->
        nth (Z.to_nat t) tm' (of_int 0)
        = if (a <=? t) && (Z.rem t (2 * i) =? 0)
          then rmax (nth (Z.to_nat t) tm (of_int 0)) (nth (Z.to_nat (t + i)) tm (of_int 0))
          else nth (Z.to_nat t) tm (of_int 0).
Proof.
  intros Hi; induction k as [|k IH]; intros a tm Ha Hk Hlen Hfit.
  - rewrite zrange_nil by lia; exists tm; repeat split; auto.
    intros t Ht; destruct (Z.leb_spec a t); [lia | reflexivity].
  - rewrite zrange_cons by lia; simpl.
    unfold reduce_thread at 1.
    destruct (Z.eqb_spec (Z.rem a (2 * i)) 0) as [Hrem|Hrem].
    + pose proof (Hfit a ltac:(lia) Hrem) as Hai.
      rewrite (rd_Some tm a (of_int 0)) by lia; simpl.
      rewrite (rd_Some tm (a + i) (of_int 0)) by lia; simpl.
      destruct (upd_spec (of_int 0) tm a
                  (fun _ => if rgt (nth (Z.to_nat a) tm (of_int 0))
                                   (nth (Z.to_nat (a + i)) tm (of_int 0))
                            then nth (Z.to_nat a) tm (of_int 0)
                            else nth (Z.to_nat (a + i)) tm (of_int 0)) ltac:(lia))
        as (tm1 & -> & Hl1 & Hn1 & Ho1); simpl.
      destruct (IH (a + 1) tm1 ltac:(lia) ltac:(lia) ltac:(lia))
        as (tm' & E & Hl' & H').
      { intros t Ht; apply Hfit; lia. }
      exists tm'; repeat split; auto.
      intros t Ht; rewrite (H' t Ht).
      destruct (Z.leb_spec (a + 1) t), (Z.leb_spec a t); try lia;
        cbn [andb].
      * rewrite !Ho1 by lia; reflexivity.
      * replace t with a by lia.
        rewrite Hrem; cbn [Z.eqb]; rewrite Hn1; reflexivity.
      * rewrite Ho1 by lia; reflexivity.
    + destruct (IH (a + 1) tm ltac:(lia) ltac:(lia) Hlen)
        as (tm' & E & Hl' & H').
      { intros t Ht; apply Hfit; lia. }
      exists tm'; repeat split; auto.
      intros t Ht; rewrite (H' t Ht).
      destruct (Z.leb_spec (a + 1) t), (Z.leb_spec a t); try lia;
        cbn [andb]; try reflexivity.
      replace t with a by lia.
      destruct (Z.eqb_spec (Z.rem a (2 * i)) 0); [contradiction|reflexivity].
Qed.

(** A round of stride [i] turns the tops of the segments of [i] threads
    into the tops of the segments of [2 i] threads. *)
Lemma reduce_round_tops (f : Z -> PetscReal) (Rows : Z -> Z -> Prop)
  (i n c : Z) (tm : list PetscReal) :
  0 < i -> n = 2 * i * c -> Z.of_nat (length tm) = n ->
  (forall t, 0 <= t < n -> Z.rem t i = 0 ->
     tops f (fun row => exists t', t <= t' < t + i /\ Rows t' row)
          (nth (Z.to_nat t) tm (of_int 0))) ->
  exists tm', reduce_round n tm i = Some tm' /\
    Z.of_nat (length tm') = n /\
    forall t, 0 <= t < n -> Z.rem t (2 * i) = 0 ->
      tops f (fun row => exists t', t <= t' < t + 2 * i /\ Rows t' row)
           (nth (Z.to_nat t) tm' (of_int 0)).
Proof.
  intros Hi Hn Hlen Hinv; unfold reduce_round.
  assert (Hfit : forall t, 0 <= t < n -> Z.rem t (2 * i) = 0 -> t + i < n).
  { intros t Ht Hr.
    rewrite Z.rem_mod_nonneg in Hr by lia.
    apply Z.mod_divide in Hr; [|lia].
    destruct Hr as [q ->]; subst n.
    assert (q < c) by (apply (Z.mul_lt_mono_pos_r (2 * i)); lia).
    assert (q * (2 * i) <= (c - 1) * (2 * i))
      by (apply Z.mul_le_mono_nonneg_r; lia).
    lia. }
  destruct (reduce_from i n (Z.to_nat n) Hi 0 tm ltac:(lia) ltac:(lia) Hlen)
    as (tm' & E & Hl' & H').
  { intros t Ht; apply Hfit; lia. }
  exists tm'; split; [exact E | split; [exact Hl'|]].
  intros t Ht Hr; rewrite (H' t Ht), Hr.
  destruct (Z.leb_spec 0 t); [|lia]; cbn [andb Z.eqb].
  assert (Hq : exists q, t = q * (2 * i)).
  { rewrite Z.rem_mod_nonneg in Hr by lia.
    apply Z.mod_divide in Hr; [exact Hr | lia]. }
  destruct Hq as [q Hq].
  assert (Hti : Z.rem t i = 0).
  { rewrite Z.rem_mod_nonneg by lia.
    apply Z.mod_divide; [lia|]; exists (q * 2); lia. }
  assert (Htii : Z.rem (t + i) i = 0).
  { rewrite Z.rem_mod_nonneg by lia.
    apply Z.mod_divide; [lia|]; exists (q * 2 + 1); lia. }
  pose proof (Hfit t Ht Hr) as Hlt.
  apply (tops_ext f _ _ _) with (2 := tops_rmax f _ _ _ _
                                         (Hinv t Ht Hti)
                                         (Hinv (t + i) ltac:(lia) Htii)).
  intros row; split.
  - intros [(t' & Ht' & Hrow)|(t' & Ht' & Hrow)]; exists t'; split; auto; lia.
  - intros (t' & Ht' & Hrow).
    destruct (Z.ltb_spec t' (t + i)); [left|right]; exists t'; split; auto;
      lia.
Qed.

End Reduction.

(** ** The rows of the grid *)

Section Grid.

Lemma in_zstride (start stop step r : Z) :
  0 < step ->
  In r (zstride start stop step)
  <-> start <= r < stop /\ (r - start) mod step = 0.
Proof.
  intros Hs; unfold zstride.
  destruct (Z.leb_spec stop start) as [Hle|Hlt]; [simpl; split; [tauto|lia]|].
  rewrite Z.quot_div_nonneg by lia.
  rewrite in_map_iff; split.
  - intros (k & <- & Hk); apply in_seq in Hk.
    assert (Z.of_nat k <= (stop - start - 1) / step) by lia.
    pose proof (Z.mul_div_le (stop - start - 1) step Hs).
    assert (step * Z.of_nat k <= step * ((stop - start - 1) / step))
      by (apply Z.mul_le_mono_nonneg_l; lia).
    split; [lia|].
    replace (start + step * Z.of_nat k - start) with (Z.of_nat k * step)
      by lia.
    apply Z.mod_mul; lia.
  - intros (Hr & Hm).
    apply Z.mod_divide in Hm; [|lia]; destruct Hm as [q Hq].
    assert (0 <= q) by nia.
    exists (Z.to_nat q); split; [lia|].
    apply in_seq; split; [lia|].
    assert (q <= (stop - start - 1) / step)
      by (apply Z.div_le_lower_bound; lia).
    pose proof (Z.div_pos (stop - start - 1) step ltac:(lia) Hs).
    lia.
Qed.

Lemma thread_rows_exact_cover (size gridDim blockDim row : Z) :
  1 < gridDim -> 0 < blockDim -> 0 <= size ->
  (exists blockIdx threadIdx,
      0 <= blockIdx < gridDim /\ 0 <= threadIdx < blockDim /\
      In row (thread_rows_exact size gridDim blockDim blockIdx threadIdx))
  <-> 0 <= row < size.
Proof.
  intros HG HB Hsize; unfold thread_rows_exact.
  set (e0 := Z.quot (size - 1) gridDim + 1).
  set (epg := if e0 =? 0 then 1 else e0).
  assert (He : 1 <= epg /\ size <= gridDim * epg).
  { unfold epg, e0; destruct (Z.eq_dec size 0) as [->|Hne].
    - change (0 - 1) with (- (1)).
      rewrite Z.quot_opp_l, Z.quot_small by lia.
      simpl; lia.
    - rewrite Z.quot_div_nonneg by lia.
      pose proof (Z.div_pos (size - 1) gridDim ltac:(lia) ltac:(lia)).
      destruct (Z.eqb_spec ((size - 1) / gridDim + 1) 0); [lia|].
      pose proof (Z.mul_succ_div_gt (size - 1) gridDim ltac:(lia)).
      lia. }
  destruct He as [He1 He2]; split.
  - intros (b & t & Hb & Ht & Hin).
    apply in_zstride in Hin; [|exact HB].
    assert (0 <= b * epg) by nia; lia.
  - intros Hrow.
    exists (row / epg), ((row - row / epg * epg) mod blockDim).
    pose proof (Z.mul_div_le row epg ltac:(lia)).
    pose proof (Z.mul_succ_div_gt row epg ltac:(lia)).
    pose proof (Z.mod_pos_bound (row - row / epg * epg) blockDim HB).
    pose proof (Z.mod_le (row - row / epg * epg) blockDim ltac:(lia) HB).
    repeat split; try lia.
    + apply Z.div_pos; lia.
    + apply Z.div_lt_upper_bound; lia.
    + apply in_zstride; [exact HB|]; split; [lia|].
      replace (row - (row / epg * epg
                      + (row - row / epg * epg) mod blockDim))
        with ((row - row / epg * epg) / blockDim * blockDim).
      * apply Z.mod_mul; lia.
      * pose proof (Z.div_mod (row - row / epg * epg) blockDim ltac:(lia)).
        lia.
Qed.

End Grid.

Section GridArithmetic.
Context {mac : Macros}.

Lemma to_unsigned_id (v : Z) : 0 <= v < 2 ^ 32 -> to_unsigned v = v.
Proof. intros H; apply Z.mod_small; exact H. Qed.

Lemma to_int_id (v : Z) : 0 <= v < 2 ^ 31 -> to_int v = v.
Proof.
  intros H; unfold to_int.
  rewrite Z.mod_small by (change (2 ^ 32) with (2 * 2 ^ 31); lia).
  destruct (Z.ltb_spec v (2 ^ 31)); [reflexivity | lia].
Qed.

Lemma exact_rows_nonneg (size gridDim blockDim : Z) :
  exact_rows size gridDim blockDim -> 0 <= size.
Proof.
  unfold exact_rows; destruct PETSC_USE_64BIT_INDICES; lia.
Qed.

Lemma exact_rows_le (size size' gridDim blockDim : Z) :
  exact_rows size gridDim blockDim -> 0 < size' <= size ->
  exact_rows size' gridDim blockDim.
Proof.
  unfold exact_rows; destruct PETSC_USE_64BIT_INDICES; lia.
Qed.

(** Over a number of rows in the exact range the conversions between
    [PetscInt] and [unsigned int] change no value. *)
Lemma thread_rows_is_exact (size gridDim blockDim blockIdx threadIdx : Z) :
  1 < gridDim -> 0 < blockDim -> exact_rows size gridDim blockDim ->
  0 <= blockIdx < gridDim -> 0 <= threadIdx < blockDim ->
  thread_rows size gridDim blockDim blockIdx threadIdx
  = thread_rows_exact size gridDim blockDim blockIdx threadIdx.
Proof.
  intros HG HB Hex Hb Ht; unfold thread_rows, thread_rows_exact, exact_rows in *.
  destruct PETSC_USE_64BIT_INDICES; [reflexivity|].
  destruct Hex as [Hs Hfit].
  assert (H32 : 2 ^ 32 = 2 * 2 ^ 31) by reflexivity.
  assert (H31 : 0 < 2 ^ 31) by reflexivity.
  rewrite (to_unsigned_id (size - 1)), (to_unsigned_id size) by lia.
  rewrite Z.quot_div_nonneg by lia.
  pose proof (Z.div_pos (size - 1) gridDim ltac:(lia) ltac:(lia)) as Hq0.
  pose proof (Z.mul_div_le (size - 1) gridDim ltac:(lia)) as Hq1.
  set (q := (size - 1) / gridDim) in *.
  rewrite (to_int_id (q + 1)) by nia.
  destruct (Z.eqb_spec (q + 1) 0) as [|_]; [lia|].
  assert (Hstart : 0 <= blockIdx * (q + 1) <= size + gridDim - 2) by nia.
  assert (Hend : 0 <= (blockIdx + 1) * (q + 1) <= size + gridDim - 1) by nia.
  rewrite (to_unsigned_id (q + 1)) by nia.
  rewrite (to_int_id (blockIdx * (q + 1))) by lia.
  rewrite (to_unsigned_id ((blockIdx + 1) * (q + 1))) by lia.
  rewrite (to_unsigned_id (blockIdx * (q + 1))) by lia.
  rewrite (to_int_id (blockIdx * (q + 1) + threadIdx)) by lia.
  f_equal.
  destruct (Z.ltb_spec ((blockIdx + 1) * (q + 1)) size);
    rewrite to_int_id by lia; lia.
Qed.

Lemma thread_rows_cover (size gridDim blockDim row : Z) :
  1 < gridDim -> 0 < blockDim -> exact_rows size gridDim blockDim ->
  (exists blockIdx threadIdx,
      0 <= blockIdx < gridDim /\ 0 <= threadIdx < blockDim /\
      In row (thread_rows size gridDim blockDim blockIdx threadIdx))
  <-> 0 <= row < size.
Proof.
  intros HG HB Hex.
  rewrite <- (thread_rows_exact_cover size gridDim blockDim row HG HB
                (exact_rows_nonneg _ _ _ Hex)).
  split; intros (b & t & Hb & Ht & Hin); exists b, t;
    (split; [exact Hb | split; [exact Ht|]]).
  - rewrite <- thread_rows_is_exact; assumption.
  - rewrite thread_rows_is_exact; assumption.
Qed.

End GridArithmetic.


Section NormThreads.
Context {ops : RealOps} {mac : Macros} {laws : RealLaws ops}.

Lemma thread_rows_loop (ctx : shell_context) (t : Z) (rows : list Z) :
  wf_ctx ctx ->
  forall (tm : list PetscReal) (P : Z -> Prop),
    0 <= t < Z.of_nat (length tm) ->
    tops (row_abs_sum ctx) P (nth (Z.to_nat t) tm (of_int 0)) ->
    exists tm',
      foldM (fun threadmax row_idx =>
               sum <- norm_row (masks ctx) (mask_offsets ctx) (signs ctx)
                        (real_coeffs ctx) (nmasks ctx)
                        (left_subspace_data ctx) row_idx ;;
               cur <- rd threadmax t ;;
               if rgt sum cur then upd threadmax t (fun _ => sum)
               else Some threadmax) rows tm = Some tm'
      /\ length tm' = length tm
      /\ tops (row_abs_sum ctx) (fun i => P i \/ In i rows)
              (nth (Z.to_nat t) tm' (of_int 0))
      /\ forall j, 0 <= j -> j <> t ->
           nth (Z.to_nat j) tm' (of_int 0) = nth (Z.to_nat j) tm (of_int 0).
Proof.
  intros Hwf; induction rows as [|r rows IH]; intros tm P Ht Htops.
  - exists tm; split; [reflexivity | split; [reflexivity | split]]; auto.
    apply (tops_ext _ _ _ _) with (2 := Htops); simpl; tauto.
  - cbn [foldM]; rewrite norm_row_sum by exact Hwf; cbn [bind].
    rewrite (rd_Some tm t (of_int 0)) by lia; cbn [bind].
    pose proof (tops_rmax _ _ _ _ _
                  (tops_single (row_abs_sum ctx) r
                     (row_abs_sum_nonneg ctx r)) Htops) as Hnew.
    unfold rmax in Hnew.
    destruct (rgt (row_abs_sum ctx r) (nth (Z.to_nat t) tm (of_int 0))) eqn:Hgt.
    + destruct (upd_spec (of_int 0) tm t (fun _ => row_abs_sum ctx r) Ht)
        as (tm1 & -> & Hl1 & Hn1 & Ho1); cbn [bind].
      destruct (IH tm1 (fun j => j = r \/ P j)) as (tm' & E & Hl & Ht' & Ho).
      { lia. }
      { rewrite Hn1; exact Hnew. }
      exists tm'; split; [exact E | split; [congruence | split]].
      * apply (tops_ext _ _ _ _) with (2 := Ht'); simpl; intros i.
        intuition auto.
      * intros j Hj Hne; rewrite Ho, Ho1 by lia; reflexivity.
    + destruct (IH tm (fun j => j = r \/ P j)) as (tm' & E & Hl & Ht' & Ho).
      { lia. }
      { exact Hnew. }
      exists tm'; split; [exact E | split; [congruence | split]]; auto.
      apply (tops_ext _ _ _ _) with (2 := Ht'); simpl; intros i.
      intuition auto.
Qed.

Lemma norm_thread_tops (ctx : shell_context) (gridDim blockDim size : Z)
  (blockIdx : Z) (tm : list PetscReal) (t : Z) :
  wf_ctx ctx -> 0 <= t < Z.of_nat (length tm) ->
  exists tm',
    norm_thread gridDim blockDim size (masks ctx) (mask_offsets ctx)
      (signs ctx) (real_coeffs ctx) (nmasks ctx) (left_subspace_data ctx)
      blockIdx tm t = Some tm'
    /\ length tm' = length tm
    /\ tops (row_abs_sum ctx)
            (fun i => In i (thread_rows size gridDim blockDim blockIdx t))
            (nth (Z.to_nat t) tm' (of_int 0))
    /\ forall j, 0 <= j -> j <> t ->
         nth (Z.to_nat j) tm' (of_int 0) = nth (Z.to_nat j) tm (of_int 0).
Proof.
  intros Hwf Ht; unfold norm_thread.
  destruct (upd_spec (of_int 0) tm t (fun _ => of_int 0) Ht)
    as (tm0 & -> & Hl0 & Hn0 & Ho0); cbn [bind].
  destruct (thread_rows_loop ctx t
              (thread_rows size gridDim blockDim blockIdx t) Hwf tm0
              (fun _ => False)) as (tm' & E & Hl & Ht' & Ho).
  { lia. }
  { rewrite Hn0; apply tops_empty; auto. }
  exists tm'; split; [exact E | split; [congruence | split]].
  - apply (tops_ext _ _ _ _) with (2 := Ht'); simpl; tauto.
  - intros j Hj Hne; rewrite Ho, Ho0 by lia; reflexivity.
Qed.

End NormThreads.

(** ** The norm kernel *)

Section NormGrid.
Context {ops : RealOps} {mac : Macros} {laws : RealLaws ops}.

Lemma norm_block_tops (ctx : shell_context) (gridDim size : Z)
  (d_maxs : list PetscReal) (blockIdx : Z) :
  wf_ctx ctx -> 0 <= blockIdx < Z.of_nat (length d_maxs) ->
  exists d_maxs',
    norm_block gridDim GPU_BLOCK_SIZE size (masks ctx) (mask_offsets ctx)
      (signs ctx) (real_coeffs ctx) (nmasks ctx) (left_subspace_data ctx)
      d_maxs blockIdx = Some d_maxs'
    /\ length d_maxs' = length d_maxs
    /\ tops (row_abs_sum ctx)
            (fun row => exists t, 0 <= t < GPU_BLOCK_SIZE /\
               In row (thread_rows size gridDim GPU_BLOCK_SIZE blockIdx t))
            (nth (Z.to_nat blockIdx) d_maxs' (of_int 0))
    /\ forall j, 0 <= j -> j <> blockIdx ->
         nth (Z.to_nat j) d_maxs' (of_int 0) = nth (Z.to_nat j) d_maxs (of_int 0).
Proof.
  intros Hwf Hb; unfold norm_block.
  set (Rows := fun t row =>
                 In row (thread_rows size gridDim GPU_BLOCK_SIZE blockIdx t)).
  destruct (own_cell_loop (of_int 0)
              (norm_thread gridDim GPU_BLOCK_SIZE size (masks ctx)
                 (mask_offsets ctx) (signs ctx) (real_coeffs ctx)
                 (nmasks ctx) (left_subspace_data ctx) blockIdx)
              (fun t v => tops (row_abs_sum ctx) (Rows t) v)
              GPU_BLOCK_SIZE)
    with (k := Z.to_nat GPU_BLOCK_SIZE) (a := 0)
         (arr := repeat (of_int 0) (Z.to_nat GPU_BLOCK_SIZE))
    as (tm0 & -> & Hl0 & H0).
  { intros arr t Hlen Ht.
    destruct (norm_thread_tops ctx gridDim GPU_BLOCK_SIZE size blockIdx
                arr t Hwf ltac:(lia)) as (arr' & E & Hl & Ht' & Ho).
    exists arr'; auto. }
  { lia. }
  { reflexivity. }
  { rewrite repeat_length; reflexivity. }
  { intros t Ht; lia. }
  cbn [bind].
  assert (H1 : forall t, 0 <= t < 128 -> Z.rem t 1 = 0 ->
             tops (row_abs_sum ctx)
               (fun row => exists t', t <= t' < t + 1 /\ Rows t' row)
               (nth (Z.to_nat t) tm0 (of_int 0))).
  { intros t Ht _; apply (tops_ext _ _ _ _) with (2 := H0 t Ht).
    intros row; split; [intros Hr; exists t; split; [lia | exact Hr]|].
    intros (t' & Ht' & Hr); replace t with t' by lia; exact Hr. }
  change (zdoubling (Z.to_nat GPU_BLOCK_SIZE) 1 GPU_BLOCK_SIZE)
    with [1; 2; 4; 8; 16; 32; 64].
  change GPU_BLOCK_SIZE with 128 in *.
  destruct (reduce_round_tops (row_abs_sum ctx) Rows 1 128 64 tm0
              ltac:(lia) eq_refl Hl0 H1) as (tm1 & E1 & Hl1 & H2).
  destruct (reduce_round_tops (row_abs_sum ctx) Rows 2 128 32 tm1
              ltac:(lia) eq_refl Hl1 H2) as (tm2 & E2 & Hl2 & H4).
  destruct (reduce_round_tops (row_abs_sum ctx) Rows 4 128 16 tm2
              ltac:(lia) eq_refl Hl2 H4) as (tm3 & E3 & Hl3 & H8).
  destruct (reduce_round_tops (row_abs_sum ctx) Rows 8 128 8 tm3
              ltac:(lia) eq_refl Hl3 H8) as (tm4 & E4 & Hl4 & H16).
  destruct (reduce_round_tops (row_abs_sum ctx) Rows 16 128 4 tm4
              ltac:(lia) eq_refl Hl4 H16) as (tm5 & E5 & Hl5 & H32).
  destruct (reduce_round_tops (row_abs_sum ctx) Rows 32 128 2 tm5
              ltac:(lia) eq_refl Hl5 H32) as (tm6 & E6 & Hl6 & H64).
  destruct (reduce_round_tops (row_abs_sum ctx) Rows 64 128 1 tm6
              ltac:(lia) eq_refl Hl6 H64) as (tm7 & E7 & Hl7 & H128).
  cbn [foldM].
  rewrite E1; cbn [bind]; rewrite E2; cbn [bind]; rewrite E3; cbn [bind].
  rewrite E4; cbn [bind]; rewrite E5; cbn [bind]; rewrite E6; cbn [bind].
  rewrite E7; cbn [bind].
  rewrite (rd_Some tm7 0 (of_int 0)) by lia; cbn [bind].
  destruct (upd_spec (of_int 0) d_maxs blockIdx (fun _ => nth (Z.to_nat 0) tm7 (of_int 0)) Hb)
    as (d' & -> & Hl' & Hn' & Ho').
  exists d'; split; [reflexivity | split; [exact Hl' | split]].
  - rewrite Hn'.
    apply (tops_ext _ _ _ _) with (2 := H128 0 ltac:(lia) eq_refl).
    intros row; split; intros (t & Ht & Hr); exists t; split; auto; lia.
  - exact Ho'.
Qed.

Lemma device_MatNorm_tops (ctx : shell_context) (size : Z) (R : subspace) :
  wf_ctx ctx ->
  exists d_maxs,
    device_MatNorm GPU_BLOCK_NUM GPU_BLOCK_SIZE size (masks ctx)
      (mask_offsets ctx) (signs ctx) (real_coeffs ctx) (nmasks ctx)
      (left_subspace_data ctx) R
      (repeat (of_int 0) (Z.to_nat GPU_BLOCK_NUM)) = Some d_maxs
    /\ Z.of_nat (length d_maxs) = GPU_BLOCK_NUM
    /\ forall b, 0 <= b < GPU_BLOCK_NUM ->
         tops (row_abs_sum ctx)
              (fun row => exists t, 0 <= t < GPU_BLOCK_SIZE /\
                 In row (thread_rows size GPU_BLOCK_NUM GPU_BLOCK_SIZE b t))
              (nth (Z.to_nat b) d_maxs (of_int 0)).
Proof.
  intros Hwf; unfold device_MatNorm.
  apply (own_cell_loop (of_int 0)
           (norm_block GPU_BLOCK_NUM GPU_BLOCK_SIZE size (masks ctx)
              (mask_offsets ctx) (signs ctx) (real_coeffs ctx) (nmasks ctx)
              (left_subspace_data ctx))
           (fun b v =>
              tops (row_abs_sum ctx)
                (fun row => exists t, 0 <= t < GPU_BLOCK_SIZE /\
                   In row (thread_rows size GPU_BLOCK_NUM GPU_BLOCK_SIZE b t))
                v)
           GPU_BLOCK_NUM)
    with (k := Z.to_nat GPU_BLOCK_NUM).
  - intros arr b Hlen Hb.
    destruct (norm_block_tops ctx GPU_BLOCK_NUM size arr b Hwf ltac:(lia))
      as (arr' & E & Hl & Hb' & Ho).
    exists arr'; auto.
  - lia.
  - reflexivity.
  - rewrite repeat_length; reflexivity.
  - intros t Ht; lia.
Qed.

Lemma host_max_from (f : Z -> PetscReal) (Q : Z -> Z -> Prop)
  (h_maxs : list PetscReal) (n : Z) (k : nat) :
  Z.of_nat (length h_maxs) = n ->
  (forall b, 0 <= b < n -> tops f (Q b) (nth (Z.to_nat b) h_maxs (of_int 0))) ->
  forall (a : Z) (acc : PetscReal) (P : Z -> Prop),
    0 <= a -> a + Z.of_nat k = n -> tops f P acc ->
    exists v,
      foldM (fun nrm i =>
               h <- rd h_maxs i ;; Some (if rgt h nrm then h else nrm))
            (zrange a n) acc = Some v
      /\ tops f (fun row => P row \/ exists b, a <= b < n /\ Q b row) v.
Proof.
  intros Hlen Hcells; induction k as [|k IH]; intros a acc P Ha Hk Hacc.
  - rewrite zrange_nil by lia; exists acc; split; [reflexivity|].
    apply (tops_ext _ _ _ _) with (2 := Hacc).
    intros row; split; [tauto|].
    intros [H|(b & Hb & _)]; [exact H | lia].
  - rewrite zrange_cons by lia; cbn [foldM].
    rewrite (rd_Some h_maxs a (of_int 0)) by lia; cbn [bind].
    destruct (IH (a + 1) (rmax (nth (Z.to_nat a) h_maxs (of_int 0)) acc)
                (fun row => Q a row \/ P row)) as (v & E & Hv); try lia.
    { apply tops_rmax; [apply Hcells; lia | exact Hacc]. }
    exists v; split; [exact E|].
    apply (tops_ext _ _ _ _) with (2 := Hv).
    intros row; split.
    + intros [[H|H]|(b & Hb & H)]; auto.
      * right; exists a; split; [lia | exact H].
      * right; exists b; split; [lia | exact H].
    + intros [H|(b & Hb & H)]; auto.
      destruct (Z.eq_dec b a) as [->|Hne]; auto.
      right; exists b; split; [lia | exact H].
Qed.

(** The value a norm computes when the cache is empty: the largest of the
    row sums. *)
Lemma norm_kernel_tops (ctx : shell_context) (size : Z) :
  wf_ctx ctx -> exact_rows size GPU_BLOCK_NUM GPU_BLOCK_SIZE ->
  exists v,
    (d_maxs <- device_MatNorm GPU_BLOCK_NUM GPU_BLOCK_SIZE size (masks ctx)
                 (mask_offsets ctx) (signs ctx) (real_coeffs ctx)
                 (nmasks ctx) (left_subspace_data ctx)
                 (right_subspace_data ctx)
                 (repeat (of_int 0) (Z.to_nat GPU_BLOCK_NUM)) ;;
     host_max d_maxs) = Some v
    /\ tops (row_abs_sum ctx) (fun row => 0 <= row < size) v.
Proof.
  intros Hwf Hsize.
  destruct (device_MatNorm_tops ctx size (right_subspace_data ctx) Hwf)
    as (d_maxs & -> & Hl & Hcells); cbn [bind].
  unfold host_max.
  destruct (host_max_from (row_abs_sum ctx)
              (fun b row => exists t, 0 <= t < GPU_BLOCK_SIZE /\
                 In row (thread_rows size GPU_BLOCK_NUM GPU_BLOCK_SIZE b t))
              d_maxs GPU_BLOCK_NUM (Z.to_nat GPU_BLOCK_NUM) Hl Hcells
              0 (of_int 0) (fun _ => False))
    as (v & E & Hv).
  { lia. }
  { reflexivity. }
  { apply tops_empty; auto. }
  exists v; split; [exact E|].
  apply (tops_ext _ _ _ _) with (2 := Hv).
  intros row.
  rewrite <- (thread_rows_cover size GPU_BLOCK_NUM GPU_BLOCK_SIZE row)
    by (try reflexivity; exact Hsize).
  split.
  - intros [[]|(b & Hb & t & Ht & Hr)]; exists b, t; auto.
  - intros (b & t & Hb & Ht & Hr); right; exists b; split; [exact Hb|].
    exists t; auto.
Qed.

End NormGrid.

(** ** The dense materialization *)

Lemma NoDup_zrange (lo hi : Z) : NoDup (zrange lo hi).
Proof.
  unfold zrange; apply Injective_map_NoDup; [|apply seq_NoDup].
  intros j k H; lia.
Qed.

Section Dense.
Context {ops : RealOps} {mac : Macros} {laws : RealLaws ops}.

Lemma rsum_shift (l : list PetscReal) (a : PetscReal) :
  fold_left radd l a = radd a (rsum l).
Proof.
  unfold rsum; revert a; induction l as [|v l IH]; intros a; simpl.
  - symmetry; apply radd_0_r.
  - rewrite IH, (IH (radd (of_int 0) v)), radd_0_l, radd_assoc; reflexivity.
Qed.

Lemma rsum_cons (v : PetscReal) (l : list PetscReal) :
  rsum (v :: l) = radd v (rsum l).
Proof.
  unfold rsum at 1; simpl; rewrite rsum_shift, radd_0_l; reflexivity.
Qed.

Lemma rsum_zeros {A : Type} (h : A -> PetscReal) (l : list A) :
  (forall a, In a l -> h a = of_int 0) -> rsum (map h l) = of_int 0.
Proof.
  induction l as [|a l IH]; intros H; [reflexivity|].
  simpl map; rewrite rsum_cons, (H a (or_introl eq_refl)), radd_0_l.
  apply IH; intros; apply H; right; assumption.
Qed.

Lemma rsum_update (h : Z -> PetscReal) (c0 : Z) (a : PetscReal)
  (cols : list Z) :
  NoDup cols -> In c0 cols -> h c0 = of_int 0 ->
  rsum (map (fun c => if c =? c0 then a else h c) cols)
  = radd a (rsum (map h cols)).
Proof.
  intros Hnd Hin H0; induction cols as [|c cols IH]; [destruct Hin|].
  inversion Hnd as [|? ? Hc Hnd']; subst.
  simpl map; rewrite !rsum_cons.
  destruct (Z.eqb_spec c c0) as [->|Hne].
  - rewrite H0, radd_0_l; f_equal; f_equal.
    apply map_ext_in; intros c Hc'.
    destruct (Z.eqb_spec c c0) as [->|]; [contradiction | reflexivity].
  - destruct Hin as [->|Hin]; [contradiction|].
    rewrite (IH Hnd' Hin), !radd_assoc, (radd_comm (h c) a); reflexivity.
Qed.

Lemma cabs_zero : cabs (csum []) = of_int 0.
Proof. unfold cabs, csum; simpl; apply rhypot_0. Qed.

Lemma csum_single (z : PetscScalar) : csum [z] = z.
Proof.
  unfold csum, cadd; simpl; rewrite !radd_0_l; destruct z; reflexivity.
Qed.

Lemma dense_sum_distinct (e : Z -> PetscScalar) (c : Z -> Z)
  (ks cols : list Z) :
  NoDup cols -> NoDup ks ->
  (forall k, In k ks -> In (c k) cols) ->
  (forall j k, In j ks -> In k ks -> c j = c k -> j = k) ->
  rsum (map (fun col =>
               cabs (csum (map e (filter (fun k => c k =? col) ks)))) cols)
  = rsum (map (fun k => cabs (e k)) ks).
Proof.
  intros Hcols; induction ks as [|k ks IH]; intros Hnd Hin Hinj.
  - simpl; apply rsum_zeros; intros; apply cabs_zero.
  - inversion Hnd as [|? ? Hk Hnd']; subst.
    assert (Hempty : filter (fun k' => c k' =? c k) ks = []).
    { destruct (filter (fun k' => c k' =? c k) ks) as [|k' rest] eqn:E;
        [reflexivity|].
      assert (Hk' : In k' (filter (fun k' => c k' =? c k) ks))
        by (rewrite E; left; reflexivity).
      apply filter_In in Hk' as [Hk' Hc]; apply Z.eqb_eq in Hc.
      rewrite (Hinj k' k (or_intror Hk') (or_introl eq_refl) Hc) in Hk'.
      contradiction. }
    change (map (fun k0 => cabs (e k0)) (k :: ks))
      with (cabs (e k) :: map (fun k0 => cabs (e k0)) ks).
    rewrite rsum_cons, <- IH; auto.
    + rewrite <- (rsum_update _ (c k) (cabs (e k)) cols Hcols).
      * f_equal; apply map_ext; intros col; simpl.
        destruct (Z.eqb_spec (c k) col) as [<-|Hne].
        -- rewrite Z.eqb_refl, Hempty; simpl; rewrite csum_single.
           reflexivity.
        -- destruct (Z.eqb_spec col (c k)); [congruence | reflexivity].
      * apply Hin; left; reflexivity.
      * rewrite Hempty; apply cabs_zero.
    + intros k' Hk'; apply Hin; right; exact Hk'.
    + intros j k' Hj Hk'; apply Hinj; right; assumption.
Qed.

Lemma mask_entry_subtotal (ctx : shell_context) (row_idx mask_idx : Z) :
  SP (right_subspace_data ctx) <> SpinConserve_SP ->
  mask_entry ctx row_idx mask_idx
  = subtotal ctx (I2S_CUDA (left_subspace_data ctx) row_idx) mask_idx.
Proof.
  intros H; unfold mask_entry, lookup_column.
  destruct (SP (right_subspace_data ctx)); try reflexivity; contradiction.
Qed.

Lemma dense_row_is_row_abs_sum (ctx : shell_context) (row_idx : Z) :
  columns_distinct ctx -> 0 <= row_idx < Dim (left_subspace_data ctx) ->
  dense_row_abs_sum ctx row_idx = row_abs_sum ctx row_idx.
Proof.
  intros [Hsp H] Hrow; destruct (H row_idx Hrow) as [Hin Hinj].
  unfold dense_row_abs_sum, dense_entry, row_abs_sum.
  rewrite (dense_sum_distinct (mask_entry ctx row_idx)
             (mask_column ctx row_idx)).
  - f_equal; apply map_ext; intros k.
    rewrite mask_entry_subtotal by exact Hsp; reflexivity.
  - apply NoDup_zrange.
  - apply NoDup_zrange.
  - intros k Hk; apply in_zrange in Hk; apply in_zrange, Hin, Hk.
  - intros j k Hj Hk; apply in_zrange in Hj, Hk; apply Hinj; assumption.
Qed.

Lemma rmax_list_tops_from (f : Z -> PetscReal) (rows : list Z) :
  forall (acc : PetscReal) (P : Z -> Prop),
    tops f P acc ->
    tops f (fun i => P i \/ In i rows)
         (fold_left (fun acc v => if rgt v acc then v else acc)
                    (map f rows) acc).
Proof.
  induction rows as [|r rows IH]; intros acc P Hacc; simpl.
  - apply (tops_ext _ _ _ _) with (2 := Hacc); tauto.
  - assert (Hr : tops f (fun i => i = r \/ P i)
                   (if rgt (f r) acc then f r else acc)).
    { destruct Hacc as (H0 & Hub & Hmem).
      destruct (rgt (f r) acc) eqn:Hgt; repeat split.
      - apply (rle_lt_trans _ acc); assumption.
      - intros i [->|Hi]; [apply rgt_irrefl|].
        apply (rle_lt_trans _ acc); [apply Hub, Hi | exact Hgt].
      - right; exists r; auto.
      - exact H0.
      - intros i [->|Hi]; [exact Hgt | apply Hub, Hi].
      - destruct Hmem as [->|(i & Hi & ->)]; [left; reflexivity|].
        right; exists i; auto. }
    apply (tops_ext _ _ _ _) with (2 := IH _ _ Hr); intros i; simpl.
    intuition congruence.
Qed.

Lemma dense_norm_tops (ctx : shell_context) :
  columns_distinct ctx ->
  tops (row_abs_sum ctx)
       (fun row => 0 <= row < Dim (left_subspace_data ctx))
       (dense_norm_infinity ctx).
Proof.
  intros Hcd; unfold dense_norm_infinity, rmax_list.
  rewrite (map_ext_in _ (row_abs_sum ctx)).
  - apply (tops_ext _ _ _ _)
      with (2 := rmax_list_tops_from (row_abs_sum ctx)
                   (zrange 0 (Dim (left_subspace_data ctx)))
                   (of_int 0) (fun _ => False)
                   (tops_empty _ _ (fun _ H => H))).
    intros row; rewrite in_zrange; tauto.
  - intros row Hrow; apply in_zrange in Hrow.
    apply dense_row_is_row_abs_sum; assumption.
Qed.

End Dense.

(** ** Build, multiply and norm *)

Section Build.
Context {ops : RealOps} {mac : Macros}.

Lemma mapM_length {A B : Type} (f : A -> option B) (l : list A) (r : list B) :
  mapM f l = Some r -> length r = length l.
Proof.
  revert r; induction l as [|a l IH]; intros r E; simpl in E.
  - injection E as <-; reflexivity.
  - apply bind_Some in E as (b & _ & E).
    apply bind_Some in E as (bs & Ebs & E); injection E as <-.
    simpl; rewrite (IH bs Ebs); reflexivity.
Qed.

Lemma length_zrange (lo hi : Z) : length (zrange lo hi) = Z.to_nat (hi - lo).
Proof. unfold zrange; rewrite length_map, length_seq; reflexivity. Qed.

Lemma nth_firstn_lt {A : Type} (l : list A) (n k : nat) (d : A) :
  (k < n)%nat -> nth k (firstn n l) d = nth k l d.
Proof.
  revert n k; induction l as [|a l IH]; intros [|n] [|k] H; simpl;
    try reflexivity; try lia.
  apply IH; lia.
Qed.

Lemma BuildContext_CUDA_wf (comm : MPI_Comm) (m : msc_t) (Ls Rs : subspace)
  (ctx : shell_context) :
  wf_msc m -> BuildContext_CUDA comm m Ls Rs = Some ctx ->
  wf_ctx ctx /\ nrm ctx = of_int (-1) /\ left_subspace_data ctx = Ls /\
  right_subspace_data ctx = Rs.
Proof.
  intros [Hn Hm Hol Ho Hs Hc] E; unfold BuildContext_CUDA in E.
  apply bind_Some in E as (nterms & En & E).
  apply bind_Some in E as (nl & _ & E).
  apply bind_Some in E as (dm & Edm & E).
  apply bind_Some in E as (dmo & Edmo & E).
  apply bind_Some in E as (ds & Eds & E).
  apply bind_Some in E as (rc & Erc & E).
  injection E as <-.
  apply cudaMemcpy_Some in Edm as (Hdm & ->).
  apply cudaMemcpy_Some in Edmo as (Hdmo & ->).
  apply cudaMemcpy_Some in Eds as (Hds & ->).
  apply (rd_Some_inv _ _ _ 0) in En as (_ & En).
  apply mapM_length in Erc; rewrite length_zrange in Erc.
  repeat split; simpl in *; auto.
  - rewrite firstn_length_le by lia; lia.
  - rewrite firstn_length_le by lia; lia.
  - rewrite nth_firstn_lt by lia; apply Ho; lia.
  - rewrite nth_firstn_lt by lia; rewrite firstn_length_le by lia.
    pose proof (Ho k ltac:(lia)); lia.
  - rewrite Erc, firstn_length_le by lia; lia.
Qed.

Lemma MatMult_GPU_again (comm : MPI_Comm) (A A1 : Mat) (x b b1 : Vec)
  (e : PetscErrorCode) (tr : list event) :
  MatMult_GPU comm A x b = Returned e (A1, b1) tr ->
  exists barray,
    b1 = firstn (Z.to_nat (fst (VecGetOwnershipRange comm
                                  (Z.of_nat (length b))))) b
         ++ barray
         ++ skipn (Z.to_nat (snd (VecGetOwnershipRange comm
                                    (Z.of_nat (length b))))) b
    /\ forall b2, length b2 = length b ->
         exists tr',
           MatMult_GPU comm A1 x b2
           = Returned e
               (A1,
                firstn (Z.to_nat (fst (VecGetOwnershipRange comm
                                         (Z.of_nat (length b))))) b2
                ++ barray
                ++ skipn (Z.to_nat (snd (VecGetOwnershipRange comm
                                           (Z.of_nat (length b))))) b2)
               tr'.
Proof.
  unfold MatMult_GPU at 1.
  destruct (VecGetOwnershipRange comm (Z.of_nat (length b)))
    as [rs re] eqn:Eb.
  destruct (VecGetOwnershipRange comm (Z.of_nat (length x)))
    as [cs ce] eqn:Ex.
  destruct (device_MatMult_local _ _ _ _ _ _ _ _ _ _ _ _ _ _)
    as [[ba l1]|] eqn:El; [|discriminate].
  destruct (nmasks (mat_ctx A) - nmasks_local (mat_ctx A) >? 0) eqn:Eg.
  - destruct (device_MatMult_global _ _ _ _ _ _ _ _ _ _ _ _ _)
      as [[bg l2]|] eqn:Egl; [|discriminate].
    intros E; injection E as <- <- <- <-.
    exists bg; split; [reflexivity|].
    intros b2 Hb2; unfold MatMult_GPU; rewrite Hb2, Eb, Ex.
    cbn [mat_ctx with_ctx scatter_to_all masks mask_offsets signs
         real_coeffs nmasks nmasks_local left_subspace_data
         right_subspace_data sc_ctx x_all].
    cbn [x_all scatter_to_all] in Egl.
    rewrite El, Eg, Egl; eexists; reflexivity.
  - intros E; injection E as <- <- <- <-.
    exists ba; split; [reflexivity|].
    intros b2 Hb2; unfold MatMult_GPU; rewrite Hb2, Eb, Ex.
    cbn [mat_ctx with_ctx scatter_to_all masks mask_offsets signs
         real_coeffs nmasks nmasks_local left_subspace_data
         right_subspace_data sc_ctx x_all].
    rewrite El, Eg; eexists; reflexivity.
Qed.

End Build.

Section Results.
Context {ops : RealOps} {mac : Macros} {laws : RealLaws ops}.

Lemma rne_refl (a : PetscReal) : rne a a = false.
Proof.
  destruct (rne a a) eqn:E; [|reflexivity].
  apply rne_spec in E; contradiction.
Qed.

Lemma MatNorm_GPU_first (A : Mat) (nrm_out : PetscReal) :
  wf_ctx (mat_ctx A) -> nrm (mat_ctx A) = of_int (-1) ->
  exact_rows (mat_M A) GPU_BLOCK_NUM GPU_BLOCK_SIZE ->
  exists v,
    MatNorm_GPU A NORM_INFINITY nrm_out
    = Returned 0 (with_ctx A (with_nrm (mat_ctx A) v), v)
        [EvCacheRead; EvLaunchNorm (nmasks (mat_ctx A)); EvCacheWrite]
    /\ tops (row_abs_sum (mat_ctx A)) (fun row => 0 <= row < mat_M A) v.
Proof.
  intros Hwf Hnrm HM; unfold MatNorm_GPU; cbn [NormType_eqb negb].
  rewrite Hnrm, rne_refl.
  destruct (norm_kernel_tops (mat_ctx A) (mat_M A) Hwf HM) as (v & -> & Hv).
  exists v; split; [reflexivity | exact Hv].
Qed.

Lemma MatNorm_GPU_cached (A : Mat) (nrm_out : PetscReal) :
  rgt (of_int 0) (nrm (mat_ctx A)) = false ->
  MatNorm_GPU A NORM_INFINITY nrm_out
  = Returned 0 (A, nrm (mat_ctx A)) [EvCacheRead].
Proof.
  intros H; unfold MatNorm_GPU; cbn [NormType_eqb negb].
  rewrite (minus_one_not_tops _ H); reflexivity.
Qed.

(** C2: on a context built from a well-formed term encoding, over a left
    subspace whose dimension is in the exact range of the index arithmetic
    of the launch, the first infinity norm returns a value [v] that no row
    sum exceeds and that is the row sum of some row of the left subspace
    (zero when the subspace is empty); the row sum of row [i] is the sum
    over the masks of the moduli of the subtotals, taken with the parity
    signs on the flipped state.  When every mask sends every row to a column
    of its own in the right subspace and the lookup has no sign, [v] is the
    largest absolute row sum of the dense materialization. *)
Theorem norm_infinity_is_largest_row_sum (comm : MPI_Comm) (m : msc_t)
  (Ls Rs : subspace) (A : Mat) (nrm_out : PetscReal) :
  wf_msc m -> exact_rows (Dim Ls) GPU_BLOCK_NUM GPU_BLOCK_SIZE ->
  BuildGPUShell comm m Ls Rs = Some A ->
  exists v,
    MatNorm_GPU A NORM_INFINITY nrm_out
    = Returned 0 (with_ctx A (with_nrm (mat_ctx A) v), v)
        [EvCacheRead; EvLaunchNorm (nmasks (mat_ctx A)); EvCacheWrite]
    /\ (forall i, 0 <= i < Dim Ls ->
          rgt (row_abs_sum (mat_ctx A) i) v = false)
    /\ (0 < Dim Ls ->
        exists i, 0 <= i < Dim Ls /\ v = row_abs_sum (mat_ctx A) i)
    /\ (Dim Ls = 0 -> v = of_int 0)
    /\ (columns_distinct (mat_ctx A) ->
        v = dense_norm_infinity (mat_ctx A)).
Proof.
  intros Hwf HD E; unfold BuildGPUShell in E.
  apply bind_Some in E as (ctx & Ec & E); injection E as <-.
  destruct (BuildContext_CUDA_wf _ _ _ _ _ Hwf Ec) as (Hwfc & Hnrm & HL & HR).
  destruct (MatNorm_GPU_first
              {| mat_M := Dim Ls; mat_N := Dim Rs; mat_ctx := ctx |} nrm_out
              Hwfc Hnrm HD) as (v & Ev & Hv).
  cbn [mat_ctx mat_M] in *.
  pose proof (exact_rows_nonneg _ _ _ HD) as HD0.
  exists v; split; [exact Ev|].
  pose proof Hv as (H0 & Hub & Hmem).
  split; [exact Hub | split; [|split]].
  - intros Hpos; destruct Hmem as [->|(i & Hi & ->)]; [|exists i; auto].
    exists 0; split; [lia|].
    apply rgt_total; [apply row_abs_sum_nonneg | apply Hub; lia].
  - intros Hz; destruct Hmem as [->|(i & Hi & _)]; [reflexivity | lia].
  - intros Hcd; apply (tops_unique (row_abs_sum ctx) _ _ _ Hv).
    rewrite <- HL; apply dense_norm_tops; exact Hcd.
Qed.

(** C7: a built context has the cache at [-1].  A multiply leaves the arrays
    of the term encoding, the subspace data and the cache as they are, and a
    second multiply with the same input vector computes the same cells,
    whatever the output vector held.  The first infinity norm, over a left
    subspace whose dimension is in the exact range of the index arithmetic,
    launches the kernel and stores its value in the cache; every later norm on a context
    whose cache holds that value returns it and does nothing else. *)
Theorem multiply_and_norm_repeat (comm : MPI_Comm) (m : msc_t)
  (Ls Rs : subspace) (A : Mat) (nrm_out : PetscReal) :
  wf_msc m -> exact_rows (Dim Ls) GPU_BLOCK_NUM GPU_BLOCK_SIZE ->
  BuildGPUShell comm m Ls Rs = Some A ->
  nrm (mat_ctx A) = of_int (-1)
  /\
  (forall (A0 A1 : Mat) (x b b1 : Vec) e tr,
      MatMult_GPU comm A0 x b = Returned e (A1, b1) tr ->
      (masks (mat_ctx A1) = masks (mat_ctx A0)
       /\ mask_offsets (mat_ctx A1) = mask_offsets (mat_ctx A0)
       /\ signs (mat_ctx A1) = signs (mat_ctx A0)
       /\ real_coeffs (mat_ctx A1) = real_coeffs (mat_ctx A0)
       /\ left_subspace_data (mat_ctx A1) = left_subspace_data (mat_ctx A0)
       /\ right_subspace_data (mat_ctx A1) = right_subspace_data (mat_ctx A0)
       /\ nrm (mat_ctx A1) = nrm (mat_ctx A0))
      /\ exists barray,
           b1 = firstn (Z.to_nat (fst (VecGetOwnershipRange comm
                                         (Z.of_nat (length b))))) b
                ++ barray
                ++ skipn (Z.to_nat (snd (VecGetOwnershipRange comm
                                           (Z.of_nat (length b))))) b
           /\ forall b2, length b2 = length b ->
                exists tr',
                  MatMult_GPU comm A1 x b2
                  = Returned e
                      (A1,
                       firstn (Z.to_nat (fst (VecGetOwnershipRange comm
                                                (Z.of_nat (length b))))) b2
                       ++ barray
                       ++ skipn (Z.to_nat (snd (VecGetOwnershipRange comm
                                                  (Z.of_nat (length b))))) b2)
                      tr')
  /\
  (exists v,
      MatNorm_GPU A NORM_INFINITY nrm_out
      = Returned 0 (with_ctx A (with_nrm (mat_ctx A) v), v)
          [EvCacheRead; EvLaunchNorm (nmasks (mat_ctx A)); EvCacheWrite]
      /\ forall (A2 : Mat) (nrm_out' : PetscReal),
           nrm (mat_ctx A2) = v ->
           MatNorm_GPU A2 NORM_INFINITY nrm_out'
           = Returned 0 (A2, v) [EvCacheRead]).
Proof.
  intros Hwf HD E; unfold BuildGPUShell in E.
  apply bind_Some in E as (ctx & Ec & E); injection E as <-.
  destruct (BuildContext_CUDA_wf _ _ _ _ _ Hwf Ec) as (Hwfc & Hnrm & HL & HR).
  split; [exact Hnrm | split].
  - intros A0 A1 x b b1 e tr E0; split.
    + apply MatMult_GPU_Returned in E0 as (_ & -> & _); simpl.
      repeat split; reflexivity.
    + exact (MatMult_GPU_again _ _ _ _ _ _ _ _ E0).
  - destruct (MatNorm_GPU_first
                {| mat_M := Dim Ls; mat_N := Dim Rs; mat_ctx := ctx |}
                nrm_out Hwfc Hnrm HD) as (v & Ev & (H0 & _)).
    exists v; split; [exact Ev|].
    intros A2 n2 <-; apply MatNorm_GPU_cached; exact H0.
Qed.

End Results.

(** ** The multiply on a power of two of processes *)

Lemma ownership_pow2 (L g rank : Z) :
  0 <= g <= L -> 0 <= rank < 2 ^ g ->
  VecGetOwnershipRange {| mpi_size := 2 ^ g; mpi_rank := rank |} (2 ^ L)
  = (rank * 2 ^ (L - g), (rank + 1) * 2 ^ (L - g)).
Proof.
  intros Hg Hr; unfold VecGetOwnershipRange, PetscSplitOwnership; simpl.
  assert (Hpow : 2 ^ L = 2 ^ (L - g) * 2 ^ g)
    by (rewrite <- Z.pow_add_r by lia; f_equal; lia).
  assert (0 < 2 ^ g) by (apply Z.pow_pos_nonneg; lia).
  rewrite Hpow, Z.div_mul, Z.mod_mul by lia.
  destruct (Z.gtb_spec 0 rank); [lia|].
  f_equal; lia.
Qed.

Lemma lxor_low_bits (k ket mask : Z) :
  0 <= k -> 0 <= mask < 2 ^ k ->
  Z.lxor ket mask / 2 ^ k = ket / 2 ^ k.
Proof.
  intros Hk Hm.
  rewrite <- !Z.shiftr_div_pow2 by lia.
  rewrite Z.shiftr_lxor, (Z.shiftr_div_pow2 mask) by lia.
  rewrite (Z.div_small mask) by lia.
  apply Z.lxor_0_r.
Qed.

(** With [Full] subspaces and a number of processes that is a power of two,
    a mask of the local prefix keeps an owned row in the owned columns. *)
Lemma Full_local_column_owned (L g rank row mask : Z) :
  0 <= g <= L -> 0 <= rank < 2 ^ g ->
  rank * 2 ^ (L - g) <= row < (rank + 1) * 2 ^ (L - g) ->
  0 <= mask < max_msc L (2 ^ g) ->
  rank * 2 ^ (L - g)
  <= fst (S2I_CUDA (Full L) (Z.lxor (I2S_CUDA (Full L) row) mask))
  < (rank + 1) * 2 ^ (L - g).
Proof.
  intros Hg Hr Hrow Hm; pose proof (max_msc_le_pow2 L g Hg) as Hle.
  assert (Hm' : 0 <= mask < 2 ^ (L - g)) by lia; clear Hm Hle.
  assert (Hp : 0 < 2 ^ (L - g)) by (apply Z.pow_pos_nonneg; lia).
  assert (Hq : Z.lxor row mask / 2 ^ (L - g) = rank).
  { rewrite lxor_low_bits by lia.
    symmetry; apply (Z.div_unique_pos row (2 ^ (L - g)) rank
                       (row - rank * 2 ^ (L - g))); lia. }
  assert (Hx : 0 <= Z.lxor row mask) by (apply Z.lxor_nonneg; lia).
  pose proof (Z.mul_div_le (Z.lxor row mask) (2 ^ (L - g)) Hp).
  pose proof (Z.mul_succ_div_gt (Z.lxor row mask) (2 ^ (L - g)) Hp).
  rewrite Hq in *.
  assert (Hpow : 2 ^ L = 2 ^ (L - g) * 2 ^ g)
    by (rewrite <- Z.pow_add_r by lia; f_equal; lia).
  assert ((rank + 1) * 2 ^ (L - g) <= 2 ^ L) by nia.
  cbn [Full S2I_CUDA I2S_CUDA fst].
  destruct (Z.leb_spec 0 (Z.lxor row mask)); [|lia].
  destruct (Z.ltb_spec (Z.lxor row mask) (2 ^ L)); cbn [andb]; lia.
Qed.

Section GridRows.
Context {mac : Macros}.

Lemma foldM_flat_map {A B S : Type} (f : S -> B -> option S)
  (g : A -> list B) (l : list A) (s : S) :
  foldM f (flat_map g l) s = foldM (fun s a => foldM f (g a) s) l s.
Proof.
  revert s; induction l as [|a l IH]; intros s; simpl; [reflexivity|].
  rewrite foldM_app.
  destruct (foldM f (g a) s) as [s'|]; simpl; [apply IH | reflexivity].
Qed.

Lemma launch_all_rows {S : Type} (size gridDim blockDim : Z)
  (row : S -> Z -> option S) (s : S) :
  launch gridDim blockDim
    (fun blockIdx threadIdx st =>
       foldM row (thread_rows size gridDim blockDim blockIdx threadIdx) st) s
  = foldM row (all_rows size gridDim blockDim) s.
Proof.
  unfold launch, all_rows; rewrite foldM_flat_map.
  apply foldM_ext_in; intros blockIdx s' _.
  rewrite foldM_flat_map; reflexivity.
Qed.

Lemma NoDup_flat_map {A B : Type} (g : A -> list B) (l : list A) :
  NoDup l ->
  (forall a, In a l -> NoDup (g a)) ->
  (forall a a' b, In a l -> In a' l -> In b (g a) -> In b (g a') -> a = a') ->
  NoDup (flat_map g l).
Proof.
  induction l as [|a l IH]; intros Hnd Hg Hdis; simpl; [constructor|].
  inversion Hnd as [|? ? Ha Hnd']; subst.
  apply NoDup_app; repeat split.
  - apply Hg; left; reflexivity.
  - apply IH; auto.
    + intros a' Ha'; apply Hg; right; exact Ha'.
    + intros a1 a2 b H1 H2; apply Hdis; right; assumption.
  - intros b Hb Hb'; apply in_flat_map in Hb' as (a' & Ha' & Hb').
    rewrite (Hdis a a' b (or_introl eq_refl) (or_intror Ha') Hb Hb') in Ha.
    contradiction.
Qed.

Lemma NoDup_zstride (start stop step : Z) :
  0 < step -> NoDup (zstride start stop step).
Proof.
  intros Hs; unfold zstride; destruct (stop <=? start); [constructor|].
  apply Injective_map_NoDup; [|apply seq_NoDup].
  intros j k H; nia.
Qed.

Lemma thread_rows_exact_owner (size gridDim blockDim b t b' t' row : Z) :
  0 < blockDim -> 0 <= t < blockDim -> 0 <= t' < blockDim ->
  0 <= b -> 0 <= b' -> 0 <= size ->
  In row (thread_rows_exact size gridDim blockDim b t) ->
  In row (thread_rows_exact size gridDim blockDim b' t') ->
  b = b' /\ t = t'.
Proof.
  intros HB Ht Ht' Hb Hb' Hsize; unfold thread_rows_exact.
  set (e0 := Z.quot (size - 1) gridDim + 1).
  set (epg := if e0 =? 0 then 1 else e0).
  intros H H'; apply in_zstride in H, H'; try exact HB.
  destruct H as [Hr Hm], H' as [Hr' Hm'].
  assert (Hepg : 0 < epg).
  { destruct (Z.ltb_spec 0 epg) as [|Hle]; [assumption|].
    assert (b * epg <= 0) by nia. assert ((b + 1) * epg <= 0) by nia.
    lia. }
  assert (Hbb : b = b').
  { assert (b * epg <= row < (b + 1) * epg) by lia.
    assert (b' * epg <= row < (b' + 1) * epg) by lia.
    nia. }
  subst b'; split; [reflexivity|].
  apply Z.mod_divide in Hm, Hm'; try lia.
  destruct Hm as [q Hq], Hm' as [q' Hq'].
  assert (t - t' = (q' - q) * blockDim) by lia.
  assert (q' - q = 0) by nia.
  lia.
Qed.

Lemma thread_rows_owner (size gridDim blockDim b t b' t' row : Z) :
  1 < gridDim -> 0 < blockDim -> exact_rows size gridDim blockDim ->
  0 <= b < gridDim -> 0 <= b' < gridDim ->
  0 <= t < blockDim -> 0 <= t' < blockDim ->
  In row (thread_rows size gridDim blockDim b t) ->
  In row (thread_rows size gridDim blockDim b' t') ->
  b = b' /\ t = t'.
Proof.
  intros HG HB Hex Hb Hb' Ht Ht' H H'.
  rewrite thread_rows_is_exact in H, H' by assumption.
  apply (thread_rows_exact_owner size gridDim blockDim b t b' t' row);
    try assumption; try lia.
  apply (exact_rows_nonneg _ _ _ Hex).
Qed.

Lemma thread_rows_NoDup (size gridDim blockDim b t : Z) :
  1 < gridDim -> 0 < blockDim -> exact_rows size gridDim blockDim ->
  0 <= b < gridDim -> 0 <= t < blockDim ->
  NoDup (thread_rows size gridDim blockDim b t).
Proof.
  intros HG HB Hex Hb Ht; rewrite thread_rows_is_exact by assumption.
  unfold thread_rows_exact; apply NoDup_zstride; exact HB.
Qed.

Lemma all_rows_NoDup (size gridDim blockDim : Z) :
  1 < gridDim -> 0 < blockDim -> exact_rows size gridDim blockDim ->
  NoDup (all_rows size gridDim blockDim).
Proof.
  intros HG HB Hex; unfold all_rows.
  apply NoDup_flat_map; [apply NoDup_zrange| |].
  - intros b Hb; apply in_zrange in Hb.
    apply NoDup_flat_map; [apply NoDup_zrange| |].
    + intros t Ht; apply in_zrange in Ht.
      apply thread_rows_NoDup; assumption.
    + intros t t' row Ht Ht' Hr Hr'; apply in_zrange in Ht, Ht'.
      apply (thread_rows_owner size gridDim blockDim b t b t' row); auto.
  - intros b b' row Hb Hb' Hr Hr'; apply in_zrange in Hb, Hb'.
    apply in_flat_map in Hr as (t & Ht & Hr).
    apply in_flat_map in Hr' as (t' & Ht' & Hr').
    apply in_zrange in Ht, Ht'.
    apply (thread_rows_owner size gridDim blockDim b t b' t' row); auto.
Qed.

Lemma in_all_rows (size gridDim blockDim row : Z) :
  1 < gridDim -> 0 < blockDim -> exact_rows size gridDim blockDim ->
  In row (all_rows size gridDim blockDim) <-> 0 <= row < size.
Proof.
  intros HG HB Hex.
  rewrite <- (thread_rows_cover size gridDim blockDim row HG HB Hex).
  unfold all_rows; rewrite in_flat_map; split.
  - intros (b & Hb & Hr); apply in_flat_map in Hr as (t & Ht & Hr).
    apply in_zrange in Hb, Ht; exists b, t; auto.
  - intros (b & t & Hb & Ht & Hr); exists b; split; [apply in_zrange, Hb|].
    apply in_flat_map; exists t; split; [apply in_zrange, Ht | exact Hr].
Qed.

End GridRows.

Section Stores.
Context {ops : RealOps} {mac : Macros}.

Lemma store_stored (k : write_kind) (barray : list PetscScalar) (row_idx : Z)
  (val : PetscScalar) :
  store k barray row_idx val = upd barray row_idx (fun old => stored k old val).
Proof. destruct k; reflexivity. Qed.

(** A loop that stores once to each row of a list without repetitions. *)
Lemma rows_store_cells (k : write_kind) (value : Z -> option PetscScalar)
  (v : Z -> PetscScalar) (rows : list Z) :
  NoDup rows ->
  forall st : kstate,
    (forall r, In r rows ->
       0 <= r < Z.of_nat (length (fst st)) /\ value r = Some (v r)) ->
    exists st',
      foldM (fun st r => val <- value r ;; store_row k r val st) rows st
      = Some st'
      /\ length (fst st') = length (fst st)
      /\ forall j, 0 <= j ->
           (In j rows ->
            nth (Z.to_nat j) (fst st') (cof_int 0)
            = stored k (nth (Z.to_nat j) (fst st) (cof_int 0)) (v j))
           /\ (~ In j rows ->
               nth (Z.to_nat j) (fst st') (cof_int 0)
               = nth (Z.to_nat j) (fst st) (cof_int 0)).
Proof.
  induction rows as [|r rows IH]; intros Hnd st Hrows.
  - exists st; split; [reflexivity | split; [reflexivity|]].
    intros j Hj; split; [intros [] | reflexivity].
  - inversion Hnd as [|? ? Hr Hnd']; subst.
    destruct (Hrows r (or_introl eq_refl)) as [Hin Hval].
    cbn [foldM]; rewrite Hval; cbn [bind]; unfold store_row at 1.
    rewrite store_stored.
    destruct (upd_spec (cof_int 0) (fst st) r
                (fun old => stored k old (v r)) Hin)
      as (b1 & -> & Hl1 & Hn1 & Ho1); cbn [bind].
    destruct (IH Hnd' (b1, (r, k) :: snd st)) as (st' & E & Hl & Hcells).
    { intros r' Hr'; cbn [fst]; rewrite Hl1; apply Hrows; right; exact Hr'. }
    exists st'; split; [exact E | split; [cbn [fst] in Hl; congruence|]].
    intros j Hj; destruct (Hcells j Hj) as [Hin' Hout']; cbn [fst] in *.
    split.
    + intros [<-|Hjr].
      * rewrite (Hout' Hr), Hn1; reflexivity.
      * rewrite (Hin' Hjr), Ho1; [reflexivity | lia|].
        intros ->; contradiction.
    + intros Hnot; rewrite Hout' by (intros H; apply Hnot; right; exact H).
      apply Ho1; [lia|]; intros ->; apply Hnot; left; reflexivity.
Qed.

Lemma kernel_cells (k : write_kind) (value : Z -> option PetscScalar)
  (v : Z -> PetscScalar) (gridDim blockDim size : Z)
  (barray : list PetscScalar) :
  1 < gridDim -> 0 < blockDim -> exact_rows size gridDim blockDim ->
  Z.of_nat (length barray) = size ->
  (forall r, 0 <= r < size -> value r = Some (v r)) ->
  exists st',
    launch gridDim blockDim
      (fun blockIdx threadIdx st =>
         foldM (fun st r => val <- value r ;; store_row k r val st)
               (thread_rows size gridDim blockDim blockIdx threadIdx) st)
      (barray, []) = Some st'
    /\ Z.of_nat (length (fst st')) = size
    /\ forall j, 0 <= j < size ->
         nth (Z.to_nat j) (fst st') (cof_int 0)
         = stored k (nth (Z.to_nat j) barray (cof_int 0)) (v j).
Proof.
  intros HG HB Hex Hlen Hval; rewrite launch_all_rows.
  destruct (rows_store_cells k value v (all_rows size gridDim blockDim)
              (all_rows_NoDup size gridDim blockDim HG HB Hex)
              (barray, [])) as (st' & E & Hl & Hcells).
  { intros r Hr; apply in_all_rows in Hr; try assumption.
    cbn [fst]; split; [lia | apply Hval, Hr]. }
  exists st'; split; [exact E | split; [cbn [fst] in Hl; lia|]].
  intros j Hj; apply (Hcells j ltac:(lia)).
  apply in_all_rows; assumption.
Qed.

End Stores.

(** ** The stores of the multiply kernels *)

Section SpinflipStores.
Context {ops : RealOps} {mac : Macros}.




End SpinflipStores.

Section Algebra.
Context {ops : RealOps} {mac : Macros} {laws : RealLaws ops}.

Lemma cadd_0_l (z : PetscScalar) : cadd (cof_int 0) z = z.
Proof. unfold cadd; simpl; rewrite !radd_0_l; destruct z; reflexivity. Qed.

Lemma cadd_0_r (z : PetscScalar) : cadd z (cof_int 0) = z.
Proof. unfold cadd; simpl; rewrite !radd_0_r; destruct z; reflexivity. Qed.

Lemma cadd_assoc (a b c : PetscScalar) :
  cadd a (cadd b c) = cadd (cadd a b) c.
Proof. unfold cadd; simpl; rewrite !radd_assoc; reflexivity. Qed.

Lemma times_from (ctx : shell_context) (x : Vec) (row_idx : Z)
  (l : list Z) (val : PetscScalar) :
  fold_left (times_step ctx x row_idx) l val
  = cadd val (fold_left (times_step ctx x row_idx) l (cof_int 0)).
Proof.
  revert val; induction l as [|k l IH]; intros val; simpl.
  - symmetry; apply cadd_0_r.
  - rewrite IH, (IH (times_step ctx x row_idx (cof_int 0) k)).
    unfold times_step.
    destruct (mask_column ctx row_idx k =? -1).
    + rewrite cadd_0_l; reflexivity.
    + rewrite cadd_0_l, cadd_assoc; reflexivity.
Qed.

Lemma zrange_app (lo mid hi : Z) :
  lo <= mid <= hi -> zrange lo hi = zrange lo mid ++ zrange mid hi.
Proof.
  intros H; remember (Z.to_nat (mid - lo)) as n eqn:Hn.
  revert lo H Hn; induction n as [|n IH]; intros lo H Hn.
  - replace mid with lo by lia; rewrite (zrange_nil lo lo) by lia.
    reflexivity.
  - rewrite (zrange_cons lo hi), (zrange_cons lo mid) by lia.
    simpl; f_equal; apply IH; lia.
Qed.

Lemma row_times_split (ctx : shell_context) (x : Vec) (row_idx lo mid hi : Z) :
  lo <= mid <= hi ->
  row_times ctx x row_idx lo hi
  = cadd (row_times ctx x row_idx lo mid) (row_times ctx x row_idx mid hi).
Proof.
  intros H; unfold row_times.
  rewrite (zrange_app lo mid hi H), fold_left_app; apply times_from.
Qed.

Lemma zrange_shift (n lo hi : Z) :
  zrange (n + lo) (n + hi) = map (Z.add n) (zrange lo hi).
Proof.
  unfold zrange; rewrite map_map.
  replace (n + hi - (n + lo)) with (hi - lo) by lia.
  apply map_ext; intros k; lia.
Qed.

Lemma rd_shift {A : Type} (l : list A) (n i : Z) :
  0 <= n -> 0 <= i -> rd (shift l n) i = rd l (n + i).
Proof.
  intros Hn Hi; unfold rd, shift.
  destruct (Z.ltb_spec i 0), (Z.ltb_spec (n + i) 0); try lia.
  rewrite nth_error_skipn; f_equal; lia.
Qed.

Lemma rd_slice {A : Type} (l : list A) (lo hi i : Z) :
  0 <= lo -> lo <= i < hi ->
  rd (slice l lo hi) (i - lo) = rd l i.
Proof.
  intros Hlo Hi; unfold rd, slice.
  destruct (Z.ltb_spec (i - lo) 0), (Z.ltb_spec i 0); try lia.
  rewrite nth_error_firstn.
  destruct (Nat.ltb_spec (Z.to_nat (i - lo)) (Z.to_nat (hi - lo))); [|lia].
  rewrite nth_error_skipn; f_equal; lia.
Qed.

Lemma term_sum_shift (masks mask_offsets signs : list Z)
  (real_coeffs : list PetscReal) (n ket k : Z) :
  0 <= n -> 0 <= k ->
  term_sum (shift masks n) (shift mask_offsets n) signs real_coeffs ket k
  = term_sum masks mask_offsets signs real_coeffs ket (n + k).
Proof.
  intros Hn Hk; unfold term_sum.
  rewrite !rd_shift by lia.
  replace (n + (k + 1)) with (n + k + 1) by lia; reflexivity.
Qed.

End Algebra.

Lemma lxor_below (n a b : Z) :
  0 <= n -> 0 <= a < 2 ^ n -> 0 <= b < 2 ^ n -> 0 <= Z.lxor a b < 2 ^ n.
Proof.
  intros Hn Ha Hb.
  assert (H0 : 0 <= Z.lxor a b) by (apply Z.lxor_nonneg; lia).
  split; [exact H0|].
  assert (Hp : 0 < 2 ^ n) by (apply Z.pow_pos_nonneg; lia).
  pose proof (lxor_low_bits n a b Hn Hb) as Hq.
  rewrite (Z.div_small a) in Hq by lia.
  apply Z.div_small_iff in Hq; lia.
Qed.

Section FullMultiply.
Context {ops : RealOps} {mac : Macros} {laws : RealLaws ops}.
Variables (L g : Z) (ctx : shell_context) (x : Vec).
Hypothesis Hg : 0 <= g <= L.
Hypothesis Hwf : wf_ctx ctx.
Hypothesis Hleft : left_subspace_data ctx = Full L.
Hypothesis Hright : right_subspace_data ctx = Full L.
Hypothesis Hmasks : forall k, 0 <= k < nmasks ctx ->
  0 <= nth (Z.to_nat k) (masks ctx) 0 < 2 ^ L.
Hypothesis Hnl :
  nmasks_local ctx = prefix_lt (max_msc L (2 ^ g)) (masks ctx).
Hypothesis Hx : Z.of_nat (length x) = 2 ^ L.
Hypothesis Hrows : exact_rows (2 ^ (L - g)) GPU_BLOCK_NUM GPU_BLOCK_SIZE.

Lemma nmasks_local_bounds : 0 <= nmasks_local ctx <= nmasks ctx.
Proof.
  rewrite Hnl; pose proof (prefix_lt_bounds (max_msc L (2 ^ g)) (masks ctx)).
  destruct Hwf as [_ Hm _ _ _]; lia.
Qed.

Lemma mask_column_Full (row k : Z) :
  0 <= row < 2 ^ L -> 0 <= k < nmasks ctx ->
  mask_column ctx row k = Z.lxor row (nth (Z.to_nat k) (masks ctx) 0)
  /\ 0 <= mask_column ctx row k < 2 ^ L.
Proof.
  intros Hrow Hk; unfold mask_column, lookup_column.
  rewrite Hleft, Hright; cbn [Full SP S2I_CUDA I2S_CUDA fst].
  pose proof (lxor_below L row _ ltac:(lia) Hrow (Hmasks k Hk)) as Hb.
  destruct (Z.leb_spec 0 (Z.lxor row (nth (Z.to_nat k) (masks ctx) 0)));
    [|lia].
  destruct (Z.ltb_spec (Z.lxor row (nth (Z.to_nat k) (masks ctx) 0)) (2 ^ L));
    [|lia].
  cbn [andb]; split; [reflexivity | exact Hb].
Qed.

Lemma mask_step_Full (masks' offsets' : list Z) (k' k row cs ce : Z)
  (val : PetscScalar) :
  0 <= row < 2 ^ L -> 0 <= k < nmasks ctx ->
  term_sum masks' offsets' (signs ctx) (real_coeffs ctx) row k'
  = term_sum (masks ctx) (mask_offsets ctx) (signs ctx) (real_coeffs ctx)
      row k ->
  (0 <= cs -> cs <= mask_column ctx row k < ce ->
   local_mask_step masks' offsets' (signs ctx) (real_coeffs ctx) (Full L)
     (slice x cs ce) cs row val k'
   = Some (times_step ctx x row val k))
  /\ global_mask_step masks' offsets' (signs ctx) (real_coeffs ctx) (Full L)
       x row val k'
     = Some (times_step ctx x row val k).
Proof.
  intros Hrow Hk Ets.
  destruct (mask_column_Full row k Hrow Hk) as [Hcol Hcr].
  assert (Hstep : times_step ctx x row val k
                  = cadd val (cmul (subtotal ctx row k)
                                (nth (Z.to_nat (mask_column ctx row k)) x
                                   (cof_int 0)))).
  { unfold times_step.
    destruct (Z.eqb_spec (mask_column ctx row k) (-1)); [lia|].
    rewrite mask_entry_subtotal by (rewrite Hright; discriminate).
    rewrite Hleft; reflexivity. }
  assert (Hlook : lookup_column (Full L)
                    (Z.lxor row (nth (Z.to_nat k) (masks ctx) 0))
                    (subtotal ctx row k)
                  = (mask_column ctx row k, subtotal ctx row k)).
  { rewrite Hcol in *; unfold lookup_column; cbn [Full SP S2I_CUDA fst].
    destruct (Z.leb_spec 0 (Z.lxor row (nth (Z.to_nat k) (masks ctx) 0)));
      [|lia].
    destruct (Z.ltb_spec (Z.lxor row (nth (Z.to_nat k) (masks ctx) 0))
                (2 ^ L)); [|lia].
    reflexivity. }
  split.
  - intros Hcs Hown; unfold local_mask_step.
    rewrite Ets, term_sum_subtotal by assumption; cbn [bind fst snd].
    rewrite Hlook.
    destruct (Z.eqb_spec (mask_column ctx row k) (-1)); [lia|].
    rewrite rd_slice by lia.
    rewrite (rd_Some x _ (cof_int 0)) by lia; cbn [bind].
    rewrite Hstep; reflexivity.
  - unfold global_mask_step.
    rewrite Ets, term_sum_subtotal by assumption; cbn [bind fst snd].
    rewrite Hlook.
    destruct (Z.eqb_spec (mask_column ctx row k) (-1)); [lia|].
    rewrite (rd_Some x _ (cof_int 0)) by lia; cbn [bind].
    rewrite Hstep; reflexivity.
Qed.

Lemma local_value_Full (rank r : Z) :
  0 <= rank < 2 ^ g -> 0 <= r < 2 ^ (L - g) ->
  foldM (local_mask_step (masks ctx) (mask_offsets ctx) (signs ctx)
           (real_coeffs ctx) (Full L)
           (slice x (rank * 2 ^ (L - g)) ((rank + 1) * 2 ^ (L - g)))
           (rank * 2 ^ (L - g))
           (I2S_CUDA (Full L) (r + rank * 2 ^ (L - g))))
        (zrange 0 (nmasks_local ctx)) (cof_int 0)
  = Some (row_times ctx x (rank * 2 ^ (L - g) + r) 0 (nmasks_local ctx)).
Proof.
  intros Hrank Hr; unfold row_times.
  assert (Hp : 0 < 2 ^ (L - g)) by (apply Z.pow_pos_nonneg; lia).
  assert (Hpow : 2 ^ L = 2 ^ (L - g) * 2 ^ g)
    by (rewrite <- Z.pow_add_r by lia; f_equal; lia).
  assert (Hre : (rank + 1) * 2 ^ (L - g) <= 2 ^ L) by nia.
  assert (Hrs : 0 <= rank * 2 ^ (L - g)) by nia.
  cbn [Full I2S_CUDA].
  replace (r + rank * 2 ^ (L - g)) with (rank * 2 ^ (L - g) + r) by lia.
  apply foldM_total; intros k val Hk; apply in_zrange in Hk.
  pose proof nmasks_local_bounds as Hb.
  apply (mask_step_Full _ _ k k); try lia; [reflexivity|].
  destruct (mask_column_Full (rank * 2 ^ (L - g) + r) k ltac:(lia) ltac:(lia))
    as [-> _].
  assert (Hlt : nth (Z.to_nat k) (masks ctx) 0 < max_msc L (2 ^ g))
    by (apply prefix_lt_below; lia).
  pose proof (Full_local_column_owned L g rank (rank * 2 ^ (L - g) + r)
                (nth (Z.to_nat k) (masks ctx) 0) Hg Hrank ltac:(lia)
                ltac:(pose proof (Hmasks k ltac:(lia)); lia)) as Hown.
  cbn [Full S2I_CUDA I2S_CUDA fst] in Hown.
  pose proof (lxor_below L (rank * 2 ^ (L - g) + r)
                (nth (Z.to_nat k) (masks ctx) 0) ltac:(lia) ltac:(lia)
                (Hmasks k ltac:(lia))) as Hin.
  destruct (Z.leb_spec 0 (Z.lxor (rank * 2 ^ (L - g) + r)
                            (nth (Z.to_nat k) (masks ctx) 0))); [|lia].
  destruct (Z.ltb_spec (Z.lxor (rank * 2 ^ (L - g) + r)
                          (nth (Z.to_nat k) (masks ctx) 0)) (2 ^ L)); [|lia].
  cbn [andb] in Hown; exact Hown.
Qed.

Lemma global_value_Full (row : Z) :
  0 <= row < 2 ^ L ->
  foldM (global_mask_step (shift (masks ctx) (nmasks_local ctx))
           (shift (mask_offsets ctx) (nmasks_local ctx)) (signs ctx)
           (real_coeffs ctx) (Full L) x (I2S_CUDA (Full L) row))
        (zrange 0 (nmasks ctx - nmasks_local ctx)) (cof_int 0)
  = Some (row_times ctx x row (nmasks_local ctx) (nmasks ctx)).
Proof.
  intros Hrow; unfold row_times.
  pose proof nmasks_local_bounds as Hb.
  replace (zrange (nmasks_local ctx) (nmasks ctx))
    with (map (Z.add (nmasks_local ctx))
              (zrange 0 (nmasks ctx - nmasks_local ctx))).
  2:{ rewrite <- zrange_shift; f_equal; lia. }
  rewrite fold_left_map; cbn [Full I2S_CUDA].
  apply foldM_total; intros k val Hk; apply in_zrange in Hk.
  apply (mask_step_Full _ _ k (nmasks_local ctx + k) row 0 0); try lia.
  apply term_sum_shift; lia.
Qed.

Lemma nth_repeat_zero (n j : nat) :
  nth j (repeat (cof_int 0) n) (cof_int 0) = cof_int 0.
Proof.
  revert j; induction n as [|n IH]; intros [|j]; simpl; auto.
Qed.

(** The multiply of one rank out of [2^g] on [Full] subspaces: its cells of
    the output are the products of its rows with [x]. *)
Lemma MatMult_GPU_Full (rank : Z) (A : Mat) (b : Vec) :
  0 <= rank < 2 ^ g -> mat_ctx A = ctx -> Z.of_nat (length b) = 2 ^ L ->
  exists A' barray tr,
    MatMult_GPU {| mpi_size := 2 ^ g; mpi_rank := rank |} A x b
    = Returned 0
        (A',
         firstn (Z.to_nat (rank * 2 ^ (L - g))) b ++ barray
           ++ skipn (Z.to_nat ((rank + 1) * 2 ^ (L - g))) b) tr
    /\ Z.of_nat (length barray) = 2 ^ (L - g)
    /\ forall j, 0 <= j < 2 ^ (L - g) ->
         nth (Z.to_nat j) barray (cof_int 0)
         = row_times ctx x (rank * 2 ^ (L - g) + j) 0 (nmasks ctx).
Proof.
  intros Hrank HA Hb; unfold MatMult_GPU.
  rewrite Hb, Hx, ownership_pow2, HA by assumption.
  rewrite Hleft, Hright.
  assert (Hp : 0 < 2 ^ (L - g)) by (apply Z.pow_pos_nonneg; lia).
  assert (Hpow : 2 ^ L = 2 ^ (L - g) * 2 ^ g)
    by (rewrite <- Z.pow_add_r by lia; f_equal; lia).
  assert (Hrs : 0 <= rank * 2 ^ (L - g)) by nia.
  assert (Hre : (rank + 1) * 2 ^ (L - g) <= 2 ^ L) by nia.
  pose proof nmasks_local_bounds as Hbnd.
  replace ((rank + 1) * 2 ^ (L - g) - rank * 2 ^ (L - g))
    with (2 ^ (L - g)) by lia.
  unfold device_MatMult_local.
  replace ((rank + 1) * 2 ^ (L - g) - rank * 2 ^ (L - g))
    with (2 ^ (L - g)) by lia.
  destruct (kernel_cells (local_write_kind (Full L))
              (fun r =>
                 foldM (local_mask_step (masks ctx) (mask_offsets ctx)
                          (signs ctx) (real_coeffs ctx) (Full L)
                          (slice x (rank * 2 ^ (L - g))
                             ((rank + 1) * 2 ^ (L - g)))
                          (rank * 2 ^ (L - g))
                          (I2S_CUDA (Full L) (r + rank * 2 ^ (L - g))))
                       (zrange 0 (nmasks_local ctx)) (cof_int 0))
              (fun r => row_times ctx x (rank * 2 ^ (L - g) + r) 0
                          (nmasks_local ctx))
              GPU_BLOCK_NUM GPU_BLOCK_SIZE (2 ^ (L - g))
              (repeat (cof_int 0) (Z.to_nat (2 ^ (L - g)))))
    as (st1 & E1 & Hl1 & Hc1); try reflexivity; try exact Hrows.
  { rewrite repeat_length; lia. }
  { intros r Hr.
    apply local_value_Full; assumption. }
  unfold local_row; rewrite E1; destruct st1 as [b1 log1]; cbn [fst] in *.
  cbn [scatter_to_all x_all].
  destruct (Z.gtb_spec (nmasks ctx - nmasks_local ctx) 0) as [Hgl|Hgl].
  - unfold device_MatMult_global.
    replace ((rank + 1) * 2 ^ (L - g) - rank * 2 ^ (L - g))
      with (2 ^ (L - g)) by lia.
    destruct (kernel_cells (global_write_kind (Full L))
                (fun r =>
                   foldM (global_mask_step
                            (shift (masks ctx) (nmasks_local ctx))
                            (shift (mask_offsets ctx) (nmasks_local ctx))
                            (signs ctx) (real_coeffs ctx) (Full L) x
                            (I2S_CUDA (Full L) (r + rank * 2 ^ (L - g))))
                         (zrange 0 (nmasks ctx - nmasks_local ctx))
                         (cof_int 0))
                (fun r => row_times ctx x (rank * 2 ^ (L - g) + r)
                            (nmasks_local ctx) (nmasks ctx))
                GPU_BLOCK_NUM GPU_BLOCK_SIZE (2 ^ (L - g)) b1)
      as (st2 & E2 & Hl2 & Hc2); try reflexivity; try assumption.
    { intros r Hr.
      replace (rank * 2 ^ (L - g) + r) with (r + rank * 2 ^ (L - g)) by lia.
      apply global_value_Full; lia. }
    unfold global_row; rewrite E2; destruct st2 as [b2 log2]; cbn [fst] in *.
    eexists; exists b2; eexists; split; [reflexivity | split; [exact Hl2|]].
    intros j Hj; rewrite (Hc2 j Hj), (Hc1 j Hj), nth_repeat_zero.
    cbn [Full SP local_write_kind global_write_kind stored].
    symmetry; apply row_times_split; lia.
  - eexists; exists b1; eexists; split; [reflexivity | split; [exact Hl1|]].
    intros j Hj; rewrite (Hc1 j Hj).
    cbn [Full SP local_write_kind stored].
    replace (nmasks ctx) with (nmasks_local ctx) by lia; reflexivity.
Qed.

End FullMultiply.

Section FullDense.
Context {ops : RealOps} {mac : Macros}.

Lemma lxor_cancel_l (a b c : Z) : Z.lxor a b = Z.lxor a c -> b = c.
Proof.
  intros H.
  rewrite <- (Z.lxor_0_l b), <- (Z.lxor_0_l c), <- (Z.lxor_nilpotent a).
  rewrite !Z.lxor_assoc, H; reflexivity.
Qed.

(** With [Full] subspaces on [L] spins and distinct masks over these spins,
    every mask sends every row to a column of its own. *)
Lemma Full_columns_distinct (L : Z) (ctx : shell_context) :
  0 <= L ->
  left_subspace_data ctx = Full L -> right_subspace_data ctx = Full L ->
  Z.of_nat (length (masks ctx)) = nmasks ctx -> NoDup (masks ctx) ->
  (forall k, 0 <= k < nmasks ctx ->
     0 <= nth (Z.to_nat k) (masks ctx) 0 < 2 ^ L) ->
  columns_distinct ctx.
Proof.
  intros HL Hleft Hright Hlen Hnd Hmasks.
  pose proof (mask_column_Full L L ctx [] (conj HL (Z.le_refl L))
                Hleft Hright Hmasks) as Hcol.
  split.
  - rewrite Hright; discriminate.
  - rewrite Hleft, Hright; cbn [Full Dim]; intros row Hrow; split.
    + intros k Hk.
      apply (Hcol row k Hrow Hk).
    + intros j k Hj Hk E.
      destruct (Hcol row j Hrow Hj) as [Ej _].
      destruct (Hcol row k Hrow Hk) as [Ek _].
      rewrite Ej, Ek in E; apply lxor_cancel_l in E.
      assert (Z.to_nat j = Z.to_nat k); [|lia].
      apply (proj1 (NoDup_nth (masks ctx) 0) Hnd); try lia; exact E.
Qed.

End FullDense.

(** ** The multiply on any number of processes *)

Lemma ownership_bounds (P rank N : Z) :
  1 <= P -> 0 <= rank < P -> 0 <= N ->
  0 <= fst (VecGetOwnershipRange {| mpi_size := P; mpi_rank := rank |} N)
    <= snd (VecGetOwnershipRange {| mpi_size := P; mpi_rank := rank |} N)
  /\ snd (VecGetOwnershipRange {| mpi_size := P; mpi_rank := rank |} N) <= N.
Proof.
  intros HP Hr HN; unfold VecGetOwnershipRange, PetscSplitOwnership.
  cbn [mpi_size mpi_rank fst snd].
  pose proof (Z.div_mod N P ltac:(lia)) as Hdm.
  pose proof (Z.mod_pos_bound N P ltac:(lia)) as Hm.
  assert (Hq : 0 <= N / P) by (apply Z.div_pos; lia).
  destruct (Z.gtb_spec (N mod P) rank); nia.
Qed.

Lemma ownership_next (P rank N : Z) :
  1 <= P -> 0 <= rank -> 0 <= N ->
  snd (VecGetOwnershipRange {| mpi_size := P; mpi_rank := rank |} N)
  = fst (VecGetOwnershipRange {| mpi_size := P; mpi_rank := rank + 1 |} N).
Proof.
  intros HP Hr HN; unfold VecGetOwnershipRange, PetscSplitOwnership.
  cbn [mpi_size mpi_rank fst snd].
  pose proof (Z.mod_pos_bound N P ltac:(lia)) as Hm.
  destruct (Z.gtb_spec (N mod P) rank); lia.
Qed.

Lemma ownership_last (P N : Z) :
  1 <= P -> 0 <= N ->
  fst (VecGetOwnershipRange {| mpi_size := P; mpi_rank := P |} N) = N.
Proof.
  intros HP HN; unfold VecGetOwnershipRange; cbn [mpi_size mpi_rank fst].
  pose proof (Z.div_mod N P ltac:(lia)) as Hdm.
  pose proof (Z.mod_pos_bound N P ltac:(lia)) as Hm.
  lia.
Qed.

Section AnyMultiply.
Context {ops : RealOps} {mac : Macros} {laws : RealLaws ops}.
Variables (ctx : shell_context) (x : Vec).
Hypothesis Hwf : wf_ctx ctx.
Hypothesis Hnl : 0 <= nmasks_local ctx <= nmasks ctx.

Lemma lookup_column_mask (row k : Z) :
  lookup_column (right_subspace_data ctx)
    (Z.lxor (I2S_CUDA (left_subspace_data ctx) row)
            (nth (Z.to_nat k) (masks ctx) 0))
    (subtotal ctx (I2S_CUDA (left_subspace_data ctx) row) k)
  = (mask_column ctx row k, mask_entry ctx row k).
Proof. unfold mask_column, mask_entry; apply surjective_pairing. Qed.

Lemma mask_step_any (masks' offsets' : list Z) (k' k row cs ce : Z)
  (val : PetscScalar) :
  0 <= k < nmasks ctx ->
  term_sum masks' offsets' (signs ctx) (real_coeffs ctx)
    (I2S_CUDA (left_subspace_data ctx) row) k'
  = term_sum (masks ctx) (mask_offsets ctx) (signs ctx) (real_coeffs ctx)
      (I2S_CUDA (left_subspace_data ctx) row) k ->
  (0 <= cs -> ce <= Z.of_nat (length x) ->
   mask_column ctx row k = -1 \/ cs <= mask_column ctx row k < ce ->
   local_mask_step masks' offsets' (signs ctx) (real_coeffs ctx)
     (right_subspace_data ctx) (slice x cs ce) cs
     (I2S_CUDA (left_subspace_data ctx) row) val k'
   = Some (times_step ctx x row val k))
  /\ (mask_column ctx row k = -1
      \/ 0 <= mask_column ctx row k < Z.of_nat (length x) ->
      global_mask_step masks' offsets' (signs ctx) (real_coeffs ctx)
        (right_subspace_data ctx) x
        (I2S_CUDA (left_subspace_data ctx) row) val k'
      = Some (times_step ctx x row val k)).
Proof.
  intros Hk Ets; split.
  - intros Hcs Hce Hown; unfold local_mask_step, times_step.
    rewrite Ets, term_sum_subtotal by assumption; cbn [bind fst snd].
    rewrite lookup_column_mask.
    destruct (Z.eqb_spec (mask_column ctx row k) (-1)); [reflexivity|].
    rewrite rd_slice by lia.
    rewrite (rd_Some x _ (cof_int 0)) by lia; reflexivity.
  - intros Hown; unfold global_mask_step, times_step.
    rewrite Ets, term_sum_subtotal by assumption; cbn [bind fst snd].
    rewrite lookup_column_mask.
    destruct (Z.eqb_spec (mask_column ctx row k) (-1)); [reflexivity|].
    rewrite (rd_Some x _ (cof_int 0)) by lia; reflexivity.
Qed.

Lemma local_value_any (rs cs ce r : Z) :
  0 <= cs -> ce <= Z.of_nat (length x) ->
  (forall k, 0 <= k < nmasks_local ctx ->
     mask_column ctx (rs + r) k = -1
     \/ cs <= mask_column ctx (rs + r) k < ce) ->
  foldM (local_mask_step (masks ctx) (mask_offsets ctx) (signs ctx)
           (real_coeffs ctx) (right_subspace_data ctx) (slice x cs ce) cs
           (I2S_CUDA (left_subspace_data ctx) (r + rs)))
        (zrange 0 (nmasks_local ctx)) (cof_int 0)
  = Some (row_times ctx x (rs + r) 0 (nmasks_local ctx)).
Proof.
  intros Hcs Hce Hown; unfold row_times.
  replace (r + rs) with (rs + r) by lia.
  apply foldM_total; intros k val Hk; apply in_zrange in Hk.
  apply (mask_step_any _ _ k k); try lia; [reflexivity|].
  apply Hown; lia.
Qed.

Lemma global_value_any (row : Z) :
  (forall k, nmasks_local ctx <= k < nmasks ctx ->
     mask_column ctx row k = -1
     \/ 0 <= mask_column ctx row k < Z.of_nat (length x)) ->
  foldM (global_mask_step (shift (masks ctx) (nmasks_local ctx))
           (shift (mask_offsets ctx) (nmasks_local ctx)) (signs ctx)
           (real_coeffs ctx) (right_subspace_data ctx) x
           (I2S_CUDA (left_subspace_data ctx) row))
        (zrange 0 (nmasks ctx - nmasks_local ctx)) (cof_int 0)
  = Some (row_times ctx x row (nmasks_local ctx) (nmasks ctx)).
Proof.
  intros Hown; unfold row_times.
  replace (zrange (nmasks_local ctx) (nmasks ctx))
    with (map (Z.add (nmasks_local ctx))
              (zrange 0 (nmasks ctx - nmasks_local ctx))).
  2:{ rewrite <- zrange_shift; f_equal; lia. }
  rewrite fold_left_map.
  apply foldM_total; intros k val Hk; apply in_zrange in Hk.
  apply (mask_step_any _ _ k (nmasks_local ctx + k) row 0 0); try lia.
  - apply term_sum_shift; lia.
  - apply Hown; lia.
Qed.

Lemma stored_on_zero (R : subspace) (v : PetscScalar) :
  stored (local_write_kind R) (cof_int 0) v = v.
Proof.
  rewrite local_write_kind_spec; destruct (spinflip_set R); cbn [stored];
    [apply cadd_0_l | reflexivity].
Qed.

Lemma stored_global (R : subspace) (old v : PetscScalar) :
  stored (global_write_kind R) old v = cadd old v.
Proof.
  rewrite global_write_kind_spec; destruct (spinflip_set R); reflexivity.
Qed.

(** The multiply of one rank whose local masks keep its rows in its columns:
    its cells of the output are the products of its rows with [x]. *)
Lemma MatMult_GPU_any (comm : MPI_Comm) (A : Mat) (b : Vec) :
  1 <= mpi_size comm -> 0 <= mpi_rank comm < mpi_size comm ->
  mat_ctx A = ctx ->
  exact_rows (snd (VecGetOwnershipRange comm (Z.of_nat (length b)))
              - fst (VecGetOwnershipRange comm (Z.of_nat (length b))))
             GPU_BLOCK_NUM GPU_BLOCK_SIZE ->
  (forall row k,
     fst (VecGetOwnershipRange comm (Z.of_nat (length b))) <= row
       < snd (VecGetOwnershipRange comm (Z.of_nat (length b))) ->
     0 <= k < nmasks_local ctx ->
     mask_column ctx row k = -1
     \/ fst (VecGetOwnershipRange comm (Z.of_nat (length x)))
        <= mask_column ctx row k
        < snd (VecGetOwnershipRange comm (Z.of_nat (length x)))) ->
  (forall row k,
     fst (VecGetOwnershipRange comm (Z.of_nat (length b))) <= row
       < snd (VecGetOwnershipRange comm (Z.of_nat (length b))) ->
     nmasks_local ctx <= k < nmasks ctx ->
     mask_column ctx row k = -1
     \/ 0 <= mask_column ctx row k < Z.of_nat (length x)) ->
  exists barray tr,
    MatMult_GPU comm A x b
    = Returned 0
        (with_ctx A (scatter_to_all ctx x),
         firstn (Z.to_nat (fst (VecGetOwnershipRange comm
                                  (Z.of_nat (length b))))) b
           ++ barray
           ++ skipn (Z.to_nat (snd (VecGetOwnershipRange comm
                                      (Z.of_nat (length b))))) b) tr
    /\ Z.of_nat (length barray)
       = snd (VecGetOwnershipRange comm (Z.of_nat (length b)))
         - fst (VecGetOwnershipRange comm (Z.of_nat (length b)))
    /\ forall j,
         0 <= j < snd (VecGetOwnershipRange comm (Z.of_nat (length b)))
                  - fst (VecGetOwnershipRange comm (Z.of_nat (length b))) ->
         nth (Z.to_nat j) barray (cof_int 0)
         = row_times ctx x
             (fst (VecGetOwnershipRange comm (Z.of_nat (length b))) + j)
             0 (nmasks ctx).
Proof.
  intros HP Hrank HA Hex Hlocal Hglobal; unfold MatMult_GPU.
  destruct comm as [P rank]; cbn [mpi_size mpi_rank] in HP, Hrank.
  pose proof (ownership_bounds P rank (Z.of_nat (length b)) HP Hrank
                ltac:(lia)) as Hrb.
  pose proof (ownership_bounds P rank (Z.of_nat (length x)) HP Hrank
                ltac:(lia)) as Hcb.
  destruct (VecGetOwnershipRange {| mpi_size := P; mpi_rank := rank |}
              (Z.of_nat (length b))) as [rs re].
  destruct (VecGetOwnershipRange {| mpi_size := P; mpi_rank := rank |}
              (Z.of_nat (length x))) as [cs ce].
  cbn [fst snd] in *. rewrite HA.
  unfold device_MatMult_local.
  destruct (kernel_cells (local_write_kind (right_subspace_data ctx))
              (fun r =>
                 foldM (local_mask_step (masks ctx) (mask_offsets ctx)
                          (signs ctx) (real_coeffs ctx)
                          (right_subspace_data ctx) (slice x cs ce) cs
                          (I2S_CUDA (left_subspace_data ctx) (r + rs)))
                       (zrange 0 (nmasks_local ctx)) (cof_int 0))
              (fun r => row_times ctx x (rs + r) 0 (nmasks_local ctx))
              GPU_BLOCK_NUM GPU_BLOCK_SIZE (re - rs)
              (repeat (cof_int 0) (Z.to_nat (re - rs))))
    as (st1 & E1 & Hl1 & Hc1); try reflexivity; try exact Hex.
  { rewrite repeat_length; lia. }
  { intros r Hr; apply local_value_any; try lia.
    intros k Hk; apply Hlocal; lia. }
  unfold local_row; rewrite E1; destruct st1 as [b1 log1]; cbn [fst] in *.
  cbn [scatter_to_all x_all].
  destruct (Z.gtb_spec (nmasks ctx - nmasks_local ctx) 0) as [Hgl|Hgl].
  - unfold device_MatMult_global.
    destruct (kernel_cells (global_write_kind (right_subspace_data ctx))
                (fun r =>
                   foldM (global_mask_step
                            (shift (masks ctx) (nmasks_local ctx))
                            (shift (mask_offsets ctx) (nmasks_local ctx))
                            (signs ctx) (real_coeffs ctx)
                            (right_subspace_data ctx) x
                            (I2S_CUDA (left_subspace_data ctx) (r + rs)))
                         (zrange 0 (nmasks ctx - nmasks_local ctx))
                         (cof_int 0))
                (fun r => row_times ctx x (rs + r)
                            (nmasks_local ctx) (nmasks ctx))
                GPU_BLOCK_NUM GPU_BLOCK_SIZE (re - rs) b1)
      as (st2 & E2 & Hl2 & Hc2); try reflexivity; try assumption.
    { intros r Hr.
      replace (rs + r) with (r + rs) by lia.
      apply global_value_any.
      intros k Hk; apply Hglobal; lia. }
    unfold global_row; rewrite E2; destruct st2 as [b2 log2]; cbn [fst] in *.
    exists b2; eexists; split; [reflexivity | split; [exact Hl2|]].
    intros j Hj; rewrite (Hc2 j Hj), (Hc1 j Hj), nth_repeat_zero.
    rewrite stored_global, stored_on_zero.
    symmetry; apply row_times_split; lia.
  - exists b1; eexists; split; [reflexivity | split; [exact Hl1|]].
    intros j Hj; rewrite (Hc1 j Hj), nth_repeat_zero, stored_on_zero.
    replace (nmasks ctx) with (nmasks_local ctx) by lia; reflexivity.
Qed.

End AnyMultiply.

(** ** The partition of the masks *)

Section PartitionAtBuild.
Context {ops : RealOps} {mac : Macros} {laws : RealLaws ops}.



End PartitionAtBuild.

Section Assembly.
Context {ops : RealOps} {mac : Macros} {laws : RealLaws ops}.

Lemma mapM_total {A B : Type} (f : A -> option B) (l : list A) :
  (forall a, In a l -> exists b, f a = Some b) ->
  exists r, mapM f l = Some r.
Proof.
  induction l as [|a l IH]; intros H; simpl; [eexists; reflexivity|].
  destruct (H a (or_introl eq_refl)) as (b & ->); simpl.
  destruct IH as (r & ->); [intros; apply H; right; assumption|].
  simpl; eexists; reflexivity.
Qed.

Lemma BuildContext_CUDA_total (comm : MPI_Comm) (m : msc_t)
  (Ls Rs : subspace) :
  wf_msc m -> exists ctx, BuildContext_CUDA comm m Ls Rs = Some ctx.
Proof.
  intros [Hn Hm Hol Ho Hs Hc]; unfold BuildContext_CUDA.
  rewrite (rd_Some (msc.mask_offsets m) (msc.nmasks m) 0) by lia;
    cbn [bind].
  rewrite count_local_spec by lia; cbn [bind].
  pose proof (Ho (msc.nmasks m) ltac:(lia)) as Hnt.
  unfold cudaMemcpy.
  destruct (Z.ltb_spec (msc.nmasks m) 0); [lia|].
  destruct (Z.ltb_spec (Z.of_nat (length (msc.masks m))) (msc.nmasks m));
    [lia|].
  destruct (Z.ltb_spec (msc.nmasks m + 1) 0); [lia|].
  destruct (Z.ltb_spec (Z.of_nat (length (msc.mask_offsets m)))
              (msc.nmasks m + 1)); [lia|].
  destruct (Z.ltb_spec (nth (Z.to_nat (msc.nmasks m)) (msc.mask_offsets m) 0)
              0); [lia|].
  destruct (Z.ltb_spec (Z.of_nat (length (msc.signs m)))
              (nth (Z.to_nat (msc.nmasks m)) (msc.mask_offsets m) 0)); [lia|].
  cbn [orb bind].
  destruct (mapM_total
              (fun i =>
                 c <- rd (msc.coeffs m) i ;;
                 Some (if rne (PetscRealPart c) (of_int 0)
                       then PetscRealPart c else PetscImaginaryPart c))
              (zrange 0 (nth (Z.to_nat (msc.nmasks m))
                           (msc.mask_offsets m) 0))) as (rc & Erc).
  { intros i Hi; apply in_zrange in Hi.
    rewrite (rd_Some (msc.coeffs m) i (cof_int 0)) by lia.
    eexists; reflexivity. }
  unfold build_real_coeffs; rewrite Erc; cbn [bind].
  eexists; reflexivity.
Qed.

Lemma BuildContext_CUDA_fields (comm comm' : MPI_Comm) (m : msc_t)
  (Ls Rs : subspace) (ctx ctx' : shell_context) :
  BuildContext_CUDA comm m Ls Rs = Some ctx ->
  BuildContext_CUDA comm' m Ls Rs = Some ctx' ->
  nmasks ctx = nmasks ctx' /\ masks ctx = masks ctx' /\
  mask_offsets ctx = mask_offsets ctx' /\ signs ctx = signs ctx' /\
  real_coeffs ctx = real_coeffs ctx' /\
  left_subspace_data ctx = left_subspace_data ctx' /\
  right_subspace_data ctx = right_subspace_data ctx'.
Proof.
  unfold BuildContext_CUDA; intros E E'.
  destruct (rd (msc.mask_offsets m) (msc.nmasks m)) as [nterms|];
    [|discriminate].
  cbn [bind] in E, E'.
  apply bind_Some in E as (nl & _ & E).
  apply bind_Some in E' as (nl' & _ & E').
  destruct (cudaMemcpy (msc.masks m) _); [|discriminate].
  destruct (cudaMemcpy (msc.mask_offsets m) _); [|discriminate].
  destruct (cudaMemcpy (msc.signs m) _); [|discriminate].
  destruct (build_real_coeffs _ _); [|discriminate].
  cbn [bind] in E, E'.
  injection E as <-; injection E' as <-; cbn.
  repeat split; reflexivity.
Qed.

Lemma row_times_ctx_ext (ctx ctx' : shell_context) (x : Vec)
  (row_idx lo hi : Z) :
  masks ctx = masks ctx' -> mask_offsets ctx = mask_offsets ctx' ->
  signs ctx = signs ctx' -> real_coeffs ctx = real_coeffs ctx' ->
  left_subspace_data ctx = left_subspace_data ctx' ->
  right_subspace_data ctx = right_subspace_data ctx' ->
  row_times ctx x row_idx lo hi = row_times ctx' x row_idx lo hi.
Proof.
  destruct ctx, ctx'; cbn [masks mask_offsets signs real_coeffs
                             left_subspace_data right_subspace_data].
  intros -> -> -> -> -> ->; reflexivity.
Qed.

Lemma nth_splice (b mid : list PetscScalar) (lo hi i : Z) :
  0 <= lo <= hi -> hi <= Z.of_nat (length b) ->
  Z.of_nat (length mid) = hi - lo -> 0 <= i ->
  Z.of_nat (length (firstn (Z.to_nat lo) b ++ mid ++ skipn (Z.to_nat hi) b))
  = Z.of_nat (length b)
  /\ (i < lo ->
      nth (Z.to_nat i)
          (firstn (Z.to_nat lo) b ++ mid ++ skipn (Z.to_nat hi) b)
          (cof_int 0)
      = nth (Z.to_nat i) b (cof_int 0))
  /\ (lo <= i < hi ->
      nth (Z.to_nat i)
          (firstn (Z.to_nat lo) b ++ mid ++ skipn (Z.to_nat hi) b)
          (cof_int 0)
      = nth (Z.to_nat (i - lo)) mid (cof_int 0)).
Proof.
  intros Hlo Hhi Hmid Hi.
  assert (Hf : length (firstn (Z.to_nat lo) b) = Z.to_nat lo)
    by (apply firstn_length_le; lia).
  repeat split.
  - rewrite !length_app, Hf, length_skipn; lia.
  - intros Hlt; rewrite app_nth1 by lia.
    apply nth_firstn_lt; lia.
  - intros Hin; rewrite app_nth2 by lia.
    rewrite app_nth1 by lia.
    f_equal; lia.
Qed.

Section Ranks.
Variables (L g : Z) (m : msc_t) (x : Vec).
Hypothesis Hg : 0 <= g <= L.
Hypothesis Hwf : wf_msc m.
Hypothesis Hmasks : forall k, 0 <= k < msc.nmasks m ->
  0 <= nth (Z.to_nat k) (msc.masks m) 0 < 2 ^ L.
Hypothesis Hx : Z.of_nat (length x) = 2 ^ L.
Hypothesis Hrows : exact_rows (2 ^ (L - g)) GPU_BLOCK_NUM GPU_BLOCK_SIZE.

Lemma multiply_rank_Full (rank : Z) (b : Vec) :
  0 <= rank < 2 ^ g -> Z.of_nat (length b) = 2 ^ L ->
  exists ctx barray,
    BuildContext_CUDA {| mpi_size := 2 ^ g; mpi_rank := rank |} m
      (Full L) (Full L) = Some ctx
    /\ multiply_rank (2 ^ g) m (Full L) (Full L) x b rank
       = Some (firstn (Z.to_nat (rank * 2 ^ (L - g))) b ++ barray
               ++ skipn (Z.to_nat ((rank + 1) * 2 ^ (L - g))) b)
    /\ Z.of_nat (length barray) = 2 ^ (L - g)
    /\ forall j, 0 <= j < 2 ^ (L - g) ->
         nth (Z.to_nat j) barray (cof_int 0)
         = row_times ctx x (rank * 2 ^ (L - g) + j) 0 (nmasks ctx).
Proof.
  intros Hrank Hb; unfold multiply_rank, BuildGPUShell.
  destruct (BuildContext_CUDA_total
              {| mpi_size := 2 ^ g; mpi_rank := rank |} m (Full L) (Full L)
              Hwf) as (ctx & Ec).
  rewrite Ec; cbn [bind].
  destruct (BuildContext_CUDA_wf _ _ _ _ _ Hwf Ec) as (Hwfc & _ & HL & HR).
  destruct (BuildContext_CUDA_partition _ _ _ _ _ Ec) as (Hn & Hm & Hl).
  simpl in Hl.
  destruct (MatMult_GPU_Full L g ctx x Hg Hwfc HL HR) with
    (rank := rank) (b := b)
    (A := {| mat_M := Dim (Full L); mat_N := Dim (Full L); mat_ctx := ctx |})
    as (A' & barray & tr & E & Hlen & Hcells); auto.
  { intros k Hk; rewrite Hm, nth_firstn_lt by lia.
    apply Hmasks; lia. }
  rewrite E; exists ctx, barray; auto.
Qed.

Lemma multiply_ranks_from (k : nat) :
  forall (a : Z) (b : Vec),
    0 <= a -> a + Z.of_nat k = 2 ^ g -> Z.of_nat (length b) = 2 ^ L ->
    forall ctx0,
      BuildContext_CUDA {| mpi_size := 1; mpi_rank := 0 |} m
        (Full L) (Full L) = Some ctx0 ->
      (forall i, 0 <= i < a * 2 ^ (L - g) ->
         nth (Z.to_nat i) b (cof_int 0)
         = row_times ctx0 x i 0 (nmasks ctx0)) ->
      exists y,
        foldM (multiply_rank (2 ^ g) m (Full L) (Full L) x)
              (zrange a (2 ^ g)) b = Some y
        /\ Z.of_nat (length y) = 2 ^ L
        /\ forall i, 0 <= i < 2 ^ L ->
             nth (Z.to_nat i) y (cof_int 0)
             = row_times ctx0 x i 0 (nmasks ctx0).
Proof.
  assert (Hp : 0 < 2 ^ (L - g)) by (apply Z.pow_pos_nonneg; lia).
  assert (Hpow : 2 ^ L = 2 ^ (L - g) * 2 ^ g)
    by (rewrite <- Z.pow_add_r by lia; f_equal; lia).
  induction k as [|k IH]; intros a b Ha Hk Hb ctx0 E0 Hdone.
  - rewrite zrange_nil by lia; exists b; split; [reflexivity|].
    split; [exact Hb|].
    intros i Hi; apply Hdone; nia.
  - rewrite zrange_cons by lia; cbn [foldM].
    destruct (multiply_rank_Full a b ltac:(lia) Hb)
      as (ctx & barray & Ec & -> & Hlen & Hcells); cbn [bind].
    assert (Hrs : 0 <= a * 2 ^ (L - g)) by nia.
    assert (Hre : (a + 1) * 2 ^ (L - g) <= 2 ^ L) by nia.
    assert (Hext : forall i, row_times ctx x i 0 (nmasks ctx)
                             = row_times ctx0 x i 0 (nmasks ctx0)).
    { destruct (BuildContext_CUDA_fields _ _ _ _ _ _ _ Ec E0)
        as (Hn & H1 & H2 & H3 & H4 & H5 & H6).
      intros i; rewrite Hn; apply row_times_ctx_ext; assumption. }
    apply (IH (a + 1)) with (ctx0 := ctx0); try lia; try assumption.
    + destruct (nth_splice b barray (a * 2 ^ (L - g))
                  ((a + 1) * 2 ^ (L - g)) 0) as (Hsl & _); lia.
    + intros i Hi.
      destruct (nth_splice b barray (a * 2 ^ (L - g))
                  ((a + 1) * 2 ^ (L - g)) i) as (_ & Hlow & Hmid); try lia.
      destruct (Z.ltb_spec i (a * 2 ^ (L - g))) as [Hlt|Hge].
      * rewrite (Hlow Hlt); apply Hdone; lia.
      * rewrite Hmid by lia.
        rewrite Hcells by lia.
        rewrite Hext; f_equal; lia.
Qed.

End Ranks.

(** X5: process-count independence where the partition is sound: with [Full]
    subspaces on [L] spins, masks over these spins, a number of rows in the
    exact range of the index arithmetic and a number of processes that is a
    power of two up to [2^L], the multiply gives what one process gives, the
    products of the rows of the dense materialization with [x], whatever the
    output vector held. *)
Theorem multiply_on_power_of_two (m : msc_t) (L g : Z) (x b b' : Vec) :
  wf_msc m ->
  (forall k, 0 <= k < msc.nmasks m ->
     0 <= nth (Z.to_nat k) (msc.masks m) 0 < 2 ^ L) ->
  0 <= g <= L ->
  exact_rows (2 ^ L) GPU_BLOCK_NUM GPU_BLOCK_SIZE ->
  Z.of_nat (length x) = 2 ^ L -> Z.of_nat (length b) = 2 ^ L ->
  Z.of_nat (length b') = 2 ^ L ->
  exists ctx y,
    BuildContext_CUDA {| mpi_size := 1; mpi_rank := 0 |} m (Full L) (Full L)
    = Some ctx
    /\ multiply 1 m (Full L) (Full L) x b = Some y
    /\ multiply (2 ^ g) m (Full L) (Full L) x b' = Some y
    /\ Z.of_nat (length y) = 2 ^ L
    /\ forall i, 0 <= i < 2 ^ L ->
         nth (Z.to_nat i) y (cof_int 0) = row_times ctx x i 0 (nmasks ctx).
Proof.
  intros Hwf Hmasks Hg Hrows Hx Hb Hb'.
  assert (Hrows0 : exact_rows (2 ^ (L - 0)) GPU_BLOCK_NUM GPU_BLOCK_SIZE)
    by (rewrite Z.sub_0_r; exact Hrows).
  assert (Hrowsg : exact_rows (2 ^ (L - g)) GPU_BLOCK_NUM GPU_BLOCK_SIZE).
  { apply (exact_rows_le (2 ^ L)); [exact Hrows|].
    split; [apply Z.pow_pos_nonneg; lia|].
    apply Z.pow_le_mono_r; lia. }
  destruct (BuildContext_CUDA_total {| mpi_size := 1; mpi_rank := 0 |} m
              (Full L) (Full L) Hwf) as (ctx0 & E0).
  destruct (multiply_ranks_from L 0 m x ltac:(lia) Hwf Hmasks Hx Hrows0
              (Z.to_nat (2 ^ 0)) 0 b ltac:(lia) ltac:(lia) Hb ctx0 E0)
    as (y1 & E1 & Hl1 & Hy1).
  { intros i Hi; lia. }
  destruct (multiply_ranks_from L g m x Hg Hwf Hmasks Hx Hrowsg
              (Z.to_nat (2 ^ g)) 0 b' ltac:(lia)
              ltac:(pose proof (Z.pow_pos_nonneg 2 g); lia) Hb' ctx0 E0)
    as (y2 & E2 & Hl2 & Hy2).
  { intros i Hi; lia. }
  assert (Hy : y2 = y1).
  { apply (nth_ext _ _ (cof_int 0) (cof_int 0)); [lia|].
    intros n Hn.
    pose proof (Hy1 (Z.of_nat n) ltac:(lia)) as H1.
    pose proof (Hy2 (Z.of_nat n) ltac:(lia)) as H2.
    rewrite Nat2Z.id in H1, H2; congruence. }
  subst y2; exists ctx0, y1; repeat split; auto.
Qed.

End Assembly.

(** ** The rows of a launch, once each *)

Section GridOnce.
Context {mac : Macros}.
(** X1: over a number of rows in the exact range of the index arithmetic,
    every row of the range belongs to exactly one thread of the grid, no
    thread has a row outside the range, and no thread has a row twice. *)
Theorem grid_visits_each_row_once (size gridDim blockDim : Z) :
  1 < gridDim -> 0 < blockDim -> exact_rows size gridDim blockDim ->
  (forall row, 0 <= row < size ->
     exists blockIdx threadIdx,
       0 <= blockIdx < gridDim /\ 0 <= threadIdx < blockDim /\
       In row (thread_rows size gridDim blockDim blockIdx threadIdx) /\
       forall blockIdx' threadIdx',
         0 <= blockIdx' < gridDim -> 0 <= threadIdx' < blockDim ->
         In row (thread_rows size gridDim blockDim blockIdx' threadIdx') ->
         blockIdx' = blockIdx /\ threadIdx' = threadIdx)
  /\ (forall blockIdx threadIdx row,
        0 <= blockIdx < gridDim -> 0 <= threadIdx < blockDim ->
        In row (thread_rows size gridDim blockDim blockIdx threadIdx) ->
        0 <= row < size)
  /\ (forall blockIdx threadIdx,
        0 <= blockIdx < gridDim -> 0 <= threadIdx < blockDim ->
        NoDup (thread_rows size gridDim blockDim blockIdx threadIdx)).
Proof.
  intros HG HB Hsize; split; [|split].
  - intros row Hrow.
    destruct (proj2 (thread_rows_cover size gridDim blockDim row HG HB Hsize)
                Hrow) as (b & t & Hb & Ht & Hin).
    exists b, t; repeat split; try assumption; try lia.
    + apply (thread_rows_owner size gridDim blockDim blockIdx' threadIdx'
               b t row); auto; lia.
    + apply (thread_rows_owner size gridDim blockDim blockIdx' threadIdx'
               b t row); auto; lia.
  - intros b t row Hb Ht Hin.
    apply (thread_rows_cover size gridDim blockDim row HG HB Hsize).
    exists b, t; auto.
  - intros b t Hb Ht; apply thread_rows_NoDup; assumption.
Qed.

End GridOnce.

(** ** A launch over no row *)

Lemma zstride_head (start stop step : Z) :
  start < stop -> 0 < step ->
  exists rest, zstride start stop step = start :: rest.
Proof.
  intros Hlt Hs; unfold zstride.
  destruct (Z.leb_spec stop start); [lia|].
  assert (Hq : 0 <= Z.quot (stop - start - 1) step)
    by (apply Z.quot_pos; lia).
  replace (Z.to_nat (Z.quot (stop - start - 1) step + 1))
    with (S (Z.to_nat (Z.quot (stop - start - 1) step))) by lia.
  cbn [seq map]; eexists; f_equal; lia.
Qed.

Lemma foldM_skip {A B : Type} (f : B -> A -> option B) (l : list A) (b : B) :
  (forall a b', In a l -> f b' a = Some b') -> foldM f l b = Some b.
Proof.
  induction l as [|a l IH]; intros H; [reflexivity|].
  cbn [foldM]; rewrite (H a b (or_introl eq_refl)); cbn [bind].
  apply IH; intros a' b' Hin; apply H; right; exact Hin.
Qed.

Section NoRow.
Context {mac : Macros}.

(** A launch over no row with 64-bit indices: no thread has a row. *)
Lemma thread_rows_none_64 (blockIdx threadIdx : Z) :
  PETSC_USE_64BIT_INDICES = true -> 0 <= blockIdx -> 0 <= threadIdx ->
  thread_rows 0 GPU_BLOCK_NUM GPU_BLOCK_SIZE blockIdx threadIdx = [].
Proof.
  intros H64 Hb Ht; unfold thread_rows; rewrite H64.
  change (Z.quot (0 - 1) GPU_BLOCK_NUM + 1) with 1.
  cbn [Z.eqb]; unfold zstride.
  destruct (Z.leb_spec (Z.min ((blockIdx + 1) * 1) 0)
              (blockIdx * 1 + threadIdx)); [reflexivity | lia].
Qed.

(** With 32-bit indices the blocks of the first half have no row and the
    first thread of block 64 starts at row [-2^31]. *)
Lemma thread_rows_none_32 (blockIdx threadIdx : Z) :
  PETSC_USE_64BIT_INDICES = false ->
  0 <= blockIdx < 64 -> 0 <= threadIdx < GPU_BLOCK_SIZE ->
  thread_rows 0 GPU_BLOCK_NUM GPU_BLOCK_SIZE blockIdx threadIdx = [].
Proof.
  intros H32 Hb Ht; unfold thread_rows; rewrite H32.
  change (to_int (to_unsigned (0 - 1) / GPU_BLOCK_NUM + 1)) with (2 ^ 25).
  change (2 ^ 25 =? 0) with false; cbn iota.
  change (to_unsigned (2 ^ 25)) with (2 ^ 25).
  change (to_unsigned 0) with 0.
  unfold GPU_BLOCK_SIZE in *.
  assert (H25 : 2 ^ 25 = 33554432) by reflexivity.
  assert (H31 : 2 ^ 31 = 2147483648) by reflexivity.
  assert (H32' : 2 ^ 32 = 4294967296) by reflexivity.
  rewrite (to_int_id (blockIdx * 2 ^ 25)) by lia.
  rewrite (to_unsigned_id ((blockIdx + 1) * 2 ^ 25)) by lia.
  rewrite (to_unsigned_id (blockIdx * 2 ^ 25)) by lia.
  rewrite (to_int_id (blockIdx * 2 ^ 25 + threadIdx)) by lia.
  destruct (Z.ltb_spec ((blockIdx + 1) * 2 ^ 25) 0); [lia|].
  change (to_int 0) with 0.
  unfold zstride.
  destruct (Z.leb_spec 0 (blockIdx * 2 ^ 25 + threadIdx)); [reflexivity | lia].
Qed.

Lemma thread_rows_first_32 :
  PETSC_USE_64BIT_INDICES = false ->
  exists rest,
    thread_rows 0 GPU_BLOCK_NUM GPU_BLOCK_SIZE 64 0 = (- 2 ^ 31) :: rest.
Proof.
  intros H32; unfold thread_rows; rewrite H32.
  change (to_int (to_unsigned (0 - 1) / GPU_BLOCK_NUM + 1)) with (2 ^ 25).
  change (2 ^ 25 =? 0) with false; cbn iota.
  change (to_unsigned (2 ^ 25)) with (2 ^ 25).
  change (to_int (64 * 2 ^ 25)) with (- 2 ^ 31).
  change (to_int (to_unsigned (- 2 ^ 31) + 0)) with (- 2 ^ 31).
  change (to_unsigned ((64 + 1) * 2 ^ 25) <? to_unsigned 0) with false.
  cbn iota; change (to_int (to_unsigned 0)) with 0.
  apply zstride_head; reflexivity.
Qed.

Lemma launch_no_row {S : Type} (row : S -> Z -> option S) (s : S) :
  (forall st r, r < 0 -> row st r = None) ->
  launch GPU_BLOCK_NUM GPU_BLOCK_SIZE
    (fun blockIdx threadIdx st =>
       foldM row
         (thread_rows 0 GPU_BLOCK_NUM GPU_BLOCK_SIZE blockIdx threadIdx) st)
    s
  = if PETSC_USE_64BIT_INDICES then Some s else None.
Proof.
  intros Hneg; unfold launch.
  destruct PETSC_USE_64BIT_INDICES eqn:Hm.
  - apply foldM_skip; intros b st Hb; apply in_zrange in Hb.
    apply foldM_skip; intros t st' Ht; apply in_zrange in Ht.
    rewrite thread_rows_none_64 by (assumption || lia); reflexivity.
  - rewrite (zrange_app 0 64 GPU_BLOCK_NUM) by (unfold GPU_BLOCK_NUM; lia).
    rewrite foldM_app.
    rewrite (foldM_skip _ (zrange 0 64)).
    2:{ intros b st Hb; apply in_zrange in Hb.
        apply foldM_skip; intros t st' Ht; apply in_zrange in Ht.
        rewrite thread_rows_none_32 by assumption; reflexivity. }
    cbn [bind].
    rewrite (zrange_cons 64 GPU_BLOCK_NUM) by reflexivity; cbn [foldM].
    rewrite (zrange_cons 0 GPU_BLOCK_SIZE) by reflexivity; cbn [foldM].
    destruct (thread_rows_first_32 Hm) as (rest & ->); cbn [foldM].
    rewrite Hneg by reflexivity; reflexivity.
Qed.

End NoRow.

Section NoRowMultiply.
Context {ops : RealOps} {mac : Macros}.

Lemma store_row_negative (k : write_kind) (r : Z) (val : PetscScalar)
  (st : kstate) :
  r < 0 -> store_row k r val st = None.
Proof.
  intros Hr; unfold store_row, store, upd.
  destruct (Z.ltb_spec r 0); [|lia].
  destruct k; reflexivity.
Qed.

(** X2: the multiply of a process that owns no row of [b].  With 64-bit
    indices no thread has a row and the multiply returns with [b] as it
    was.  With 32-bit indices the first thread of block 64 starts at row
    [-2^31], the store of that row is outside [barray], and the multiply
    faults. *)
Theorem multiply_on_process_without_rows (comm : MPI_Comm) (A : Mat)
  (x b : Vec) :
  fst (VecGetOwnershipRange comm (Z.of_nat (length b)))
  = snd (VecGetOwnershipRange comm (Z.of_nat (length b))) ->
  (PETSC_USE_64BIT_INDICES = true ->
   exists tr,
     MatMult_GPU comm A x b
     = Returned 0 (with_ctx A (scatter_to_all (mat_ctx A) x), b) tr)
  /\ (PETSC_USE_64BIT_INDICES = false -> MatMult_GPU comm A x b = Fault).
Proof.
  intros Hown; unfold MatMult_GPU.
  destruct (VecGetOwnershipRange comm (Z.of_nat (length b))) as [rs re].
  destruct (VecGetOwnershipRange comm (Z.of_nat (length x))) as [cs ce].
  cbn [fst snd] in Hown; subst re.
  unfold device_MatMult_local, device_MatMult_global.
  rewrite Z.sub_diag.
  rewrite launch_no_row.
  2:{ intros st r Hr; unfold local_row.
      destruct (foldM _ _ _); cbn [bind];
        [apply store_row_negative; exact Hr | reflexivity]. }
  split; intros Hm; rewrite Hm; [|reflexivity].
  cbn [Z.to_nat repeat].
  destruct (nmasks (mat_ctx A) - nmasks_local (mat_ctx A) >? 0).
  - rewrite launch_no_row.
    2:{ intros st r Hr; unfold global_row.
        destruct (foldM _ _ _); cbn [bind];
          [apply store_row_negative; exact Hr | reflexivity]. }
    rewrite Hm; cbn [app].
    rewrite firstn_skipn; eexists; reflexivity.
  - cbn [app]; rewrite firstn_skipn; eexists; reflexivity.
Qed.

End NoRowMultiply.

(** ** Reads outside the arrays *)

Lemma foldM_None_at {A B : Type} (f : B -> A -> option B) (l : list A)
  (a : A) (b : B) :
  In a l -> (forall b', f b' a = None) -> foldM f l b = None.
Proof.
  revert b; induction l as [|a' l IH]; intros b Hin Hnone; [destruct Hin|].
  cbn [foldM]; destruct Hin as [->|Hin].
  - rewrite Hnone; reflexivity.
  - destruct (f b a') as [b'|]; cbn [bind]; [apply IH; assumption|reflexivity].
Qed.

Lemma rd_None {A : Type} (arr : list A) (i : Z) :
  i < 0 \/ Z.of_nat (length arr) <= i -> rd arr i = None.
Proof.
  intros H; unfold rd; destruct (Z.ltb_spec i 0); [reflexivity|].
  apply nth_error_None; lia.
Qed.

Lemma length_slice {A : Type} (l : list A) (lo hi : Z) :
  Z.of_nat (length (slice l lo hi)) <= Z.max 0 (hi - lo).
Proof.
  unfold slice; rewrite length_firstn; lia.
Qed.

Section Faults.
Context {ops : RealOps} {mac : Macros}.

Lemma local_mask_step_faults (masks mask_offsets signs : list Z)
  (real_coeffs : list PetscReal) (R : subspace) (xarray : list PetscScalar)
  (col_start ket k mask : Z) (val : PetscScalar) :
  rd masks k = Some mask ->
  fst (S2I_CUDA R (Z.lxor ket mask)) <> -1 ->
  rd xarray (fst (S2I_CUDA R (Z.lxor ket mask)) - col_start) = None ->
  local_mask_step masks mask_offsets signs real_coeffs R xarray col_start ket
    val k = None.
Proof.
  intros Hm Hcol Hrd; unfold local_mask_step.
  destruct (term_sum masks mask_offsets signs real_coeffs ket k) as [bt|] eqn:E;
    [|reflexivity].
  cbn [bind].
  destruct (term_sum_bra _ _ _ _ _ _ _ E) as (mask' & Hm' & Hbra).
  assert (mask' = mask) by congruence; subst mask'.
  pose proof (lookup_column_fst R (fst bt) (snd bt)) as Hf.
  destruct (lookup_column R (fst bt) (snd bt)) as [col tmp].
  cbn [fst] in Hf; rewrite Hbra in Hf; subst col.
  destruct (Z.eqb_spec (fst (S2I_CUDA R (Z.lxor ket mask))) (-1));
    [contradiction|].
  rewrite Hrd; reflexivity.
Qed.

Lemma global_mask_step_faults (masks mask_offsets signs : list Z)
  (real_coeffs : list PetscReal) (R : subspace) (x_allarray : list PetscScalar)
  (ket k mask : Z) (val : PetscScalar) :
  rd masks k = Some mask ->
  fst (S2I_CUDA R (Z.lxor ket mask)) <> -1 ->
  rd x_allarray (fst (S2I_CUDA R (Z.lxor ket mask))) = None ->
  global_mask_step masks mask_offsets signs real_coeffs R x_allarray ket
    val k = None.
Proof.
  intros Hm Hcol Hrd; unfold global_mask_step.
  destruct (term_sum masks mask_offsets signs real_coeffs ket k) as [bt|] eqn:E;
    [|reflexivity].
  cbn [bind].
  destruct (term_sum_bra _ _ _ _ _ _ _ E) as (mask' & Hm' & Hbra).
  assert (mask' = mask) by congruence; subst mask'.
  pose proof (lookup_column_fst R (fst bt) (snd bt)) as Hf.
  destruct (lookup_column R (fst bt) (snd bt)) as [col tmp].
  cbn [fst] in Hf; rewrite Hbra in Hf; subst col.
  destruct (Z.eqb_spec (fst (S2I_CUDA R (Z.lxor ket mask))) (-1));
    [contradiction|].
  rewrite Hrd; reflexivity.
Qed.

(** X3: the kernels read [x] without a bounds check.  When a mask of the
    local prefix sends an owned row to a column that is not the sentinel and
    not one of the process's own columns, or a mask after the prefix sends
    it to a column that is not the sentinel and not a cell of [x], the
    multiply faults. *)
Theorem multiply_faults_outside_owned_columns (comm : MPI_Comm) (A : Mat)
  (x b : Vec) (row k mask : Z) :
  1 <= mpi_size comm -> 0 <= mpi_rank comm < mpi_size comm ->
  exact_rows (snd (VecGetOwnershipRange comm (Z.of_nat (length b)))
              - fst (VecGetOwnershipRange comm (Z.of_nat (length b))))
             GPU_BLOCK_NUM GPU_BLOCK_SIZE ->
  fst (VecGetOwnershipRange comm (Z.of_nat (length b))) <= row
    < snd (VecGetOwnershipRange comm (Z.of_nat (length b))) ->
  rd (masks (mat_ctx A)) k = Some mask ->
  fst (S2I_CUDA (right_subspace_data (mat_ctx A))
         (Z.lxor (I2S_CUDA (left_subspace_data (mat_ctx A)) row) mask)) <> -1 ->
  (0 <= k < nmasks_local (mat_ctx A)
   /\ ~ (fst (VecGetOwnershipRange comm (Z.of_nat (length x)))
         <= fst (S2I_CUDA (right_subspace_data (mat_ctx A))
                   (Z.lxor (I2S_CUDA (left_subspace_data (mat_ctx A)) row)
                      mask))
         < snd (VecGetOwnershipRange comm (Z.of_nat (length x)))))
  \/ (0 <= nmasks_local (mat_ctx A) <= k /\ k < nmasks (mat_ctx A)
      /\ ~ (0 <= fst (S2I_CUDA (right_subspace_data (mat_ctx A))
                        (Z.lxor (I2S_CUDA (left_subspace_data (mat_ctx A)) row)
                           mask))
            < Z.of_nat (length x))) ->
  MatMult_GPU comm A x b = Fault.
Proof.
  intros HP Hrank Hex Hrow Hm Hcol Hout; unfold MatMult_GPU.
  destruct comm as [P rank]; cbn [mpi_size mpi_rank] in HP, Hrank.
  pose proof (ownership_bounds P rank (Z.of_nat (length b)) HP Hrank
                ltac:(lia)) as Hrb.
  pose proof (ownership_bounds P rank (Z.of_nat (length x)) HP Hrank
                ltac:(lia)) as Hcb.
  destruct (VecGetOwnershipRange {| mpi_size := P; mpi_rank := rank |}
              (Z.of_nat (length b))) as [rs re].
  destruct (VecGetOwnershipRange {| mpi_size := P; mpi_rank := rank |}
              (Z.of_nat (length x))) as [cs ce].
  cbn [fst snd] in *.
  set (ctx := mat_ctx A) in *.
  assert (Hin : In (row - rs) (all_rows (re - rs) GPU_BLOCK_NUM GPU_BLOCK_SIZE)).
  { apply in_all_rows; try reflexivity; [exact Hex | lia]. }
  destruct Hout as [(Hk & Hown)|(Hnl & Hk & Hown)].
  - unfold device_MatMult_local; rewrite launch_all_rows.
    rewrite (foldM_None_at _ _ (row - rs)); [reflexivity | exact Hin |].
    intros st; unfold local_row.
    replace (row - rs + rs) with row by lia.
    rewrite (foldM_None_at _ _ k); [reflexivity | apply in_zrange; lia |].
    intros val; apply (local_mask_step_faults _ _ _ _ _ _ _ _ _ mask);
      try assumption.
    apply rd_None.
    pose proof (length_slice x cs ce); lia.
  - destruct (device_MatMult_local _ _ _ _ _ _ _ _ _ _ _ _ _ _)
      as [[b1 log1]|]; [|reflexivity].
    destruct (Z.gtb_spec (nmasks ctx - nmasks_local ctx) 0); [|lia].
    cbn [scatter_to_all x_all].
    unfold device_MatMult_global; rewrite launch_all_rows.
    rewrite (foldM_None_at _ _ (row - rs)); [reflexivity | exact Hin |].
    intros st; unfold global_row.
    replace (row - rs + rs) with row by lia.
    rewrite (foldM_None_at _ _ (k - nmasks_local ctx));
      [reflexivity | apply in_zrange; lia |].
    intros val; apply (global_mask_step_faults _ _ _ _ _ _ _ _ mask);
      try assumption.
    + rewrite rd_shift by lia.
      replace (nmasks_local ctx + (k - nmasks_local ctx)) with k by lia.
      exact Hm.
    + apply rd_None; lia.
Qed.

End Faults.

(** ** The processes together *)

Lemma ownership_owner (P N : Z) (n : nat) (row : Z) :
  1 <= P -> 0 <= N -> 0 <= row ->
  row < fst (VecGetOwnershipRange {| mpi_size := P; mpi_rank := Z.of_nat n |} N) ->
  exists rank, 0 <= rank < Z.of_nat n /\
    fst (VecGetOwnershipRange {| mpi_size := P; mpi_rank := rank |} N) <= row
    < snd (VecGetOwnershipRange {| mpi_size := P; mpi_rank := rank |} N).
Proof.
  intros HP HN Hrow; induction n as [|n IH]; intros Hlt.
  - unfold VecGetOwnershipRange in Hlt; cbn [mpi_size mpi_rank fst] in Hlt.
    pose proof (Z.mod_pos_bound N P ltac:(lia)); lia.
  - destruct (Z.ltb_spec row
                (fst (VecGetOwnershipRange
                        {| mpi_size := P; mpi_rank := Z.of_nat n |} N)))
      as [Hl|Hge].
    + destruct (IH Hl) as (rank & Hr & Hin); exists rank; split; [lia|exact Hin].
    + exists (Z.of_nat n); split; [lia|].
      rewrite ownership_next by lia.
      replace (Z.of_nat n + 1) with (Z.of_nat (S n)) by lia; lia.
Qed.

Section AnyRanks.
Context {ops : RealOps} {mac : Macros} {laws : RealLaws ops}.

Lemma BuildContext_CUDA_rank (P rank rank' : Z) (m : msc_t) (Ls Rs : subspace) :
  BuildContext_CUDA {| mpi_size := P; mpi_rank := rank |} m Ls Rs
  = BuildContext_CUDA {| mpi_size := P; mpi_rank := rank' |} m Ls Rs.
Proof. reflexivity. Qed.

Lemma mask_column_ctx_ext (ctx ctx' : shell_context) (row_idx k : Z) :
  masks ctx = masks ctx' -> mask_offsets ctx = mask_offsets ctx' ->
  signs ctx = signs ctx' -> real_coeffs ctx = real_coeffs ctx' ->
  left_subspace_data ctx = left_subspace_data ctx' ->
  right_subspace_data ctx = right_subspace_data ctx' ->
  mask_column ctx row_idx k = mask_column ctx' row_idx k.
Proof.
  destruct ctx, ctx'; cbn [masks mask_offsets signs real_coeffs
                             left_subspace_data right_subspace_data].
  intros -> -> -> -> -> ->; reflexivity.
Qed.

Variables (P : Z) (m : msc_t) (Ls Rs : subspace) (x : Vec)
  (ctx : shell_context) (M : Z).
Hypothesis HP : 1 <= P.
Hypothesis Hwf : wf_msc m.
Hypothesis Ectx :
  BuildContext_CUDA {| mpi_size := P; mpi_rank := 0 |} m Ls Rs = Some ctx.
Hypothesis Hlocal : forall rank row k, 0 <= rank < P ->
  fst (VecGetOwnershipRange {| mpi_size := P; mpi_rank := rank |} M) <= row
    < snd (VecGetOwnershipRange {| mpi_size := P; mpi_rank := rank |} M) ->
  0 <= k < nmasks_local ctx ->
  mask_column ctx row k = -1
  \/ fst (VecGetOwnershipRange {| mpi_size := P; mpi_rank := rank |}
            (Z.of_nat (length x)))
     <= mask_column ctx row k
     < snd (VecGetOwnershipRange {| mpi_size := P; mpi_rank := rank |}
              (Z.of_nat (length x))).
Hypothesis Hrows : forall rank, 0 <= rank < P ->
  exact_rows
    (snd (VecGetOwnershipRange {| mpi_size := P; mpi_rank := rank |} M)
     - fst (VecGetOwnershipRange {| mpi_size := P; mpi_rank := rank |} M))
    GPU_BLOCK_NUM GPU_BLOCK_SIZE.
Hypothesis Hglobal : forall row k, 0 <= row < M ->
  nmasks_local ctx <= k < nmasks ctx ->
  mask_column ctx row k = -1
  \/ 0 <= mask_column ctx row k < Z.of_nat (length x).

Lemma built_local_bounds : 0 <= nmasks_local ctx <= nmasks ctx.
Proof.
  destruct (BuildContext_CUDA_wf _ _ _ _ _ Hwf Ectx) as (Hwfc & _).
  destruct (BuildContext_CUDA_partition _ _ _ _ _ Ectx) as (_ & _ & ->).
  pose proof (prefix_lt_bounds
                (max_msc (L Ls) (mpi_size {| mpi_size := P; mpi_rank := 0 |}))
                (masks ctx)).
  destruct Hwfc as [_ Hm _ _ _]; lia.
Qed.

Lemma multiply_rank_any (rank : Z) (b : Vec) :
  0 <= rank < P -> Z.of_nat (length b) = M ->
  exists barray,
    multiply_rank P m Ls Rs x b rank
    = Some (firstn (Z.to_nat (fst (VecGetOwnershipRange
                                     {| mpi_size := P; mpi_rank := rank |} M)))
              b
            ++ barray
            ++ skipn (Z.to_nat (snd (VecGetOwnershipRange
                                       {| mpi_size := P; mpi_rank := rank |}
                                       M))) b)
    /\ Z.of_nat (length barray)
       = snd (VecGetOwnershipRange {| mpi_size := P; mpi_rank := rank |} M)
         - fst (VecGetOwnershipRange {| mpi_size := P; mpi_rank := rank |} M)
    /\ forall j,
         0 <= j < snd (VecGetOwnershipRange
                         {| mpi_size := P; mpi_rank := rank |} M)
                  - fst (VecGetOwnershipRange
                           {| mpi_size := P; mpi_rank := rank |} M) ->
         nth (Z.to_nat j) barray (cof_int 0)
         = row_times ctx x
             (fst (VecGetOwnershipRange
                     {| mpi_size := P; mpi_rank := rank |} M) + j)
             0 (nmasks ctx).
Proof.
  intros Hrank Hb; unfold multiply_rank, BuildGPUShell.
  rewrite (BuildContext_CUDA_rank P rank 0), Ectx; cbn [bind].
  destruct (BuildContext_CUDA_wf _ _ _ _ _ Hwf Ectx) as (Hwfc & _).
  pose proof (ownership_bounds P rank M HP Hrank ltac:(lia)) as Hrb.
  destruct (MatMult_GPU_any ctx x Hwfc built_local_bounds
              {| mpi_size := P; mpi_rank := rank |}
              {| mat_M := Dim Ls; mat_N := Dim Rs; mat_ctx := ctx |} b)
    as (barray & tr & E & Hlen & Hcells); auto.
  - rewrite Hb; apply Hrows; exact Hrank.
  - rewrite Hb; intros row k Hrow Hk; apply Hlocal; assumption.
  - rewrite Hb; intros row k Hrow Hk; apply Hglobal; [lia | assumption].
  - rewrite E; rewrite Hb in *; exists barray; auto.
Qed.

Lemma multiply_ranks_any (n : nat) :
  forall (a : Z) (b : Vec),
    0 <= a -> a + Z.of_nat n = P -> Z.of_nat (length b) = M ->
    (forall i,
       0 <= i < fst (VecGetOwnershipRange
                       {| mpi_size := P; mpi_rank := a |} M) ->
       nth (Z.to_nat i) b (cof_int 0) = row_times ctx x i 0 (nmasks ctx)) ->
    exists y,
      foldM (multiply_rank P m Ls Rs x) (zrange a P) b = Some y
      /\ Z.of_nat (length y) = M
      /\ forall i, 0 <= i < M ->
           nth (Z.to_nat i) y (cof_int 0) = row_times ctx x i 0 (nmasks ctx).
Proof.
  induction n as [|n IH]; intros a b Ha Hn Hb Hdone.
  - rewrite zrange_nil by lia; exists b; split; [reflexivity|].
    split; [exact Hb|].
    intros i Hi; apply Hdone.
    replace a with P by lia; rewrite ownership_last by lia; lia.
  - rewrite zrange_cons by lia; cbn [foldM].
    destruct (multiply_rank_any a b ltac:(lia) Hb)
      as (barray & -> & Hlen & Hcells); cbn [bind].
    pose proof (ownership_bounds P a M HP ltac:(lia) ltac:(lia)) as Hrb.
    pose proof (ownership_next P a M HP Ha ltac:(lia)) as Hnext.
    set (rs := fst (VecGetOwnershipRange {| mpi_size := P; mpi_rank := a |} M))
      in *.
    set (re := snd (VecGetOwnershipRange {| mpi_size := P; mpi_rank := a |} M))
      in *.
    apply (IH (a + 1)); try lia.
    + destruct (nth_splice b barray rs re 0) as (Hsl & _); lia.
    + intros i Hi; rewrite <- Hnext in Hi.
      destruct (nth_splice b barray rs re i) as (_ & Hlow & Hmid); try lia.
      destruct (Z.ltb_spec i rs) as [Hlt|Hge].
      * rewrite (Hlow Hlt); apply Hdone; lia.
      * rewrite Hmid by lia.
        rewrite Hcells by lia.
        f_equal; lia.
Qed.

End AnyRanks.

Lemma ownership_single (N : Z) :
  VecGetOwnershipRange {| mpi_size := 1; mpi_rank := 0 |} N = (0, N).
Proof.
  unfold VecGetOwnershipRange, PetscSplitOwnership.
  cbn [mpi_size mpi_rank]; rewrite Z.mod_1_r, Z.div_1_r.
  cbn; f_equal; lia.
Qed.

Section AnyProcesses.
Context {ops : RealOps} {mac : Macros} {laws : RealLaws ops}.

(** X4: the multiply on any number of processes and any subspaces.  When
    every mask of the local prefix sends every row of a process to the
    sentinel or to one of the process's own columns, and every other mask
    sends every row to the sentinel or to a cell of [x], the processes
    together give what one process gives: the products of the rows with
    [x], whatever the output vector held. *)
Theorem multiply_when_local_columns_owned (P : Z) (m : msc_t)
  (Ls Rs : subspace) (x b b1 : Vec) (ctx : shell_context) :
  wf_msc m -> 1 <= P ->
  BuildContext_CUDA {| mpi_size := P; mpi_rank := 0 |} m Ls Rs = Some ctx ->
  length b1 = length b ->
  exact_rows (Z.of_nat (length b)) GPU_BLOCK_NUM GPU_BLOCK_SIZE ->
  (forall rank, 0 <= rank < P ->
     exact_rows
       (snd (VecGetOwnershipRange {| mpi_size := P; mpi_rank := rank |}
               (Z.of_nat (length b)))
        - fst (VecGetOwnershipRange {| mpi_size := P; mpi_rank := rank |}
                 (Z.of_nat (length b))))
       GPU_BLOCK_NUM GPU_BLOCK_SIZE) ->
  (forall rank row k, 0 <= rank < P ->
     fst (VecGetOwnershipRange {| mpi_size := P; mpi_rank := rank |}
            (Z.of_nat (length b))) <= row
       < snd (VecGetOwnershipRange {| mpi_size := P; mpi_rank := rank |}
                (Z.of_nat (length b))) ->
     0 <= k < nmasks_local ctx ->
     mask_column ctx row k = -1
     \/ fst (VecGetOwnershipRange {| mpi_size := P; mpi_rank := rank |}
               (Z.of_nat (length x)))
        <= mask_column ctx row k
        < snd (VecGetOwnershipRange {| mpi_size := P; mpi_rank := rank |}
                 (Z.of_nat (length x)))) ->
  (forall row k, 0 <= row < Z.of_nat (length b) ->
     nmasks_local ctx <= k < nmasks ctx ->
     mask_column ctx row k = -1
     \/ 0 <= mask_column ctx row k < Z.of_nat (length x)) ->
  exists y,
    multiply P m Ls Rs x b = Some y
    /\ multiply 1 m Ls Rs x b1 = Some y
    /\ length y = length b
    /\ forall i, 0 <= i < Z.of_nat (length b) ->
         nth (Z.to_nat i) y (cof_int 0) = row_times ctx x i 0 (nmasks ctx).
Proof.
  intros Hwf HP Ectx Hb1 Hex1 HexP Hlocal Hglobal.
  destruct (multiply_ranks_any P m Ls Rs x ctx (Z.of_nat (length b)) HP Hwf
              Ectx Hlocal HexP Hglobal (Z.to_nat P) 0 b)
    as (y & Ey & Hly & Hy); try lia.
  { intros i Hi.
    unfold VecGetOwnershipRange in Hi; cbn [mpi_size mpi_rank fst] in Hi.
    pose proof (Z.mod_pos_bound (Z.of_nat (length b)) P ltac:(lia)); lia. }
  destruct (BuildContext_CUDA_total {| mpi_size := 1; mpi_rank := 0 |} m
              Ls Rs Hwf) as (ctx1 & E1).
  destruct (BuildContext_CUDA_fields _ _ _ _ _ _ _ E1 Ectx)
    as (Hn & H1 & H2 & H3 & H4 & H5 & H6).
  assert (Hcol : forall row k,
             mask_column ctx1 row k = mask_column ctx row k)
    by (intros; apply mask_column_ctx_ext; assumption).
  assert (Hall : forall row k, 0 <= row < Z.of_nat (length b) ->
             0 <= k < nmasks ctx ->
             mask_column ctx row k = -1
             \/ 0 <= mask_column ctx row k < Z.of_nat (length x)).
  { intros row k Hrow Hk.
    destruct (Z.ltb_spec k (nmasks_local ctx)) as [Hl|Hg];
      [|apply Hglobal; lia].
    destruct (ownership_owner P (Z.of_nat (length b)) (Z.to_nat P) row)
      as (rank & Hrank & Hin); try lia.
    { rewrite Z2Nat.id, ownership_last by lia; lia. }
    pose proof (ownership_bounds P rank (Z.of_nat (length x)) HP
                  ltac:(lia) ltac:(lia)).
    destruct (Hlocal rank row k ltac:(lia) Hin ltac:(lia)); [left|right];
      lia. }
  pose proof (built_local_bounds 1 m Ls Rs ctx1 Hwf E1) as Hb1'.
  destruct (multiply_ranks_any 1 m Ls Rs x ctx1 (Z.of_nat (length b))
              ltac:(lia) Hwf E1) with (n := 1%nat) (a := 0) (b := b1)
    as (y1 & Ey1 & Hly1 & Hy1); try lia.
  { intros rank row k Hrank Hrow Hk.
    replace rank with 0 in * by lia.
    rewrite ownership_single in *; cbn [fst snd] in *.
    rewrite Hcol; apply Hall; lia. }
  { intros rank Hrank; replace rank with 0 by lia.
    rewrite ownership_single; cbn [fst snd].
    rewrite Z.sub_0_r; exact Hex1. }
  { intros row k Hrow Hk; rewrite Hcol; apply Hall; lia. }
  { intros i Hi; rewrite ownership_single in Hi; cbn [fst] in Hi; lia. }
  assert (y1 = y).
  { apply (nth_ext _ _ (cof_int 0) (cof_int 0)); [lia|].
    intros n Hlt.
    pose proof (Hy1 (Z.of_nat n) ltac:(lia)) as A1.
    pose proof (Hy (Z.of_nat n) ltac:(lia)) as A2.
    rewrite Nat2Z.id in A1, A2; rewrite A1, A2, Hn.
    apply row_times_ctx_ext; assumption. }
  subst y1; exists y; repeat split; try assumption; lia.
Qed.

End AnyProcesses.

(** ** A bound that does not fit *)

Section Overflow.
Context {ops : RealOps} {mac : Macros}.

Lemma prefix_lt_none (bound : Z) (l : list Z) :
  (forall m, nth_error l 0 = Some m -> bound <= m) -> prefix_lt bound l = 0.
Proof.
  destruct l as [|m l]; [reflexivity|]; intros H; cbn [prefix_lt].
  pose proof (H m eq_refl).
  destruct (Z.ltb_spec m bound); [lia | reflexivity].
Qed.

(** X6: when [2^L / nprocs] is [2^31] or more, [max_msc] is the least
    [int], and a build whose first mask is not below it classifies no mask
    as local: every mask goes to the global kernel. *)
Theorem no_local_mask_when_max_msc_overflows (comm : MPI_Comm) (m : msc_t)
  (Ls Rs : subspace) (ctx : shell_context) :
  2 ^ 31 <= Z.quot (2 ^ L Ls) (mpi_size comm) ->
  (forall mask, nth_error (msc.masks m) 0 = Some mask -> - 2 ^ 31 <= mask) ->
  BuildContext_CUDA comm m Ls Rs = Some ctx ->
  max_msc (L Ls) (mpi_size comm) = - 2 ^ 31 /\ nmasks_local ctx = 0.
Proof.
  intros Hbig Hmask E.
  assert (Hmax : max_msc (L Ls) (mpi_size comm) = - 2 ^ 31).
  { unfold max_msc, double_to_int.
    destruct (Z.ltb_spec (Z.quot (2 ^ L Ls) (mpi_size comm)) (2 ^ 31));
      [lia|].
    rewrite andb_false_r; reflexivity. }
  split; [exact Hmax|].
  destruct (BuildContext_CUDA_partition _ _ _ _ _ E) as (Hn & Hm & ->).
  rewrite Hmax; apply prefix_lt_none.
  intros mask Hnth; apply Hmask.
  rewrite Hm in Hnth.
  destruct (msc.masks m) as [|m0 l]; [destruct (Z.to_nat _); discriminate|].
  destruct (Z.to_nat (msc.nmasks m)); [discriminate | exact Hnth].
Qed.

End Overflow.

(** ** The tree reduction of a block *)

Section Tree.
Context {ops : RealOps} {laws : RealLaws ops}.

Lemma largest_ext (f : Z -> PetscReal) (P Q : Z -> Prop) (v : PetscReal) :
  (forall i, P i <-> Q i) -> largest_of f P v -> largest_of f Q v.
Proof.
  intros H [Hu (i & Hi & E)]; split.
  - intros j Hj; apply Hu, H, Hj.
  - exists i; split; [apply H, Hi | exact E].
Qed.

Lemma largest_rmax (f : Z -> PetscReal) (P Q : Z -> Prop) (v w : PetscReal) :
  largest_of f P v -> largest_of f Q w ->
  largest_of f (fun i => P i \/ Q i) (rmax v w).
Proof.
  intros [Hv (i & Hi & Ev)] [Hw (j & Hj & Ew)]; unfold rmax.
  destruct (rgt v w) eqn:Hgt; split.
  - intros t [Ht|Ht]; [apply Hv, Ht|].
    apply (rle_lt_trans _ w); [apply Hw, Ht | exact Hgt].
  - exists i; auto.
  - intros t [Ht|Ht]; [|apply Hw, Ht].
    apply (rle_trans _ v); [apply Hv, Ht | exact Hgt].
  - exists j; auto.
Qed.

(** A round of stride [i] turns the largest cells of the segments of [i]
    threads into those of the segments of [2 i] threads. *)
Lemma reduce_round_largest (f : Z -> PetscReal) (i n c : Z)
  (tm : list PetscReal) :
  0 < i -> n = 2 * i * c -> Z.of_nat (length tm) = n ->
  (forall t, 0 <= t < n -> Z.rem t i = 0 ->
     largest_of f (fun t' => t <= t' < t + i) (nth (Z.to_nat t) tm (of_int 0))) ->
  exists tm', reduce_round n tm i = Some tm' /\
    Z.of_nat (length tm') = n /\
    forall t, 0 <= t < n -> Z.rem t (2 * i) = 0 ->
      largest_of f (fun t' => t <= t' < t + 2 * i)
              (nth (Z.to_nat t) tm' (of_int 0)).
Proof.
  intros Hi Hn Hlen Hinv; unfold reduce_round.
  assert (Hfit : forall t, 0 <= t < n -> Z.rem t (2 * i) = 0 -> t + i < n).
  { intros t Ht Hr.
    rewrite Z.rem_mod_nonneg in Hr by lia.
    apply Z.mod_divide in Hr; [|lia].
    destruct Hr as [q ->]; subst n.
    assert (q < c) by (apply (Z.mul_lt_mono_pos_r (2 * i)); lia).
    assert (q * (2 * i) <= (c - 1) * (2 * i))
      by (apply Z.mul_le_mono_nonneg_r; lia).
    lia. }
  destruct (reduce_from i n (Z.to_nat n) Hi 0 tm ltac:(lia) ltac:(lia) Hlen)
    as (tm' & E & Hl' & H').
  { intros t Ht; apply Hfit; lia. }
  exists tm'; split; [exact E | split; [exact Hl'|]].
  intros t Ht Hr; rewrite (H' t Ht), Hr.
  destruct (Z.leb_spec 0 t); [|lia]; cbn [andb Z.eqb].
  assert (Hq : exists q, t = q * (2 * i)).
  { rewrite Z.rem_mod_nonneg in Hr by lia.
    apply Z.mod_divide in Hr; [exact Hr | lia]. }
  destruct Hq as [q Hq].
  assert (Hti : Z.rem t i = 0).
  { rewrite Z.rem_mod_nonneg by lia.
    apply Z.mod_divide; [lia|]; exists (q * 2); lia. }
  assert (Htii : Z.rem (t + i) i = 0).
  { rewrite Z.rem_mod_nonneg by lia.
    apply Z.mod_divide; [lia|]; exists (q * 2 + 1); lia. }
  pose proof (Hfit t Ht Hr) as Hlt.
  apply (largest_ext f _ _ _) with (2 := largest_rmax f _ _ _ _
                                           (Hinv t Ht Hti)
                                           (Hinv (t + i) ltac:(lia) Htii)).
  intros t'; lia.
Qed.

Lemma reduce_rounds_largest (f : Z -> PetscReal) (k : nat) (d : nat) :
  forall (j fuel : nat) (tm : list PetscReal),
    (j + d = k)%nat -> (d <= fuel)%nat ->
    Z.of_nat (length tm) = 2 ^ Z.of_nat k ->
    (forall t, 0 <= t < 2 ^ Z.of_nat k -> Z.rem t (2 ^ Z.of_nat j) = 0 ->
       largest_of f (fun t' => t <= t' < t + 2 ^ Z.of_nat j)
               (nth (Z.to_nat t) tm (of_int 0))) ->
    exists tm',
      foldM (reduce_round (2 ^ Z.of_nat k))
        (zdoubling fuel (2 ^ Z.of_nat j) (2 ^ Z.of_nat k)) tm = Some tm'
      /\ Z.of_nat (length tm') = 2 ^ Z.of_nat k
      /\ largest_of f (fun t' => 0 <= t' < 2 ^ Z.of_nat k)
                 (nth 0 tm' (of_int 0)).
Proof.
  induction d as [|d IH]; intros j fuel tm Hj Hfuel Hlen Hinv.
  - assert (j = k) by lia; subst j.
    assert (Hnil : zdoubling fuel (2 ^ Z.of_nat k) (2 ^ Z.of_nat k) = []).
    { destruct fuel; [reflexivity|]; cbn [zdoubling].
      rewrite Z.ltb_irrefl; reflexivity. }
    rewrite Hnil; exists tm; split; [reflexivity | split; [exact Hlen|]].
    assert (Hp : 0 < 2 ^ Z.of_nat k) by (apply Z.pow_pos_nonneg; lia).
    apply (largest_ext f _ _ _) with (2 := Hinv 0 ltac:(lia)
                                             (Z.rem_0_l (2 ^ Z.of_nat k) ltac:(lia))).
    intros t'; lia.
  - destruct fuel as [|fuel]; [lia|].
    assert (Hpj : 0 < 2 ^ Z.of_nat j) by (apply Z.pow_pos_nonneg; lia).
    assert (Hpow : 2 ^ Z.of_nat k
                   = 2 * 2 ^ Z.of_nat j * 2 ^ Z.of_nat d).
    { replace (Z.of_nat k) with (1 + Z.of_nat j + Z.of_nat d) by lia.
      rewrite !Z.pow_add_r by lia; reflexivity. }
    assert (Hpd : 0 < 2 ^ Z.of_nat d) by (apply Z.pow_pos_nonneg; lia).
    cbn [zdoubling].
    destruct (Z.ltb_spec (2 ^ Z.of_nat j) (2 ^ Z.of_nat k)); [|nia].
    cbn [foldM].
    destruct (reduce_round_largest f (2 ^ Z.of_nat j) (2 ^ Z.of_nat k)
                (2 ^ Z.of_nat d) tm Hpj Hpow Hlen Hinv)
      as (tm1 & -> & Hl1 & Hinv1); cbn [bind].
    replace (2 * 2 ^ Z.of_nat j) with (2 ^ Z.of_nat (S j)) in *
      by (rewrite Nat2Z.inj_succ, Z.pow_succ_r by lia; reflexivity).
    apply (IH (S j) fuel tm1); try lia; assumption.
Qed.

(** X7: the reduction of lines 567-574 on a block of [2^k] threads reads
    and writes inside the shared array and leaves in cell 0 the largest of
    the cells: no cell is greater, and it is one of them. *)
Theorem tree_reduction_leaves_largest (k : nat) (threadmax : list PetscReal) :
  Z.of_nat (length threadmax) = 2 ^ Z.of_nat k ->
  exists threadmax',
    foldM (reduce_round (2 ^ Z.of_nat k))
      (zdoubling (Z.to_nat (2 ^ Z.of_nat k)) 1 (2 ^ Z.of_nat k)) threadmax
    = Some threadmax'
    /\ (forall t, 0 <= t < 2 ^ Z.of_nat k ->
          rgt (nth (Z.to_nat t) threadmax (of_int 0))
              (nth 0 threadmax' (of_int 0)) = false)
    /\ exists t, 0 <= t < 2 ^ Z.of_nat k /\
         nth 0 threadmax' (of_int 0) = nth (Z.to_nat t) threadmax (of_int 0).
Proof.
  intros Hlen.
  assert (Hfuel : (k <= Z.to_nat (2 ^ Z.of_nat k))%nat).
  { pose proof (Z.pow_gt_lin_r 2 (Z.of_nat k) ltac:(lia) ltac:(lia)); lia. }
  destruct (reduce_rounds_largest
              (fun t => nth (Z.to_nat t) threadmax (of_int 0)) k k 0%nat
              (Z.to_nat (2 ^ Z.of_nat k)) threadmax ltac:(lia) Hfuel Hlen)
    as (tm' & E & _ & Hu & t & Ht & Et).
  { intros t Ht _; split.
    - intros t' Ht'; replace t' with t by (simpl in Ht'; lia).
      apply rgt_irrefl.
    - exists t; split; [simpl; lia | reflexivity]. }
  exists tm'; split; [exact E | split].
  - intros t0 Ht0; apply Hu; exact Ht0.
  - exists t; auto.
Qed.

End Tree.

(** ** The norm on every process *)

Section NormAnywhere.
Context {ops : RealOps} {mac : Macros}.

(** What a build leaves in the context, field by field. *)
Lemma BuildContext_CUDA_Some (comm : MPI_Comm) (m : msc_t) (Ls Rs : subspace)
  (ctx : shell_context) :
  BuildContext_CUDA comm m Ls Rs = Some ctx ->
  exists nterms coeffs,
    rd (msc.mask_offsets m) (msc.nmasks m) = Some nterms
    /\ build_real_coeffs (msc.coeffs m) nterms = Some coeffs
    /\ 0 <= msc.nmasks m <= Z.of_nat (length (msc.masks m))
    /\ msc.nmasks m + 1 <= Z.of_nat (length (msc.mask_offsets m))
    /\ 0 <= nterms <= Z.of_nat (length (msc.signs m))
    /\ nmasks ctx = msc.nmasks m
    /\ masks ctx = firstn (Z.to_nat (msc.nmasks m)) (msc.masks m)
    /\ mask_offsets ctx
       = firstn (Z.to_nat (msc.nmasks m + 1)) (msc.mask_offsets m)
    /\ signs ctx = firstn (Z.to_nat nterms) (msc.signs m)
    /\ real_coeffs ctx = coeffs
    /\ left_subspace_data ctx = Ls /\ right_subspace_data ctx = Rs
    /\ nrm ctx = of_int (-1) /\ sc_ctx ctx = None.
Proof.
  unfold BuildContext_CUDA; intros E.
  apply bind_Some in E as (nterms & Ent & E).
  apply bind_Some in E as (nl & _ & E).
  apply bind_Some in E as (dm & Edm & E).
  apply bind_Some in E as (dof & Edo & E).
  apply bind_Some in E as (ds & Eds & E).
  apply bind_Some in E as (rc & Erc & E).
  apply cudaMemcpy_Some in Edm as [Hm ->].
  apply cudaMemcpy_Some in Edo as [Ho ->].
  apply cudaMemcpy_Some in Eds as [Hs ->].
  injection E as <-; cbn.
  exists nterms, rc; repeat split; try reflexivity; try assumption; try lia.
Qed.

(** X8: the norm of a built operator depends on the term encoding and on
    the left subspace only: two builds that differ in the process, the
    number of processes or the right subspace return the same error code,
    the same value and the same trace, or fault both. *)
Theorem norm_same_on_every_process (comm comm' : MPI_Comm) (m : msc_t)
  (Ls Rs Rs' : subspace) (A A' : Mat) (nrm_out : PetscReal) :
  BuildGPUShell comm m Ls Rs = Some A ->
  BuildGPUShell comm' m Ls Rs' = Some A' ->
  match MatNorm_GPU A NORM_INFINITY nrm_out,
        MatNorm_GPU A' NORM_INFINITY nrm_out with
  | Returned e (_, v) tr, Returned e' (_, v') tr' =>
      e = e' /\ v = v' /\ tr = tr'
  | Fault, Fault => True
  | _, _ => False
  end.
Proof.
  unfold BuildGPUShell; intros E E'.
  apply bind_Some in E as (ctx & Ec & E); injection E as <-.
  apply bind_Some in E' as (ctx' & Ec' & E'); injection E' as <-.
  destruct (BuildContext_CUDA_Some _ _ _ _ _ Ec)
    as (nt & rc & Ent & Erc & _ & _ & _ & Hn & Hm & Ho & Hs & Hc & HL & _
        & Hnrm & _).
  destruct (BuildContext_CUDA_Some _ _ _ _ _ Ec')
    as (nt' & rc' & Ent' & Erc' & _ & _ & _ & Hn' & Hm' & Ho' & Hs' & Hc'
        & HL' & _ & Hnrm' & _).
  assert (Hnt : nt' = nt) by congruence; rewrite Hnt in *.
  assert (Hrc : rc' = rc) by congruence; rewrite Hrc in *.
  unfold MatNorm_GPU; cbn [NormType_eqb negb mat_ctx mat_M].
  rewrite Hnrm, Hnrm'.
  destruct (rne (of_int (-1)) (of_int (-1))); [auto|].
  unfold device_MatNorm.
  rewrite Hn, Hm, Ho, Hs, Hc, HL, Hn', Hm', Ho', Hs', Hc', HL'.
  destruct (bind _ _); auto.
Qed.

End NormAnywhere.

Section FullNorm.
Context {ops : RealOps} {mac : Macros} {laws : RealLaws ops}.

(** X9: with [Full] subspaces on [L] spins and distinct masks over these
    spins, the first norm of a built operator returns the largest absolute
    row sum of the dense materialization and caches it. *)
Theorem norm_on_Full_is_dense_norm (comm : MPI_Comm) (m : msc_t) (L : Z)
  (A : Mat) (nrm_out : PetscReal) :
  wf_msc m -> 0 <= L ->
  exact_rows (2 ^ L) GPU_BLOCK_NUM GPU_BLOCK_SIZE ->
  NoDup (firstn (Z.to_nat (msc.nmasks m)) (msc.masks m)) ->
  (forall k, 0 <= k < msc.nmasks m ->
     0 <= nth (Z.to_nat k) (msc.masks m) 0 < 2 ^ L) ->
  BuildGPUShell comm m (Full L) (Full L) = Some A ->
  MatNorm_GPU A NORM_INFINITY nrm_out
  = Returned 0
      (with_ctx A (with_nrm (mat_ctx A) (dense_norm_infinity (mat_ctx A))),
       dense_norm_infinity (mat_ctx A))
      [EvCacheRead; EvLaunchNorm (nmasks (mat_ctx A)); EvCacheWrite].
Proof.
  intros Hwf HL Hex Hnd Hmasks E; unfold BuildGPUShell in E.
  apply bind_Some in E as (ctx & Ec & E); injection E as <-.
  destruct (BuildContext_CUDA_wf _ _ _ _ _ Hwf Ec) as (Hwfc & Hnrm & Hl & Hr).
  destruct (BuildContext_CUDA_partition _ _ _ _ _ Ec) as (Hn & Hm & _).
  cbn [mat_ctx].
  destruct (MatNorm_GPU_first
              {| mat_M := Dim (Full L); mat_N := Dim (Full L);
                 mat_ctx := ctx |} nrm_out Hwfc Hnrm)
    as (v & Ev & Hv).
  { cbn [mat_M Full Dim]; exact Hex. }
  assert (Hcd : columns_distinct ctx).
  { apply (Full_columns_distinct L ctx HL Hl Hr).
    - destruct Hwfc as [_ H _ _ _]; exact H.
    - rewrite Hm; exact Hnd.
    - intros k Hk; rewrite Hm, nth_firstn_lt by lia.
      apply Hmasks; lia. }
  pose proof (dense_norm_tops ctx Hcd) as Hd.
  rewrite Hl in Hd; cbn [mat_M mat_ctx] in Hv.
  rewrite (tops_unique _ _ _ _ Hd Hv); exact Ev.
Qed.

End FullNorm.

(** ** Destruction *)

Section DestroyProps.
Context {ops : RealOps} {mac : Macros}.


End DestroyProps.

(** ** Concrete runs *)

Lemma ZReal_laws : RealLaws ZReal.
Proof.
  constructor; simpl; intros;
    repeat match goal with
           | H : context [_ >? _] |- _ => rewrite Z.gtb_ltb in H
           | |- context [_ >? _] => rewrite Z.gtb_ltb
           end;
    try reflexivity; try lia.
  pose proof (Z.sqrt_nonneg (a * a + b * b)); lia.
Qed.

Lemma ising_wf : @wf_msc ZReal Examples.ising.
Proof.
  constructor; simpl; try lia.
  intros k Hk.
  assert (Hin : In k (zrange 0 6)) by (apply in_zrange; lia).
  vm_compute in Hin.
  repeat (destruct Hin as [<-|Hin]; [vm_compute; split; discriminate|]).
  destruct Hin.
Qed.

Lemma MatNorm_GPU_unsupported_type_witness :
  NORM_2 <> NORM_INFINITY /\
  @MatNorm_GPU ZReal Build32 Examples.ising_mat NORM_2 0
  = Returned PETSC_ERR_ARG_OUTOFRANGE (Examples.ising_mat, 0) [].
Proof.
  split; [discriminate|].
  apply (@MatNorm_GPU_unsupported_type ZReal Build32 Examples.ising_mat
           NORM_2 0).
  discriminate.
Defined.


Lemma lookup_miss_is_skipped_witness :
  @local_mask_step ZReal Build32 [0; 1] [0; 1; 2] [1; 0] [2; 1]
    (Explicit 1 [0]) [Examples.zc 9] 0 0 (Examples.zc 4) 1
  = Some (Examples.zc 4).
Proof.
  apply (proj1 (@lookup_miss_is_skipped ZReal Build32 [0; 1] [0; 1; 2]
                  [1; 0] [2; 1] (Explicit 1 [0]) [Examples.zc 9]
                  [Examples.zc 9] 0 0 1 (1, Examples.zc 1)
                  eq_refl eq_refl)).
Defined.





(** C1: [sigma^x] on the third of four spins, [Full] subspaces: one process
    and two processes give the same vector; with three processes the
    process of rank 0 reads outside its cells of [x] in the local kernel and
    the multiply faults.  With an [Explicit] subspace two processes are
    enough for that. *)
Theorem multiply_on_three_processes :
  @multiply ZReal Build32 1 Examples.flip2 (Full 4) (Full 4)
    Examples.x16 Examples.b16 = Some Examples.y16
  /\ @multiply ZReal Build32 2 Examples.flip2 (Full 4) (Full 4)
       Examples.x16 Examples.b16 = Some Examples.y16
  /\ @multiply ZReal Build32 3 Examples.flip2 (Full 4) (Full 4)
       Examples.x16 Examples.b16 = None
  /\ @multiply ZReal Build32 1 Examples.flip0 (Explicit 2 [0; 3; 1; 2])
       (Explicit 2 [0; 3; 1; 2]) Examples.x4 Examples.b4
     = Some (map Examples.zc [3; 4; 1; 2])
  /\ @multiply ZReal Build32 2 Examples.flip0 (Explicit 2 [0; 3; 1; 2])
       (Explicit 2 [0; 3; 1; 2]) Examples.x4 Examples.b4 = None.
Proof.
  repeat split; vm_compute; reflexivity.
Qed.

(** C10: two runs in which a mask of the local prefix sends an owned row to a
    column that is not the sentinel and not in the owned column range, so
    that the local kernel reads outside [xarray]: three processes with
    [Full] subspaces (rank 0 owns columns 0 to 5 and row 2 needs column 6),
    and two processes with an [Explicit] subspace (rank 0 owns columns 0 and
    1 and row 0 needs column 2). *)
Theorem local_read_outside_owned_columns :
  (exists A,
      @BuildGPUShell ZReal Examples.comm3_0 Examples.flip2 (Full 4) (Full 4)
      = Some A
      /\ nmasks_local (mat_ctx A) = 1
      /\ nth 0 (masks (mat_ctx A)) 0 < max_msc 4 3
      /\ VecGetOwnershipRange Examples.comm3_0 16 = (0, 6)
      /\ fst (S2I_CUDA (Full 4) (Z.lxor (I2S_CUDA (Full 4) 2)
                                   (nth 0 (masks (mat_ctx A)) 0))) = 6
      /\ @MatMult_GPU ZReal Build32 Examples.comm3_0 A Examples.x16
           Examples.b16 = Fault)
  /\
  (exists A,
      @BuildGPUShell ZReal Examples.comm2_0 Examples.flip0 (Explicit 2 [0; 3; 1; 2])
        (Explicit 2 [0; 3; 1; 2]) = Some A
      /\ nmasks_local (mat_ctx A) = 1
      /\ nth 0 (masks (mat_ctx A)) 0 < max_msc 2 2
      /\ VecGetOwnershipRange Examples.comm2_0 4 = (0, 2)
      /\ fst (S2I_CUDA (Explicit 2 [0; 3; 1; 2])
                (Z.lxor (I2S_CUDA (Explicit 2 [0; 3; 1; 2]) 0)
                   (nth 0 (masks (mat_ctx A)) 0))) = 2
      /\ @MatMult_GPU ZReal Build32 Examples.comm2_0 A Examples.x4 Examples.b4 = Fault).
Proof.
  split; eexists; (split; [vm_compute; reflexivity|]);
    repeat split; vm_compute; reflexivity.
Qed.

Lemma ising_columns_distinct :
  @columns_distinct ZReal Build32 Examples.ising_ctx.
Proof.
  split; [discriminate|].
  intros row Hrow.
  assert (Hin : In row (zrange 0 16)) by (apply in_zrange; exact Hrow).
  vm_compute in Hin.
  repeat (destruct Hin as [<-|Hin];
          [split;
           [intros k Hk;
            assert (Hk' : In k (zrange 0 5)) by (apply in_zrange; exact Hk);
            vm_compute in Hk';
            repeat (destruct Hk' as [<-|Hk'];
                    [vm_compute; split; congruence|]);
            destruct Hk'
           |intros j k Hj Hk;
            assert (Hj' : In j (zrange 0 5)) by (apply in_zrange; exact Hj);
            assert (Hk' : In k (zrange 0 5)) by (apply in_zrange; exact Hk);
            vm_compute in Hj'; vm_compute in Hk';
            repeat (destruct Hj' as [<-|Hj'];
                    [repeat (destruct Hk' as [<-|Hk'];
                             [vm_compute; congruence|]);
                     destruct Hk'|]);
            destruct Hj']|]).
  destruct Hin.
Qed.

(** C2, as the claim has it: for [2 sigma^z + sigma^x] on one spin, from the
    [Full] subspace on the left to the [Explicit] subspace of the state [0]
    on the right, the norm is 3, while the dense materialization is the
    column (2, 1), which the multiply of the unit vector confirms, with
    largest absolute row sum 2. *)
Lemma norm_dense_counterexample :
  @BuildGPUShell ZReal Examples.comm1 Examples.zx (Full 1) (Explicit 1 [0])
  = Some Examples.zx_mat
  /\ @MatNorm_GPU ZReal Build32 Examples.zx_mat NORM_INFINITY 0
     = Returned 0 (with_ctx Examples.zx_mat (with_nrm Examples.zx_ctx 3), 3)
         [EvCacheRead; EvLaunchNorm 2; EvCacheWrite]
  /\ @dense_norm_infinity ZReal Build32 Examples.zx_ctx = 2
  /\ @multiply ZReal Build32 1 Examples.zx (Full 1) (Explicit 1 [0])
       [Examples.zc 1] [Examples.zc 0; Examples.zc 0]
     = Some [Examples.zc 2; Examples.zc 1]
  /\ ~ (forall v A',
          @MatNorm_GPU ZReal Build32 Examples.zx_mat NORM_INFINITY 0
          = Returned 0 (A', v) [EvCacheRead; EvLaunchNorm 2; EvCacheWrite] ->
          v = @dense_norm_infinity ZReal Build32 Examples.zx_ctx).
Proof.
  assert (E : @MatNorm_GPU ZReal Build32 Examples.zx_mat NORM_INFINITY 0
              = Returned 0 (with_ctx Examples.zx_mat (with_nrm Examples.zx_ctx 3), 3)
                  [EvCacheRead; EvLaunchNorm 2; EvCacheWrite])
    by (vm_compute; reflexivity).
  split; [vm_compute; reflexivity|].
  split; [exact E|].
  split; [vm_compute; reflexivity|].
  split; [vm_compute; reflexivity|].
  intros H; specialize (H _ _ E); vm_compute in H; discriminate.
Qed.

Lemma norm_infinity_is_largest_row_sum_witness :
  exists v,
    @MatNorm_GPU ZReal Build32 Examples.ising_mat NORM_INFINITY 0
    = Returned 0
        (with_ctx Examples.ising_mat (with_nrm Examples.ising_ctx v), v)
        [EvCacheRead; EvLaunchNorm 5; EvCacheWrite]
    /\ v = @dense_norm_infinity ZReal Build32 Examples.ising_ctx.
Proof.
  destruct (@norm_infinity_is_largest_row_sum ZReal Build32 ZReal_laws
              Examples.comm1 Examples.ising (Full 4) (Full 4)
              Examples.ising_mat 0 ising_wf
              ltac:(vm_compute; split; [reflexivity | intro; discriminate])
              eq_refl)
    as (v & E & _ & _ & _ & Hd).
  exists v; split; [exact E | exact (Hd ising_columns_distinct)].
Defined.

Lemma multiply_and_norm_repeat_witness :
  @nrm ZReal (mat_ctx Examples.ising_mat) = -1
  /\ (exists A1 b1 tr tr',
        @MatMult_GPU ZReal Build32 Examples.comm1 Examples.ising_mat
          Examples.x16 Examples.b16 = Returned 0 (A1, b1) tr
        /\ @MatMult_GPU ZReal Build32 Examples.comm1 A1 Examples.x16
             (repeat (Examples.zc 9) 16) = Returned 0 (A1, b1) tr')
  /\ exists v,
       @MatNorm_GPU ZReal Build32 Examples.ising_mat NORM_INFINITY 0
       = Returned 0
           (with_ctx Examples.ising_mat (with_nrm Examples.ising_ctx v), v)
           [EvCacheRead; EvLaunchNorm 5; EvCacheWrite]
       /\ @MatNorm_GPU ZReal Build32
            (with_ctx Examples.ising_mat (with_nrm Examples.ising_ctx v))
            NORM_INFINITY 0
          = Returned 0
              (with_ctx Examples.ising_mat (with_nrm Examples.ising_ctx v), v)
              [EvCacheRead].
Proof.
  destruct (@multiply_and_norm_repeat ZReal Build32 ZReal_laws
              Examples.comm1 Examples.ising (Full 4) (Full 4)
              Examples.ising_mat 0 ising_wf
              ltac:(vm_compute; split; [reflexivity | intro; discriminate])
              eq_refl)
    as (Hn & Hmul & v & E & Hagain).
  split; [exact Hn | split].
  - assert (E0 : exists A1 b1 tr,
               @MatMult_GPU ZReal Build32 Examples.comm1 Examples.ising_mat
                 Examples.x16 Examples.b16 = Returned 0 (A1, b1) tr)
      by (eexists; eexists; eexists; vm_compute; reflexivity).
    destruct E0 as (A1 & b1 & tr & E0).
    destruct (Hmul _ _ _ _ _ _ _ E0) as (_ & barray & Hb1 & Hre).
    destruct (Hre (repeat (Examples.zc 9) 16) eq_refl) as (tr' & E2).
    exists A1, b1, tr, tr'; split; [exact E0|].
    rewrite E2, Hb1; reflexivity.
  - exists v; split; [exact E|].
    apply (Hagain (with_ctx Examples.ising_mat (with_nrm Examples.ising_ctx v))
             0 eq_refl).
Defined.

(** The Ising operator of the examples on one process and on two. *)
Lemma multiply_on_power_of_two_ising :
  exists y,
    @multiply ZReal Build32 1 Examples.ising (Full 4) (Full 4)
      Examples.x16 Examples.b16 = Some y
    /\ @multiply ZReal Build32 (2 ^ 1) Examples.ising (Full 4) (Full 4)
         Examples.x16 Examples.b16 = Some y.
Proof.
  destruct (@multiply_on_power_of_two ZReal Build32 ZReal_laws
              Examples.ising 4 1 Examples.x16 Examples.b16 Examples.b16
              ising_wf) as (ctx & y & _ & E1 & E2 & _);
    try reflexivity; try lia.
  - intros k Hk.
    assert (Hin : In k (zrange 0 5)) by (apply in_zrange; exact Hk).
    vm_compute in Hin.
    repeat (destruct Hin as [<-|Hin]; [vm_compute; split; congruence|]).
    destruct Hin.
  - vm_compute; split; [reflexivity | intro; discriminate].
  - exists y; split; assumption.
Defined.

(** The scenario of the specification, scaled by two: the Ising operator
    applied to the all-up state has 6 at index 0, from the three
    [sigma^z sigma^z] terms, 1 at the four states with one spin flipped, and
    0 elsewhere. *)
Example ising_on_all_up :
  @multiply ZReal Build32 1 Examples.ising (Full 4) (Full 4)
    Examples.e0 Examples.b16
  = Some (map Examples.zc [6; 1; 1; 0; 1; 0; 0; 0; 1; 0; 0; 0; 0; 0; 0; 0]).
Proof. vm_compute; reflexivity. Qed.

(** Runs of the further properties. *)

Lemma grid_visits_each_row_once_witness :
  exists blockIdx threadIdx,
    In 300 (@thread_rows Build32 1000 GPU_BLOCK_NUM GPU_BLOCK_SIZE
              blockIdx threadIdx).
Proof.
  destruct (@grid_visits_each_row_once Build32 1000 GPU_BLOCK_NUM
              GPU_BLOCK_SIZE ltac:(reflexivity) ltac:(reflexivity)
              ltac:(vm_compute; split; [reflexivity | intro; discriminate]))
    as (Hcover & _).
  destruct (Hcover 300 ltac:(lia)) as (b & t & _ & _ & Hin & _).
  exists b, t; exact Hin.
Defined.

Lemma multiply_on_process_without_rows_witness :
  @MatMult_GPU ZReal Build32 {| mpi_size := 3; mpi_rank := 2 |}
    Examples.zx_mat [Examples.zc 1; Examples.zc 2]
    [Examples.zc 7; Examples.zc 7] = Fault.
Proof.
  apply (@multiply_on_process_without_rows ZReal Build32
           {| mpi_size := 3; mpi_rank := 2 |} Examples.zx_mat
           [Examples.zc 1; Examples.zc 2] [Examples.zc 7; Examples.zc 7]);
    reflexivity.
Defined.

Lemma multiply_faults_outside_owned_columns_witness :
  @MatMult_GPU ZReal Build32 Examples.comm3_0
    {| mat_M := 16; mat_N := 16;
       mat_ctx := @Build_shell_context ZReal 1 1 [4] [0; 1] [0] [1]
                    (Full 4) (Full 4) (-1) None [] |}
    Examples.x16 Examples.b16 = Fault.
Proof.
  apply (@multiply_faults_outside_owned_columns ZReal Build32
           Examples.comm3_0
           {| mat_M := 16; mat_N := 16;
              mat_ctx := @Build_shell_context ZReal 1 1 [4] [0; 1] [0] [1]
                           (Full 4) (Full 4) (-1) None [] |}
           Examples.x16 Examples.b16 2 0 4).
  - vm_compute; intro; discriminate.
  - vm_compute; split; [intro; discriminate | reflexivity].
  - vm_compute; split; [reflexivity | intro; discriminate].
  - vm_compute; split; [intro; discriminate | reflexivity].
  - reflexivity.
  - vm_compute; intro; discriminate.
  - left; split.
    + vm_compute; split; [intro; discriminate | reflexivity].
    + vm_compute; intros [_ H]; discriminate.
Defined.

Lemma multiply_when_local_columns_owned_witness :
  exists y,
    @multiply ZReal Build32 2 Examples.ising (Full 4) (Full 4)
      Examples.x16 Examples.b16 = Some y
    /\ @multiply ZReal Build32 1 Examples.ising (Full 4) (Full 4)
         Examples.x16 Examples.b16 = Some y
    /\ nth 0 y (Examples.zc 0)
       = @row_times ZReal Build32 Examples.ising_ctx2 Examples.x16 0 0 5.
Proof.
  assert (Hr0 : VecGetOwnershipRange {| mpi_size := 2; mpi_rank := 0 |} 16
                = (0, 8)) by (vm_compute; reflexivity).
  assert (Hr1 : VecGetOwnershipRange {| mpi_size := 2; mpi_rank := 1 |} 16
                = (8, 16)) by (vm_compute; reflexivity).
  destruct (@multiply_when_local_columns_owned ZReal Build32 ZReal_laws 2
              Examples.ising (Full 4) (Full 4) Examples.x16 Examples.b16
              Examples.b16 Examples.ising_ctx2 ising_wf)
    as (y & E2 & E1 & _ & Hy).
  - vm_compute; intro; discriminate.
  - vm_compute; reflexivity.
  - reflexivity.
  - vm_compute; split; [reflexivity | intro; discriminate].
  - intros rank Hrank.
    change (Z.of_nat (length Examples.b16)) with 16.
    assert (Hin : In rank (zrange 0 2)) by (apply in_zrange; exact Hrank).
    vm_compute in Hin.
    destruct Hin as [<-|[<-|[]]];
      vm_compute; split; [reflexivity | intro; discriminate
                         | reflexivity | intro; discriminate].
  - intros rank row k Hrank Hrow Hk.
    change (Z.of_nat (length Examples.b16)) with 16 in Hrow.
    change (Z.of_nat (length Examples.x16)) with 16.
    change (nmasks_local Examples.ising_ctx2) with 4 in Hk.
    assert (Hik : In k (zrange 0 4)) by (apply in_zrange; exact Hk).
    assert (Hin : In rank (zrange 0 2)) by (apply in_zrange; exact Hrank).
    vm_compute in Hin; vm_compute in Hik.
    destruct Hin as [<-|[<-|[]]].
    + rewrite Hr0 in *; cbn [fst snd] in *.
      assert (Hir : In row (zrange 0 8)) by (apply in_zrange; exact Hrow).
      vm_compute in Hir.
      repeat (destruct Hir as [<-|Hir];
              [repeat (destruct Hik as [<-|Hik];
                       [right; vm_compute;
                        split; [intro; discriminate | reflexivity]|]);
               destruct Hik|]).
      destruct Hir.
    + rewrite Hr1 in *; cbn [fst snd] in *.
      assert (Hir : In row (zrange 8 16)) by (apply in_zrange; exact Hrow).
      vm_compute in Hir.
      repeat (destruct Hir as [<-|Hir];
              [repeat (destruct Hik as [<-|Hik];
                       [right; vm_compute;
                        split; [intro; discriminate | reflexivity]|]);
               destruct Hik|]).
      destruct Hir.
  - intros row k Hrow Hk.
    change (Z.of_nat (length Examples.b16)) with 16 in Hrow.
    change (Z.of_nat (length Examples.x16)) with 16.
    change (nmasks_local Examples.ising_ctx2) with 4 in Hk.
    change (nmasks Examples.ising_ctx2) with 5 in Hk.
    assert (Hir : In row (zrange 0 16)) by (apply in_zrange; exact Hrow).
    assert (k = 4) by lia; subst k.
    vm_compute in Hir.
    repeat (destruct Hir as [<-|Hir];
            [right; vm_compute;
             split; [intro; discriminate | reflexivity]|]).
    destruct Hir.
  - exists y; split; [exact E2 | split; [exact E1|]].
    exact (Hy 0 ltac:(vm_compute; split; [intro; discriminate | reflexivity])).
Defined.

Lemma no_local_mask_when_max_msc_overflows_witness :
  exists ctx,
    @BuildContext_CUDA ZReal Examples.comm1 Examples.zx (Full 31) (Full 31)
    = Some ctx
    /\ nmasks ctx = 2 /\ nmasks_local ctx = 0.
Proof.
  assert (E : exists ctx,
             @BuildContext_CUDA ZReal Examples.comm1 Examples.zx (Full 31)
               (Full 31) = Some ctx /\ nmasks ctx = 2)
    by (eexists; split;
        [unfold BuildContext_CUDA; cbn; reflexivity | reflexivity]).
  destruct E as (ctx & E & Hn).
  exists ctx; split; [exact E | split; [exact Hn|]].
  apply (@no_local_mask_when_max_msc_overflows ZReal Examples.comm1
           Examples.zx (Full 31) (Full 31) ctx).
  - vm_compute; intro; discriminate.
  - intros mask Hm; vm_compute in Hm; injection Hm as <-.
    vm_compute; intro; discriminate.
  - exact E.
Defined.

Lemma tree_reduction_leaves_largest_witness :
  exists threadmax',
    foldM (@reduce_round ZReal 4) (zdoubling 4 1 4) [3; 1; 4; 1]
    = Some threadmax'
    /\ nth 0 threadmax' 0 = 4.
Proof.
  destruct (@tree_reduction_leaves_largest ZReal ZReal_laws 2 [3; 1; 4; 1]
              eq_refl) as (tm' & E & Hu & t & Ht & Et).
  exists tm'; split; [exact E|].
  change (zdoubling (Z.to_nat (2 ^ Z.of_nat 2)) 1 (2 ^ Z.of_nat 2))
    with [1; 2] in E.
  vm_compute in E; injection E as <-; reflexivity.
Defined.

Lemma norm_same_on_every_process_witness :
  exists A A',
    @BuildGPUShell ZReal Examples.comm1 Examples.ising (Full 4) (Full 4)
    = Some A
    /\ @BuildGPUShell ZReal Examples.comm3_0 Examples.ising (Full 4)
         (Explicit 4 [0]) = Some A'
    /\ match @MatNorm_GPU ZReal Build32 A NORM_INFINITY 0,
             @MatNorm_GPU ZReal Build32 A' NORM_INFINITY 0 with
       | Returned e (_, v) tr, Returned e' (_, v') tr' =>
           e = e' /\ v = v' /\ tr = tr'
       | Fault, Fault => True
       | _, _ => False
       end.
Proof.
  eexists; eexists; split; [vm_compute; reflexivity|].
  split; [vm_compute; reflexivity|].
  apply (@norm_same_on_every_process ZReal Build32 Examples.comm1
           Examples.comm3_0 Examples.ising (Full 4) (Full 4)
           (Explicit 4 [0]));
    vm_compute; reflexivity.
Defined.

Lemma norm_on_Full_is_dense_norm_witness :
  @MatNorm_GPU ZReal Build32 Examples.ising_mat NORM_INFINITY 0
  = Returned 0
      (with_ctx Examples.ising_mat
         (with_nrm (mat_ctx Examples.ising_mat)
            (@dense_norm_infinity ZReal Build32
               (mat_ctx Examples.ising_mat))),
       @dense_norm_infinity ZReal Build32 (mat_ctx Examples.ising_mat))
      [EvCacheRead; EvLaunchNorm (nmasks (mat_ctx Examples.ising_mat));
       EvCacheWrite].
Proof.
  apply (@norm_on_Full_is_dense_norm ZReal Build32 ZReal_laws
           Examples.comm1 Examples.ising 4 Examples.ising_mat 0 ising_wf).
  - vm_compute; intro; discriminate.
  - vm_compute; split; [reflexivity | intro; discriminate].
  - vm_compute; repeat constructor; simpl; intuition discriminate.
  - intros k Hk.
    assert (Hin : In k (zrange 0 5)) by (apply in_zrange; exact Hk).
    vm_compute in Hin.
    repeat (destruct Hin as [<-|Hin];
            [vm_compute; split; [intro; discriminate | reflexivity]|]).
    destruct Hin.
  - vm_compute; reflexivity.
Defined.


End Dynamite.
